(** * game-particles: the particle simulation and the progression engine

    A shallow embedding of [src/hooks/useParticleAnimation.ts] (both the
    plain variant and the game variant with currency and upgrades) and of
    [getUpgradeCost] from [src/components/ParticleCanvas.tsx].

    Conventions of the embedding.
    - A JavaScript [number] that the program keeps integral (currency,
      score, upgrade levels, millisecond timestamps, the particle cap) is a
      [Z]; a real-valued one (positions, velocities, sizes, probabilities)
      is an exact rational [Q].
    - Where the source rounds a product down with [Math.floor] to an
      integer that is then counted or compared (the particle cap of
      [initParticles], the price of [getUpgradeCost]), the last bit of the
      product decides the result.  These products are computed in IEEE 754
      binary64 as the engine computes them, with [NaN] and the infinities
      ([Binary64]); [Math.pow], whose precision the language leaves to the
      engine, is a parameter there.  The panel and the purchases are
      stated over the price in exact arithmetic, which is the binary64
      price on the levels 0 to 34.
    - [Math.random()] is the sequence [random : nat -> Q]; the state counts
      how many values were drawn.  [Math.sqrt] is a parameter, [Date.now()]
      is the time [now] at which the modelled call runs.
    - The particle array behind [particlesRef] is a list that is read and
      written by index, so that two references to one particle observe the
      same flags.
    - A function of the hook reads [gameState] from the render in which it
      was created and writes through [setGameState(prev => ...)].  The
      former is an explicit argument, the latter acts on the state cell
      [gameStateCell].
    - [JSON.stringify], [JSON.parse] and the quota of [localStorage] belong
      to the platform: the hook takes the two functions as parameters, and
      [setItem] throws when the text does not fit.
    - Canvas drawing calls have no effect on the modelled state and are
      left out.

    [Simple] is the plain variant of the hook, [Game] the variant with
    currency, upgrades and persistence. *)

From Stdlib Require Import ZArith QArith Qround Qpower Qabs Lia Lqa Ascii.
From Stdlib Require Import SpecFloat.
From stdpp Require Import base option list gmap strings pretty.

Local Open Scope Z_scope.

(** ** JavaScript numbers *)

Module Js.

Definition ltb (a b : Q) : bool := negb (Qle_bool b a).
Definition min (a b : Q) : Q := if ltb b a then b else a.
Definition max (a b : Q) : Q := if ltb a b then b else a.
Definition floor (a : Q) : Z := Qfloor a.
Definition pow (a : Q) (n : Z) : Q := Qpower a n.

(** [v || d] for a number [v] that may be missing: [undefined] and [0]
    are falsy. *)
Definition or_else (v : option Q) (d : Q) : Q :=
  match v with
  | Some q => if Qeq_bool q 0 then d else q
  | None => d
  end.

(** An optional boolean field read in a condition. *)
Definition truthy (b : option bool) : bool :=
  match b with Some true => true | _ => false end.

(** Where [splice] starts: a negative [start] counts from the end. *)
Definition splice_start (len start : Z) : Z :=
  if start <? 0 then Z.max (len + start) 0 else Z.min start len.

(** [Array.prototype.splice(start, deleteCount)] without inserted items:
    the array that is left. *)
Definition splice {A} (l : list A) (start deleteCount : Z) : list A :=
  let len := Z.of_nat (length l) in
  let s := splice_start len start in
  let d := Z.min (Z.max deleteCount 0) (len - s) in
  take (Z.to_nat s) l ++ drop (Z.to_nat (s + d)) l.

(** The property names every object literal inherits from
    [Object.prototype] (ECMA-262, 20.1.3 and B.2.2): reading one of them
    from an object that has no such key of its own gives a function (the
    prototype object itself for [__proto__]), not [undefined]. *)
Definition objectPrototypeKeys : list string :=
  ["constructor"; "hasOwnProperty"; "isPrototypeOf"; "propertyIsEnumerable";
   "toLocaleString"; "toString"; "valueOf"; "__proto__";
   "__defineGetter__"; "__defineSetter__"; "__lookupGetter__";
   "__lookupSetter__"]%string.

(** A computable stand-in for [Math.sqrt] (six decimal places), used to run
    the model on concrete frames. *)
Definition sqrt6 (q : Q) : Q :=
  Z.sqrt (Qfloor (q * 1000000000000)) # 1000000.

End Js.

(** ** Effects: state, exceptions and loop fuel *)

Inductive Res (S A : Type) : Type :=
  | Ok (a : A) (s : S)
  | Throw
  | OutOfFuel.
Arguments Ok {S A} a s.
Arguments Throw {S A}.
Arguments OutOfFuel {S A}.

Definition M (S A : Type) : Type := S -> Res S A.

#[global] Instance M_ret S : MRet (M S) := fun A a s => Ok a s.
#[global] Instance M_bind S : MBind (M S) := fun A B f m s =>
  match m s with
  | Ok a s' => f a s'
  | Throw => Throw
  | OutOfFuel => OutOfFuel
  end.

Definition get {S} : M S S := fun s => Ok s s.
Definition modify {S} (f : S -> S) : M S unit := fun s => Ok tt (f s).
Definition throw {S A} : M S A := fun _ => Throw.
Definition out_of_fuel {S A} : M S A := fun _ => OutOfFuel.
Definition when {S} (b : bool) (m : M S unit) : M S unit :=
  if b then m else mret tt.

(** [for (let j = 0; j < n; j++) body]. *)
Fixpoint times {S} (n : nat) (body : M S unit) : M S unit :=
  match n with
  | O => mret tt
  | S n' => body;; times n' body
  end.

(** The state a run ends in, if it ends normally. *)
Definition final {S A} (r : Res S A) : option S :=
  match r with Ok _ s => Some s | _ => None end.

(** ** Types shared by the two variants *)

(** [`rgba(r, g, b, a)`]. *)
Inductive Color := Rgba (r g b : Z) (a : Q).

(** The canvas element behind [canvasRef], and [canvasSizeRef]. *)
Record Canvas := { width : Q; height : Q }.

Record MousePosition := { mouseX : Q; mouseY : Q; isMoving : bool }.

(** The hook's options after the defaults of its destructuring. *)
Record Options := {
  opt_maxParticles : Z;
  opt_interactionRadius : Q;
  opt_repulsionStrength : Q;
  opt_targetSpawnRate : Q
}.

Definition defaultOptions : Options :=
  {| opt_maxParticles := 50; opt_interactionRadius := 150;
     opt_repulsionStrength := 0.08; opt_targetSpawnRate := 0.01 |}.

(** The options [ParticleCanvas] passes to the hook. *)
Definition canvasOptions : Options :=
  {| opt_maxParticles := 60; opt_interactionRadius := 150;
     opt_repulsionStrength := 0.1; opt_targetSpawnRate := 0.01 |}.

(** What a frame reads from refs that event handlers maintain. *)
Record Inputs := {
  scaledMousePos : Q * Q;
  mousePositionRef : option MousePosition;
  canvasSize : Canvas;
  now : Z
}.

(** [scaledMousePosRef.current.x !== 0 ? scaledMousePosRef.current
    : mousePositionRef.current], as the coordinates that are read. *)
Definition mousePos (inp : Inputs) : option (Q * Q) :=
  if negb (Qeq_bool (fst (scaledMousePos inp)) 0)
  then Some (scaledMousePos inp)
  else (fun m => (mouseX m, mouseY m)) <$> mousePositionRef inp.

(** [mousePos && mousePos.x !== 0 && mousePos.y !== 0]. *)
Definition interacting (inp : Inputs) : bool :=
  match mousePos inp with
  | Some (mx, my) => negb (Qeq_bool mx 0) && negb (Qeq_bool my 0)
  | None => false
  end.

(** ** Upgrade costs ([ParticleCanvas.tsx]) *)

Definition baseCosts : gmap string Q :=
  list_to_map
    [("maxParticles"%string, 5%Q); ("particleSize"%string, 10%Q);
     ("interactionRadius"%string, 8%Q); ("targetSpawnRate"%string, 15%Q);
     ("autoCollectors"%string, 25%Q); ("particleSpeed"%string, 12%Q);
     ("autonomyLevel"%string, 20%Q)].

Definition scaleFactor : gmap string Q :=
  list_to_map
    [("maxParticles"%string, 1.5%Q); ("particleSize"%string, 1.8%Q);
     ("interactionRadius"%string, 1.6%Q); ("targetSpawnRate"%string, 1.7%Q);
     ("autoCollectors"%string, 2.5%Q); ("particleSpeed"%string, 1.9%Q);
     ("autonomyLevel"%string, 2.2%Q)].

(** The price formula over the rationals, for the ids of the tables and
    for ids that are no property of an object at all.  [Binary64] below has
    the price as the engine computes it. *)
Definition getUpgradeCost (upgradeType : string) (currentLevel : Z) : Z :=
  let baseCost := Js.or_else (baseCosts !! upgradeType) 10 in
  let factor := Js.or_else (scaleFactor !! upgradeType) 1.5 in
  Js.floor (baseCost * Js.pow factor currentLevel).

(** ** Binary64 numbers

    What the engine computes where the source takes [Math.floor] of a
    product: IEEE 754 binary64, the format of a JavaScript [number], with
    the operations of the standard library's [SpecFloat] (a number is a
    sign, a mantissa and an exponent, or a zero, an infinity or [NaN];
    every operation rounds to nearest, ties to even). *)

Module Binary64.

Definition prec : Z := 53.
Definition emax : Z := 1024.

Definition number : Type := spec_float.

Definition NaN : number := S754_nan.

(** An integer as a number: exact up to [2^53], the nearest number
    beyond. *)
Definition of_Z (z : Z) : number := binary_normalize prec emax z 0 false.

(** The number a decimal literal stands for: the one nearest to its
    value.  [0.2] is [of_Q 0.2], the quotient of 2 and 10 rounded once. *)
Definition of_Q (q : Q) : number :=
  SFdiv prec emax (of_Z (Qnum q)) (of_Z (Zpos (Qden q))).

Definition add : number -> number -> number := SFadd prec emax.
Definition mul : number -> number -> number := SFmul prec emax.

(** The value [m * 2^e] of a finite number, rounded down to an integer. *)
Definition floorZ (s : bool) (m : positive) (e : Z) : Z :=
  let v := cond_Zopp s (Zpos m) in
  if 0 <=? e then Z.shiftl v e else Z.shiftr v (- e).

(** [Math.floor]: zeros, infinities and [NaN] are returned as they are. *)
Definition floor (x : number) : number :=
  match x with
  | S754_finite s m e => of_Z (floorZ s m e)
  | _ => x
  end.

(** The integer below a finite number: the number itself when it is
    integral, as after [Math.floor]. *)
Definition toZ (x : number) : option Z :=
  match x with
  | S754_zero _ => Some 0
  | S754_finite s m e => Some (floorZ s m e)
  | _ => None
  end.

(** The rounds of [for (let i = 0; i < bound; i++)] for an integral
    [bound].  A comparison with [NaN] is false, so [NaN] admits no round.
    With [Infinity] the loop of the source would not end; a product of two
    integers is infinite only from [2^1024] on, far beyond the integers a
    number can count ([2^53]), and [rounds] is 0 there. *)
Definition rounds (bound : number) : Z := default 0 (toZ bound).

(** *** [Math.pow]

    The language leaves the precision of [Math.pow] to the engine.  The
    engines compute it with an error below one unit in the last place: the
    result is the exact power if that is a number, and else the number
    just below it or the number just above it. *)

(** The numbers next to the real [m * 2^e], for [0 < m]. *)
Definition roundings (m e : Z) : list number :=
  let r := binary_normalize prec emax m e false in
  match r with
  | S754_finite _ mr er =>
      let k := Z.min e er in
      match Z.shiftl (Zpos mr) (er - k) ?= Z.shiftl m (e - k) with
      | Eq => [r]
      | Lt => [r; SFsucc prec emax r]
      | Gt => [SFpred prec emax r; r]
      end
  | S754_infinity _ => [SFmax_float prec emax; r]
  | _ => [r; SFsucc prec emax r]
  end.

(** [pow x n] stands for [Math.pow(x, n)] with an integer [n]. *)
Definition Accurate (pow : number -> Z -> number) : Prop :=
  forall m e n, 0 <= n ->
    pow (S754_finite false m e) n ∈ roundings (Zpos m ^ n) (e * n).

(** One accurate [pow]: the exact power, rounded once. *)
Definition pow_nearest (x : number) (n : Z) : number :=
  match x with
  | S754_finite false m e => binary_normalize prec emax (Zpos m ^ n) (e * n) false
  | _ => NaN
  end.

(** *** The price of an upgrade *)

(** [table[key]] for an object literal whose own keys and values are those
    of [table]. *)
Inductive property :=
  | Own (q : Q)
  | Inherited
  | Undefined.

Definition property_of (table : gmap string Q) (key : string) : property :=
  match table !! key with
  | Some q => Own q
  | None =>
      if bool_decide (key ∈ Js.objectPrototypeKeys) then Inherited
      else Undefined
  end.

(** [v || d], read as a number by [*] or [Math.pow]: [undefined] and [0]
    are falsy; an inherited function or object is truthy and converts to
    [NaN]. *)
Definition or_else (v : property) (d : Q) : number :=
  match v with
  | Own q => if Qeq_bool q 0 then of_Q d else of_Q q
  | Inherited => NaN
  | Undefined => of_Q d
  end.

Section Cost.

Variable pow : number -> Z -> number.

(** [getUpgradeCost] as the engine computes it. *)
Definition getUpgradeCost (upgradeType : string) (currentLevel : Z) : number :=
  let baseCost := or_else (property_of baseCosts upgradeType) 10 in
  let factor := or_else (property_of scaleFactor upgradeType) 1.5 in
  floor (mul baseCost (pow factor currentLevel)).

End Cost.

(** *** Levels checked by computation

    The prices [floor(baseCost * p)] for every [p] next to the exact power
    [mL * 2^(e * L)], and whether each price at one level is below each
    price at the next, or equal to a given integer. *)

Definition pricesAt (baseCost : number) (e L mL : Z) : list number :=
  (fun p => floor (mul baseCost p)) <$> roundings mL (e * L).

Definition below (c c' : number) : bool :=
  match toZ c, toZ c' with
  | Some z, Some z' => z <? z'
  | _, _ => false
  end.



(** [n] levels from [L] on; [mL] is [m ^ L]. *)
Fixpoint risesFrom (baseCost : number) (m e L mL : Z) (n : nat) : bool :=
  match n with
  | O => true
  | S n' =>
      forallb (fun c => forallb (below c) (pricesAt baseCost e (L + 1) (m * mL)))
        (pricesAt baseCost e L mL)
      && risesFrom baseCost m e (L + 1) (m * mL) n'
  end.






End Binary64.

(** ** The plain variant of the hook (score only) *)

Module Simple.

Record Particle := {
  x : Q;
  y : Q;
  size : Q;
  vx : Q;
  vy : Q;
  color : Color;
  alpha : Q;
  isTarget : option bool
}.

Record State := {
  particles : list Particle;
  score : Z;
  showScore : bool;
  showHint : bool;
  targetCollectedTime : Z;
  interactionStartTime : Z;
  randomCalls : nat
}.

Definition with_particles (f : list Particle -> list Particle) (s : State) : State :=
  {| particles := f (particles s); score := score s;
     showScore := showScore s; showHint := showHint s;
     targetCollectedTime := targetCollectedTime s;
     interactionStartTime := interactionStartTime s;
     randomCalls := randomCalls s |}.

Definition with_score (f : Z -> Z) (s : State) : State :=
  {| particles := particles s; score := f (score s);
     showScore := showScore s; showHint := showHint s;
     targetCollectedTime := targetCollectedTime s;
     interactionStartTime := interactionStartTime s;
     randomCalls := randomCalls s |}.

Definition with_showScore (b : bool) (s : State) : State :=
  {| particles := particles s; score := score s;
     showScore := b; showHint := showHint s;
     targetCollectedTime := targetCollectedTime s;
     interactionStartTime := interactionStartTime s;
     randomCalls := randomCalls s |}.

Definition with_showHint (b : bool) (s : State) : State :=
  {| particles := particles s; score := score s;
     showScore := showScore s; showHint := b;
     targetCollectedTime := targetCollectedTime s;
     interactionStartTime := interactionStartTime s;
     randomCalls := randomCalls s |}.

Definition with_targetCollectedTime (t : Z) (s : State) : State :=
  {| particles := particles s; score := score s;
     showScore := showScore s; showHint := showHint s;
     targetCollectedTime := t;
     interactionStartTime := interactionStartTime s;
     randomCalls := randomCalls s |}.

Definition with_interactionStartTime (t : Z) (s : State) : State :=
  {| particles := particles s; score := score s;
     showScore := showScore s; showHint := showHint s;
     targetCollectedTime := targetCollectedTime s;
     interactionStartTime := t;
     randomCalls := randomCalls s |}.

Definition with_randomCalls (n : nat) (s : State) : State :=
  {| particles := particles s; score := score s;
     showScore := showScore s; showHint := showHint s;
     targetCollectedTime := targetCollectedTime s;
     interactionStartTime := interactionStartTime s;
     randomCalls := n |}.

(** Assignments to the fields of [particles[i]]. *)
Definition set_pos (x' y' : Q) (p : Particle) : Particle :=
  {| x := x'; y := y'; size := size p; vx := vx p; vy := vy p;
     color := color p; alpha := alpha p; isTarget := isTarget p |}.

Definition set_vel (vx' vy' : Q) (p : Particle) : Particle :=
  {| x := x p; y := y p; size := size p; vx := vx'; vy := vy';
     color := color p; alpha := alpha p; isTarget := isTarget p |}.

Definition set_isTarget (b : bool) (p : Particle) : Particle :=
  {| x := x p; y := y p; size := size p; vx := vx p; vy := vy p;
     color := color p; alpha := alpha p; isTarget := Some b |}.

Definition targetCount (ps : list Particle) : nat :=
  length (filter (fun p => Js.truthy (isTarget p) = true) ps).

Section Hook.

Variable random : nat -> Q.
Variable sqrt : Q -> Q.
Variable opts : Options.

(** [Math.random()]. *)
Definition draw : M State Q := fun s =>
  Ok (random (randomCalls s)) (with_randomCalls (S (randomCalls s)) s).

(** [particles[i]]; reading a field of a missing element throws. *)
Definition particleAt (i : nat) : M State Particle := fun s =>
  match particles s !! i with
  | Some p => Ok p s
  | None => Throw
  end.

Definition push (p : Particle) : M State unit :=
  modify (with_particles (fun ps => ps ++ [p])).

Definition update (i : nat) (f : Particle -> Particle) : M State unit :=
  modify (with_particles (alter f i)).

(** The object literal pushed by [initParticles] for index [i]; the
    arguments are its [Math.random()] values in the order they are drawn. *)
Definition particleLiteral (canvas : Canvas) (i : Z) (rx ry rs rvx rvy rc ra : Q)
  : Particle :=
  {| x := rx * width canvas; y := ry * height canvas;
     size := 1 + rs * 2;
     vx := (rvx - 0.5) * 0.5; vy := (rvy - 0.5) * 0.5;
     color := Rgba 0 246 255 (0.5 + rc * 0.5);
     alpha := 0.5 + ra * 0.5;
     isTarget := Some (i <? 3) |}%Q.

Definition newParticle (canvas : Canvas) (i : Z) : M State Particle :=
  rx ← draw; ry ← draw; rs ← draw; rvx ← draw; rvy ← draw;
  rc ← draw; ra ← draw;
  mret (particleLiteral canvas i rx ry rs rvx rvy rc ra).

(** [for (let i = ...; i < maxParticles; i++)] with [n] rounds to go. *)
Fixpoint initLoop (canvas : Canvas) (n : nat) (i : Z) : M State unit :=
  match n with
  | O => mret tt
  | S n' => p ← newParticle canvas i; push p;; initLoop canvas n' (i + 1)
  end.

Definition initParticles (canvasRef : option Canvas) : M State unit :=
  modify (with_particles (fun _ => []));;
  match canvasRef with
  | None => mret tt
  | Some canvas => initLoop canvas (Z.to_nat (opt_maxParticles opts)) 0
  end.

(** The particle round [i] of that loop builds after [k] earlier draws,
    and the array the loop builds in [n] rounds. *)
Definition freshParticle (canvas : Canvas) (k : nat) (i : Z) : Particle :=
  particleLiteral canvas i (random k) (random (1 + k)) (random (2 + k))
    (random (3 + k)) (random (4 + k)) (random (5 + k)) (random (6 + k)).

Fixpoint populationFrom (canvas : Canvas) (k n : nat) (i : Z) : list Particle :=
  match n with
  | O => []
  | S n' => freshParticle canvas k i :: populationFrom canvas (7 + k) n' (i + 1)
  end.

Definition population (canvasRef : option Canvas) (k : nat) : list Particle :=
  match canvasRef with
  | None => []
  | Some canvas => populationFrom canvas k (Z.to_nat (opt_maxParticles opts)) 0
  end.

(** The burst particle pushed when [p] is collected. *)
Definition burstLiteral (p : Particle) (rs rvx rvy rc ra : Q) : Particle :=
  {| x := x p; y := y p;
     size := 1 + rs * 1.5;
     vx := (rvx - 0.5) * 2; vy := (rvy - 0.5) * 2;
     color := Rgba 0 255 150 (0.7 + rc * 0.3);
     alpha := 0.7 + ra * 0.3;
     isTarget := None |}%Q.

Definition burst (p : Particle) : M State Particle :=
  rs ← draw; rvx ← draw; rvy ← draw; rc ← draw; ra ← draw;
  mret (burstLiteral p rs rvx rvy rc ra).

Definition distance (dx dy : Q) : Q := sqrt (dx * dx + dy * dy)%Q.

(** [dx / distance || 0]. *)
Definition direction (dx dist : Q) : Q :=
  if Qeq_bool dist 0 then 0%Q else (dx / dist)%Q.

(** The interaction-start block at the top of [updateParticles]. *)
Definition noteInteraction (inp : Inputs) : M State unit :=
  when (interacting inp)
    (s ← get;
     when (interactionStartTime s =? 0)
       (modify (with_interactionStartTime (now inp)));;
     s ← get;
     when (1000 <? now inp - interactionStartTime s)
       (modify (with_showScore true);;
        when (2000 <? now inp - interactionStartTime s)
          (modify (with_showHint false)))).

(** "Check if we need to add more targets". *)
Definition replenish : M State unit :=
  s ← get;
  if (targetCount (particles s) <? 3)%nat then
    r ← draw;
    if Js.ltb r (opt_targetSpawnRate opts) then
      r' ← draw;
      s ← get;
      let randomIndex :=
        Js.floor (r' * inject_Z (Z.of_nat (length (particles s)))) in
      if randomIndex <? 0 then throw else
      p ← particleAt (Z.to_nat randomIndex);
      when (negb (Js.truthy (isTarget p)))
        (update (Z.to_nat randomIndex) (set_isTarget true))
    else mret tt
  else mret tt.

(** "Apply mouse interaction" for [particles[i]]. *)
Definition mouseInteraction (inp : Inputs) (i : nat) : M State unit :=
  match mousePos inp with
  | None => mret tt
  | Some (mx, my) =>
      p ← particleAt i;
      let dx := (x p - mx)%Q in
      let dy := (y p - my)%Q in
      let dist := distance dx dy in
      when (Js.truthy (isTarget p) && Js.ltb dist 30)
        (modify (with_score (fun n => n + 1));;
         update i (set_isTarget false);;
         modify (with_targetCollectedTime (now inp));;
         times 10 (q ← particleAt i; b ← burst q; push b));;
      when (Js.ltb dist (opt_interactionRadius opts))
        (let force := ((opt_interactionRadius opts - dist)
                       / opt_interactionRadius opts)%Q in
         update i (fun p =>
           set_vel (vx p + direction dx dist * force * opt_repulsionStrength opts)
                   (vy p + direction dy dist * force * opt_repulsionStrength opts)
                   p)%Q)
  end.

(** "Update position" and "Apply friction". *)
Definition integrate (p : Particle) : Particle :=
  set_vel (vx p * 0.98) (vy p * 0.98) (set_pos (x p + vx p) (y p + vy p) p)%Q.

(** "Wrap around edges": four independent tests, in this order. *)
Definition wrap (cs : Canvas) (p : Particle) : Particle :=
  let p := if Js.ltb (x p) 0 then set_pos (width cs) (y p) p else p in
  let p := if Js.ltb (width cs) (x p) then set_pos 0 (y p) p else p in
  let p := if Js.ltb (y p) 0 then set_pos (x p) (height cs) p else p in
  let p := if Js.ltb (height cs) (y p) then set_pos (x p) 0 p else p in
  p.

Definition updateParticle (inp : Inputs) (i : nat) : M State unit :=
  mouseInteraction inp i;;
  update i integrate;;
  update i (wrap (canvasSize inp)).

(** [for (let i = 0; i < particles.length; i++)]: the bound is read again
    in every round, so bursts pushed by a round are visited too. *)
Fixpoint updateLoop (fuel : nat) (inp : Inputs) (i : nat) : M State unit :=
  match fuel with
  | O => out_of_fuel
  | S fuel' =>
      s ← get;
      if (i <? length (particles s))%nat
      then updateParticle inp i;; updateLoop fuel' inp (S i)
      else mret tt
  end.

(** "Clean up excess particles". *)
Definition cleanup (ps : list Particle) : list Particle :=
  let len := Z.of_nat (length ps) in
  if Js.ltb (inject_Z (opt_maxParticles opts) * 1.5) (inject_Z len)
  then Js.splice ps (opt_maxParticles opts) (len - opt_maxParticles opts)
  else ps.

(** Every target that is collected adds ten particles to visit. *)
Definition frameFuel (ps : list Particle) : nat :=
  S (length ps + 10 * targetCount ps).

Definition updateParticles (inp : Inputs) : M State unit :=
  noteInteraction inp;;
  replenish;;
  s ← get;
  updateLoop (frameFuel (particles s)) inp 0;;
  modify (with_particles cleanup).

End Hook.

(** What the fuel of a frame is measured against: ten rounds for every
    target that can still be collected, one for every particle. *)
Definition workLeft (s : State) : nat :=
  (length (particles s) + 10 * targetCount (particles s))%nat.

(** A computation that returns from every state with a particle at index
    [i], removes no particle and turns every target it clears into ten new
    particles. *)
Definition Fine {A} (i : nat) (m : M State A) : Prop :=
  forall s, (i < length (particles s))%nat ->
    exists a s',
      m s = Ok a s'
      /\ (length (particles s) <= length (particles s'))%nat
      /\ workLeft s' = workLeft s.

End Simple.
(** ** A JSON text codec

    [JSON.stringify] and [JSON.parse] belong to the platform.  The hook is
    verified against any pair of them; this executable codec for the
    fragment a [GameState] needs (objects, integers, booleans, no white
    space) is the instance the model is run with. *)

Module Json.

#[local] Set Warnings "-register-all".
Inductive json :=
  | JNum (z : Z)
  | JBool (b : bool)
  | JObject (members : list (string * json)).

Definition dquote : ascii := Ascii.ascii_of_nat 34.

Definition quoted (s : string) : string :=
  String dquote (s +:+ String dquote EmptyString).

(** The members of an object, printed with [pr] for the values. *)
Definition print_members (pr : json -> string)
  : list (string * json) -> string :=
  fix go (ms : list (string * json)) : string :=
    match ms with
    | [] => EmptyString
    | (k, v) :: ms' =>
        quoted k +:+ ":" +:+ pr v +:+
        match ms' with [] => EmptyString | _ => "," +:+ go ms' end
    end.

Fixpoint print (j : json) : string :=
  match j with
  | JNum z => pretty z
  | JBool true => "true"
  | JBool false => "false"
  | JObject ms => "{" +:+ print_members print ms +:+ "}"
  end.

Definition is_digit (c : ascii) : bool :=
  (48 <=? Ascii.nat_of_ascii c)%nat && (Ascii.nat_of_ascii c <=? 57)%nat.

Definition first_is (c : ascii) (s : string) : bool :=
  match s with String a _ => Ascii.eqb a c | EmptyString => false end.

Definition tail (s : string) : string :=
  match s with String _ r => r | EmptyString => EmptyString end.

(** The number read from the leading digits of [s], after [acc]. *)
Fixpoint digits (s : string) (acc : Z) : Z * string :=
  match s with
  | String c s' =>
      if is_digit c
      then digits s' (10 * acc + (Z.of_nat (Ascii.nat_of_ascii c) - 48))
      else (acc, s)
  | EmptyString => (acc, s)
  end.

Definition starts_with_digit (s : string) : bool :=
  match s with String c _ => is_digit c | EmptyString => false end.

Definition parse_number (s : string) : option (Z * string) :=
  if first_is "-" s then
    if starts_with_digit (tail s)
    then let '(n, r) := digits (tail s) 0 in Some (- n, r)
    else None
  else if starts_with_digit s then Some (digits s 0) else None.

(** The text up to the next double quote, and what follows the quote. *)
Fixpoint until_quote (s : string) : option (string * string) :=
  match s with
  | EmptyString => None
  | String c s' =>
      if Ascii.eqb c dquote then Some (EmptyString, s')
      else '(k, r) ← until_quote s'; Some (String c k, r)
  end.

Fixpoint strip_prefix (p s : string) : option string :=
  match p, s with
  | EmptyString, _ => Some s
  | String a p', String b s' => if Ascii.eqb a b then strip_prefix p' s' else None
  | String _ _, EmptyString => None
  end.

Fixpoint parse_value (fuel : nat) (s : string) : option (json * string) :=
  match fuel with
  | O => None
  | S fuel' =>
      if first_is "{" s then
        if first_is "}" (tail s) then Some (JObject [], tail (tail s))
        else '(ms, r) ← parse_members fuel' (tail s); Some (JObject ms, r)
      else if first_is "t" s then
        r ← strip_prefix "true" s; Some (JBool true, r)
      else if first_is "f" s then
        r ← strip_prefix "false" s; Some (JBool false, r)
      else '(z, r) ← parse_number s; Some (JNum z, r)
  end
with parse_members (fuel : nat) (s : string)
  : option (list (string * json) * string) :=
  match fuel with
  | O => None
  | S fuel' =>
      if first_is dquote s then
        '(k, s2) ← until_quote (tail s);
        s3 ← strip_prefix ":" s2;
        '(v, s4) ← parse_value fuel' s3;
        if first_is "," s4 then
          '(ms, r) ← parse_members fuel' (tail s4); Some ((k, v) :: ms, r)
        else if first_is "}" s4 then Some ([(k, v)], tail s4)
        else None
      else None
  end.

Definition parse (s : string) : option json :=
  match parse_value (S (String.length s)) s with
  | Some (j, EmptyString) => Some j
  | _ => None
  end.

(** The rounds of [parse_value] that reading back [print j] takes at
    most. *)
Fixpoint size (j : json) : nat :=
  match j with
  | JObject ms =>
      S ((fix go (ms : list (string * json)) : nat :=
            match ms with
            | [] => O
            | (_, v) :: ms' => S (size v + go ms')
            end) ms)
  | _ => 1%nat
  end.

(** Keys that [quoted] can carry: no double quote inside. *)
Fixpoint plain_key (k : string) : bool :=
  match k with
  | EmptyString => true
  | String c k' => negb (Ascii.eqb c dquote) && plain_key k'
  end.

Fixpoint plain (j : json) : bool :=
  match j with
  | JObject ms =>
      (fix go (ms : list (string * json)) : bool :=
         match ms with
         | [] => true
         | (k, v) :: ms' => plain_key k && plain v && go ms'
         end) ms
  | _ => true
  end.

(** [o[k]] on a parsed object. *)
Fixpoint member (k : string) (ms : list (string * json)) : option json :=
  match ms with
  | [] => None
  | (k', v) :: ms' => if String.eqb k k' then Some v else member k ms'
  end.

Definition num (k : string) (ms : list (string * json)) : option Z :=
  match member k ms with Some (JNum z) => Some z | _ => None end.

Definition bool (k : string) (ms : list (string * json)) : option bool :=
  match member k ms with Some (JBool b) => Some b | _ => None end.

Definition object (k : string) (ms : list (string * json))
  : option (list (string * json)) :=
  match member k ms with Some (JObject o) => Some o | _ => None end.

End Json.

(** ** The game variant of the hook (currency, upgrades, persistence) *)

Module Game.

Inductive ParticleBehavior := normal | seeker | avoider | collector.

Record GameUpgrades := {
  maxParticles : Z;
  particleSize : Z;
  interactionRadius : Z;
  targetSpawnRate : Z;
  autoCollectors : Z;
  particleSpeed : Z;
  autonomyLevel : Z
}.

(** [keyof GameUpgrades]. *)
Inductive UpgradeKey :=
  | KmaxParticles | KparticleSize | KinteractionRadius | KtargetSpawnRate
  | KautoCollectors | KparticleSpeed | KautonomyLevel.

Definition key_name (k : UpgradeKey) : string :=
  match k with
  | KmaxParticles => "maxParticles"
  | KparticleSize => "particleSize"
  | KinteractionRadius => "interactionRadius"
  | KtargetSpawnRate => "targetSpawnRate"
  | KautoCollectors => "autoCollectors"
  | KparticleSpeed => "particleSpeed"
  | KautonomyLevel => "autonomyLevel"
  end.

(** [upgrades[k]]. *)
Definition get_upgrade (u : GameUpgrades) (k : UpgradeKey) : Z :=
  match k with
  | KmaxParticles => maxParticles u
  | KparticleSize => particleSize u
  | KinteractionRadius => interactionRadius u
  | KtargetSpawnRate => targetSpawnRate u
  | KautoCollectors => autoCollectors u
  | KparticleSpeed => particleSpeed u
  | KautonomyLevel => autonomyLevel u
  end.

(** [{ ...upgrades, [k]: v }]. *)
Definition set_upgrade (u : GameUpgrades) (k : UpgradeKey) (v : Z) : GameUpgrades :=
  match k with
  | KmaxParticles =>
      {| maxParticles := v; particleSize := particleSize u;
         interactionRadius := interactionRadius u;
         targetSpawnRate := targetSpawnRate u;
         autoCollectors := autoCollectors u;
         particleSpeed := particleSpeed u; autonomyLevel := autonomyLevel u |}
  | KparticleSize =>
      {| maxParticles := maxParticles u; particleSize := v;
         interactionRadius := interactionRadius u;
         targetSpawnRate := targetSpawnRate u;
         autoCollectors := autoCollectors u;
         particleSpeed := particleSpeed u; autonomyLevel := autonomyLevel u |}
  | KinteractionRadius =>
      {| maxParticles := maxParticles u; particleSize := particleSize u;
         interactionRadius := v;
         targetSpawnRate := targetSpawnRate u;
         autoCollectors := autoCollectors u;
         particleSpeed := particleSpeed u; autonomyLevel := autonomyLevel u |}
  | KtargetSpawnRate =>
      {| maxParticles := maxParticles u; particleSize := particleSize u;
         interactionRadius := interactionRadius u;
         targetSpawnRate := v;
         autoCollectors := autoCollectors u;
         particleSpeed := particleSpeed u; autonomyLevel := autonomyLevel u |}
  | KautoCollectors =>
      {| maxParticles := maxParticles u; particleSize := particleSize u;
         interactionRadius := interactionRadius u;
         targetSpawnRate := targetSpawnRate u;
         autoCollectors := v;
         particleSpeed := particleSpeed u; autonomyLevel := autonomyLevel u |}
  | KparticleSpeed =>
      {| maxParticles := maxParticles u; particleSize := particleSize u;
         interactionRadius := interactionRadius u;
         targetSpawnRate := targetSpawnRate u;
         autoCollectors := autoCollectors u;
         particleSpeed := v; autonomyLevel := autonomyLevel u |}
  | KautonomyLevel =>
      {| maxParticles := maxParticles u; particleSize := particleSize u;
         interactionRadius := interactionRadius u;
         targetSpawnRate := targetSpawnRate u;
         autoCollectors := autoCollectors u;
         particleSpeed := particleSpeed u; autonomyLevel := v |}
  end.

Record GameState := {
  currency : Z;
  score : Z;
  level : Z;
  upgrades : GameUpgrades;
  lastUpdate : Z;
  gameStarted : bool;
  highestCurrency : Z
}.

(** The argument of [useState] in the hook; [Date.now()] is [now]. *)
Definition initialGameState (now : Z) : GameState :=
  {| currency := 0; score := 0; level := 1;
     upgrades := {| maxParticles := 1; particleSize := 1;
                    interactionRadius := 1; targetSpawnRate := 1;
                    autoCollectors := 0; particleSpeed := 1;
                    autonomyLevel := 0 |};
     lastUpdate := now; gameStarted := false; highestCurrency := 0 |}.

Record Particle := {
  x : Q;
  y : Q;
  size : Q;
  vx : Q;
  vy : Q;
  color : Color;
  alpha : Q;
  isTarget : option bool;
  isCollector : option bool;
  autonomy : Q;
  behavior : ParticleBehavior;
  lastDirectionChange : Z
}.

(** [localStorage]: the stored items and the room left for one value;
    [setItem] throws when the value does not fit. *)
Record LocalStorage := {
  items : gmap string string;
  quota : nat
}.

Record State := {
  particles : list Particle;
  gameStateCell : GameState;
  showScore : bool;
  showHint : bool;
  targetCollectedTime : Z;
  interactionStartTime : Z;
  localStorage : LocalStorage;
  randomCalls : nat
}.

Definition with_particles (f : list Particle -> list Particle) (s : State) : State :=
  {| particles := f (particles s); gameStateCell := gameStateCell s;
     showScore := showScore s; showHint := showHint s;
     targetCollectedTime := targetCollectedTime s;
     interactionStartTime := interactionStartTime s;
     localStorage := localStorage s; randomCalls := randomCalls s |}.

(** [setGameState(updater)]. *)
Definition setGameState (f : GameState -> GameState) (s : State) : State :=
  {| particles := particles s; gameStateCell := f (gameStateCell s);
     showScore := showScore s; showHint := showHint s;
     targetCollectedTime := targetCollectedTime s;
     interactionStartTime := interactionStartTime s;
     localStorage := localStorage s; randomCalls := randomCalls s |}.

Definition with_showScore (b : bool) (s : State) : State :=
  {| particles := particles s; gameStateCell := gameStateCell s;
     showScore := b; showHint := showHint s;
     targetCollectedTime := targetCollectedTime s;
     interactionStartTime := interactionStartTime s;
     localStorage := localStorage s; randomCalls := randomCalls s |}.

Definition with_showHint (b : bool) (s : State) : State :=
  {| particles := particles s; gameStateCell := gameStateCell s;
     showScore := showScore s; showHint := b;
     targetCollectedTime := targetCollectedTime s;
     interactionStartTime := interactionStartTime s;
     localStorage := localStorage s; randomCalls := randomCalls s |}.

Definition with_targetCollectedTime (t : Z) (s : State) : State :=
  {| particles := particles s; gameStateCell := gameStateCell s;
     showScore := showScore s; showHint := showHint s;
     targetCollectedTime := t;
     interactionStartTime := interactionStartTime s;
     localStorage := localStorage s; randomCalls := randomCalls s |}.

Definition with_interactionStartTime (t : Z) (s : State) : State :=
  {| particles := particles s; gameStateCell := gameStateCell s;
     showScore := showScore s; showHint := showHint s;
     targetCollectedTime := targetCollectedTime s;
     interactionStartTime := t;
     localStorage := localStorage s; randomCalls := randomCalls s |}.

Definition with_localStorage (f : LocalStorage -> LocalStorage) (s : State) : State :=
  {| particles := particles s; gameStateCell := gameStateCell s;
     showScore := showScore s; showHint := showHint s;
     targetCollectedTime := targetCollectedTime s;
     interactionStartTime := interactionStartTime s;
     localStorage := f (localStorage s); randomCalls := randomCalls s |}.

Definition with_randomCalls (n : nat) (s : State) : State :=
  {| particles := particles s; gameStateCell := gameStateCell s;
     showScore := showScore s; showHint := showHint s;
     targetCollectedTime := targetCollectedTime s;
     interactionStartTime := interactionStartTime s;
     localStorage := localStorage s; randomCalls := n |}.

(** Assignments to the fields of [particles[i]]. *)
Definition set_x (x' : Q) (p : Particle) : Particle :=
  {| x := x'; y := y p; size := size p; vx := vx p; vy := vy p;
     color := color p; alpha := alpha p; isTarget := isTarget p;
     isCollector := isCollector p; autonomy := autonomy p;
     behavior := behavior p; lastDirectionChange := lastDirectionChange p |}.

Definition set_y (y' : Q) (p : Particle) : Particle :=
  {| x := x p; y := y'; size := size p; vx := vx p; vy := vy p;
     color := color p; alpha := alpha p; isTarget := isTarget p;
     isCollector := isCollector p; autonomy := autonomy p;
     behavior := behavior p; lastDirectionChange := lastDirectionChange p |}.

Definition set_vx (vx' : Q) (p : Particle) : Particle :=
  {| x := x p; y := y p; size := size p; vx := vx'; vy := vy p;
     color := color p; alpha := alpha p; isTarget := isTarget p;
     isCollector := isCollector p; autonomy := autonomy p;
     behavior := behavior p; lastDirectionChange := lastDirectionChange p |}.

Definition set_vy (vy' : Q) (p : Particle) : Particle :=
  {| x := x p; y := y p; size := size p; vx := vx p; vy := vy';
     color := color p; alpha := alpha p; isTarget := isTarget p;
     isCollector := isCollector p; autonomy := autonomy p;
     behavior := behavior p; lastDirectionChange := lastDirectionChange p |}.

Definition set_isTarget (b : bool) (p : Particle) : Particle :=
  {| x := x p; y := y p; size := size p; vx := vx p; vy := vy p;
     color := color p; alpha := alpha p; isTarget := Some b;
     isCollector := isCollector p; autonomy := autonomy p;
     behavior := behavior p; lastDirectionChange := lastDirectionChange p |}.

Definition set_lastDirectionChange (t : Z) (p : Particle) : Particle :=
  {| x := x p; y := y p; size := size p; vx := vx p; vy := vy p;
     color := color p; alpha := alpha p; isTarget := isTarget p;
     isCollector := isCollector p; autonomy := autonomy p;
     behavior := behavior p; lastDirectionChange := t |}.

(** [p.vx += ix; p.vy += iy]. *)
Definition add_vel (ix iy : Q) (p : Particle) : Particle :=
  set_vy (vy p + iy) (set_vx (vx p + ix) p).

Definition is_target (p : Particle) : bool := Js.truthy (isTarget p).
Definition is_collector (p : Particle) : bool := Js.truthy (isCollector p).

(** [particles.filter(p => p.isTarget)]. *)
Definition targetsOf (ps : list Particle) : list Particle :=
  filter (fun p => is_target p = true) ps.

Definition targetCount (ps : list Particle) : nat := length (targetsOf ps).

(** The first index a [for] loop with a [break] stops at. *)
Fixpoint findIndex {A} (f : A -> bool) (l : list A) : option nat :=
  match l with
  | [] => None
  | a :: l' => if f a then Some O else S <$> findIndex f l'
  end.

Section Hook.

Variable random : nat -> Q.
Variable sqrt : Q -> Q.
Variable JSON_stringify : GameState -> string.
Variable JSON_parse : string -> option GameState.
Variable opts : Options.

(** [Math.random()]. *)
Definition draw : M State Q := fun s =>
  Ok (random (randomCalls s)) (with_randomCalls (S (randomCalls s)) s).

(** [particles[i]]; reading a field of a missing element throws. *)
Definition particleAt (i : nat) : M State Particle := fun s =>
  match particles s !! i with
  | Some p => Ok p s
  | None => Throw
  end.

Definition push (p : Particle) : M State unit :=
  modify (with_particles (fun ps => ps ++ [p])).

Definition update (i : nat) (f : Particle -> Particle) : M State unit :=
  modify (with_particles (alter f i)).

(** *** Persistence *)

Definition storageKey : string := "particleGame".

(** [localStorage.setItem(k, v)]; [None] when it throws. *)
Definition setItem (k v : string) (ls : LocalStorage) : option LocalStorage :=
  if (String.length v <=? quota ls)%nat
  then Some {| items := <[k := v]> (items ls); quota := quota ls |}
  else None.

Definition getItem (k : string) (ls : LocalStorage) : option string :=
  items ls !! k.

(** The [try] block of [saveGameState]; the [catch] only logs. *)
Definition saveGameState (gameState : GameState) : M State unit :=
  s ← get;
  match setItem storageKey (JSON_stringify gameState) (localStorage s) with
  | Some ls => modify (with_localStorage (fun _ => ls))
  | None => mret tt
  end.

(** The [try] block of [loadGameState]: an absent or empty item is falsy,
    a [JSON.parse] that throws is caught and logged.  [JSON_parse text =
    Some parsedState] stands for a text that [JSON.parse] turns into the
    complete game state [parsedState], and [None] for a text that it
    rejects.  The source hands whatever [JSON.parse] returns to
    [setGameState] unchecked; a text that parses to something else than a
    complete game state has no counterpart in [GameState], and the
    theorems on loading speak of the other texts only. *)
Definition loadGameState : M State unit :=
  s ← get;
  match getItem storageKey (localStorage s) with
  | None => mret tt
  | Some savedState =>
      if (String.length savedState =? 0)%nat then mret tt else
      match JSON_parse savedState with
      | Some parsedState => modify (setGameState (fun _ => parsedState))
      | None => mret tt
      end
  end.

(** *** The population *)

(** [Math.floor(maxParticles * (1 + gameState.upgrades.maxParticles *
    0.2))], as the bound of the loop. *)
Definition actualMaxParticles (gameState : GameState) : Z :=
  Binary64.rounds
    (Binary64.floor
       (Binary64.mul (Binary64.of_Z (opt_maxParticles opts))
          (Binary64.add (Binary64.of_Z 1)
             (Binary64.mul
                (Binary64.of_Z (maxParticles (upgrades gameState)))
                (Binary64.of_Q 0.2))))).

Definition behaviorFor (gameState : GameState) (i : Z) : ParticleBehavior :=
  if i <? autoCollectors (upgrades gameState) then collector
  else if (Z.rem i 10 =? 0) && (2 <? autonomyLevel (upgrades gameState))
  then seeker
  else if (Z.rem i 15 =? 0) && (3 <? autonomyLevel (upgrades gameState))
  then avoider
  else normal.

Definition colorFor (b : ParticleBehavior) (r : Q) : Color :=
  match b with
  | collector => Rgba 0 255 150 (0.7 + r * 0.3)
  | seeker => Rgba 255 100 50 (0.6 + r * 0.4)
  | avoider => Rgba 150 50 255 (0.6 + r * 0.4)
  | normal => Rgba 0 246 255 (0.5 + r * 0.5)
  end.

(** The object literal pushed by [initParticles] for index [i]; the
    arguments are its [Math.random()] values in the order they are drawn
    ([rau] is the one in [autonomy]). *)
Definition particleLiteral (gameState : GameState) (canvas : Canvas) (i : Z)
    (rau rx ry rs rvx rvy rc ra : Q) : Particle :=
  let u := upgrades gameState in
  let isCollector := i <? autoCollectors u in
  let behavior := behaviorFor gameState i in
  let baseAutonomy := Js.min 0.8 (inject_Z (autonomyLevel u) * 0.2) in
  let autonomy := (baseAutonomy * (0.5 + rau * 0.5))%Q in
  {| x := rx * width canvas; y := ry * height canvas;
     size := (1 + rs * 2) * (1 + inject_Z (particleSize u) * 0.1);
     vx := (rvx - 0.5) * 0.5 * inject_Z (particleSpeed u);
     vy := (rvy - 0.5) * 0.5 * inject_Z (particleSpeed u);
     color := colorFor behavior rc;
     alpha := 0.5 + ra * 0.5;
     isTarget := Some (i <? 3);
     isCollector := Some isCollector;
     autonomy := autonomy;
     behavior := behavior;
     lastDirectionChange := 0 |}%Q.

(** One round of the loop of [initParticles]. *)
Definition newParticle (gameState : GameState) (canvas : Canvas) (i : Z)
  : M State Particle :=
  rau ← draw;
  rx ← draw; ry ← draw; rs ← draw; rvx ← draw; rvy ← draw;
  rc ← draw; ra ← draw;
  mret (particleLiteral gameState canvas i rau rx ry rs rvx rvy rc ra).

(** [for (let i = ...; i < actualMaxParticles; i++)] with [n] rounds to go. *)
Fixpoint initLoop (gameState : GameState) (canvas : Canvas) (n : nat) (i : Z)
  : M State unit :=
  match n with
  | O => mret tt
  | S n' =>
      p ← newParticle gameState canvas i; push p;;
      initLoop gameState canvas n' (i + 1)
  end.

Definition initParticles (gameState : GameState) (canvasRef : option Canvas)
  : M State unit :=
  modify (with_particles (fun _ => []));;
  match canvasRef with
  | None => mret tt
  | Some canvas =>
      initLoop gameState canvas (Z.to_nat (actualMaxParticles gameState)) 0
  end.

(** The particle round [i] of that loop builds after [k] earlier draws,
    and the array the loop builds in [n] rounds. *)
Definition freshParticle (gameState : GameState) (canvas : Canvas) (k : nat)
    (i : Z) : Particle :=
  particleLiteral gameState canvas i (random k) (random (1 + k))
    (random (2 + k)) (random (3 + k)) (random (4 + k)) (random (5 + k))
    (random (6 + k)) (random (7 + k)).

Fixpoint populationFrom (gameState : GameState) (canvas : Canvas) (k n : nat)
    (i : Z) : list Particle :=
  match n with
  | O => []
  | S n' =>
      freshParticle gameState canvas k i
      :: populationFrom gameState canvas (8 + k) n' (i + 1)
  end.

Definition population (gameState : GameState) (canvasRef : option Canvas)
    (k : nat) : list Particle :=
  match canvasRef with
  | None => []
  | Some canvas =>
      populationFrom gameState canvas k
        (Z.to_nat (actualMaxParticles gameState)) 0
  end.

(** *** Collection and purchase *)

(** The burst particle pushed when [p] is collected. *)
Definition burstLiteral (p : Particle) (rs rvx rvy rc ra : Q) : Particle :=
  {| x := x p; y := y p;
     size := 1 + rs * 1.5;
     vx := (rvx - 0.5) * 2; vy := (rvy - 0.5) * 2;
     color := Rgba 255 215 0 (0.7 + rc * 0.3);
     alpha := 0.7 + ra * 0.3;
     isTarget := None; isCollector := None;
     autonomy := 0; behavior := normal;
     lastDirectionChange := 0 |}%Q.

Definition burst (p : Particle) : M State Particle :=
  rs ← draw; rvx ← draw; rvy ← draw; rc ← draw; ra ← draw;
  mret (burstLiteral p rs rvx rvy rc ra).

(** The [n] bursts pushed for [p] after [k] earlier draws. *)
Fixpoint burstsFrom (p : Particle) (k n : nat) : list Particle :=
  match n with
  | O => []
  | S n' =>
      burstLiteral p (random k) (random (1 + k)) (random (2 + k))
        (random (3 + k)) (random (4 + k))
      :: burstsFrom p (5 + k) n'
  end.

(** The updater [collectTarget] hands to [setGameState]. *)
Definition collected (prev : GameState) : GameState :=
  let newCurrency := currency prev + 1 in
  let newScore := score prev + 1 in
  {| currency := newCurrency; score := newScore; level := level prev;
     upgrades := upgrades prev; lastUpdate := lastUpdate prev;
     gameStarted := gameStarted prev;
     highestCurrency := Z.max (highestCurrency prev) newCurrency |}.

Definition collectTarget (now : Z) (index : nat) : M State unit :=
  p ← particleAt index;
  if negb (is_target p) then mret tt else
  update index (set_isTarget false);;
  modify (with_targetCollectedTime now);;
  times 10 (p ← particleAt index; b ← burst p; push b);;
  modify (setGameState collected).

(** The updater [purchaseUpgrade] hands to [setGameState]. *)
Definition purchased (upgradeType : UpgradeKey) (cost : Z) (prev : GameState)
  : GameState :=
  if currency prev <? cost then prev else
  {| currency := currency prev - cost; score := score prev;
     level := level prev;
     upgrades := set_upgrade (upgrades prev) upgradeType
                   (get_upgrade (upgrades prev) upgradeType + 1);
     lastUpdate := lastUpdate prev; gameStarted := gameStarted prev;
     highestCurrency := highestCurrency prev |}.

(** [gameState] is the state of the render that created this
    [purchaseUpgrade]; [initParticles] reads it, the updater does not. *)
Definition purchaseUpgrade (gameState : GameState) (canvasRef : option Canvas)
    (upgradeType : UpgradeKey) (cost : Z) : M State unit :=
  modify (setGameState (purchased upgradeType cost));;
  initParticles gameState canvasRef.

(** *** The frame *)

Definition distance (dx dy : Q) : Q := sqrt (dx * dx + dy * dy)%Q.

(** [dx / distance || 0]. *)
Definition direction (dx dist : Q) : Q :=
  if Qeq_bool dist 0 then 0%Q else (dx / dist)%Q.

(** The "find closest target" loop: [closestDist] starts at [Infinity]
    ([None]) and a target replaces the current one when strictly nearer. *)
Definition closer (p : Particle) (acc : Particle * option Q) (target : Particle)
  : Particle * option Q :=
  let dist := distance (x target - x p) (y target - y p) in
  match snd acc with
  | None => (target, Some dist)
  | Some closestDist =>
      if Js.ltb dist closestDist then (target, Some dist) else acc
  end.

Definition closestTarget (p : Particle) (targets : list Particle)
  : option Particle :=
  match targets with
  | [] => None
  | t0 :: _ => Some (fst (fold_left (closer p) targets (t0, None)))
  end.

(** "Move toward target": [p.vx += scale (dx / dist)], likewise [p.vy],
    unless the target is at distance 0. *)
Definition moveToward (target : Particle) (scale : Q -> Q) (p : Particle)
  : Particle :=
  let dx := (x target - x p)%Q in
  let dy := (y target - y p)%Q in
  let dist := distance dx dy in
  if Js.ltb 0 dist
  then add_vel (scale (dx / dist)%Q) (scale (dy / dist)%Q) p
  else p.

(** [p.vx += scale (Math.random() - 0.5)], then the same for [p.vy]. *)
Definition jitter (i : nat) (scale : Q -> Q) : M State unit :=
  r1 ← draw; r2 ← draw;
  update i (add_vel (scale (r1 - 0.5)%Q) (scale (r2 - 0.5)%Q)).

(** The body of "Change direction occasionally" for [particles[i]]. *)
Definition changeDirection (gameState : GameState) (now : Z) (i : nat)
  : M State unit :=
  let speed := inject_Z (particleSpeed (upgrades gameState)) in
  update i (set_lastDirectionChange now);;
  p ← particleAt i;
  s ← get;
  match behavior p with
  | seeker =>
      match closestTarget p (targetsOf (particles s)) with
      | Some t => update i (moveToward t (fun d => d * autonomy p * 0.05 * speed))
      | None => mret tt
      end
  | avoider => jitter i (fun r => r * autonomy p * 0.1 * speed)
  | collector =>
      match closestTarget p (targetsOf (particles s)) with
      | Some t => update i (moveToward t (fun d => d * 0.2 * speed))
      | None => jitter i (fun r => r * 0.05 * speed)
      end
  | normal => jitter i (fun r => r * autonomy p * 0.05 * speed)
  end%Q.

(** "Apply autonomous movement based on behavior". *)
Definition steer (gameState : GameState) (now : Z) (i : nat) : M State unit :=
  p ← particleAt i;
  if Js.ltb 0 (autonomy p) then
    r ← draw;
    if Js.ltb (1000 + r * 2000) (inject_Z (now - lastDirectionChange p))
    then changeDirection gameState now i
    else mret tt
  else mret tt.

(** "Auto-collectors can collect targets on their own". *)
Definition autoCollect (now : Z) (i : nat) : M State unit :=
  p ← particleAt i;
  if is_collector p then
    s ← get;
    match findIndex
            (fun t => is_target t
                      && Js.ltb (distance (x t - x p) (y t - y p)) 30)
            (particles s) with
    | Some j => collectTarget now j
    | None => mret tt
    end
  else mret tt.

Definition actualInteractionRadius (gameState : GameState) : Q :=
  opt_interactionRadius opts
  * (1 + inject_Z (interactionRadius (upgrades gameState)) * 0.1).

(** "Apply mouse interaction" for [particles[i]]. *)
Definition mouseInteraction (gameState : GameState) (inp : Inputs)
    (normalizedDelta : Q) (i : nat) : M State unit :=
  match mousePos inp with
  | None => mret tt
  | Some (mx, my) =>
      p ← particleAt i;
      let dx := (x p - mx)%Q in
      let dy := (y p - my)%Q in
      let dist := distance dx dy in
      when (is_target p && Js.ltb dist 30) (collectTarget (now inp) i);;
      let radius := actualInteractionRadius gameState in
      when (Js.ltb dist radius)
        (let force := ((radius - dist) / radius)%Q in
         update i
           (add_vel
              (direction dx dist * force * opt_repulsionStrength opts
               * normalizedDelta)
              (direction dy dist * force * opt_repulsionStrength opts
               * normalizedDelta)))
  end.

(** "Update position based on velocity" and "Apply friction". *)
Definition integrate (normalizedDelta : Q) (p : Particle) : Particle :=
  let p := set_x (x p + vx p * normalizedDelta) p in
  let p := set_y (y p + vy p * normalizedDelta) p in
  let p := set_vx (vx p * 0.98) p in
  set_vy (vy p * 0.98) p.

(** "Contain within canvas". *)
Definition contain (cs : Canvas) (p : Particle) : Particle :=
  let p :=
    if Js.ltb (x p) 0 then set_vx (vx p * -0.7) (set_x 0 p)
    else if Js.ltb (width cs) (x p)
    then set_vx (vx p * -0.7) (set_x (width cs) p)
    else p in
  if Js.ltb (y p) 0 then set_vy (vy p * -0.7) (set_y 0 p)
  else if Js.ltb (height cs) (y p)
  then set_vy (vy p * -0.7) (set_y (height cs) p)
  else p.

Definition updateParticle (gameState : GameState) (inp : Inputs)
    (normalizedDelta : Q) (i : nat) : M State unit :=
  steer gameState (now inp) i;;
  autoCollect (now inp) i;;
  mouseInteraction gameState inp normalizedDelta i;;
  update i (integrate normalizedDelta);;
  update i (contain (canvasSize inp)).

(** The steps of a round that come before the integration. *)
Definition beforeIntegration (gameState : GameState) (inp : Inputs)
    (normalizedDelta : Q) (i : nat) : M State unit :=
  steer gameState (now inp) i;;
  autoCollect (now inp) i;;
  mouseInteraction gameState inp normalizedDelta i.

(** [for (let i = 0; i < particles.length; i++)]: the bound is read again
    in every round, so bursts pushed by a round are visited too. *)
Fixpoint updateLoop (fuel : nat) (gameState : GameState) (inp : Inputs)
    (normalizedDelta : Q) (i : nat) : M State unit :=
  match fuel with
  | O => out_of_fuel
  | S fuel' =>
      s ← get;
      if (i <? length (particles s))%nat
      then updateParticle gameState inp normalizedDelta i;;
           updateLoop fuel' gameState inp normalizedDelta (S i)
      else mret tt
  end.

(** The interaction-start block at the top of [updateParticles]. *)
Definition noteInteraction (gameState : GameState) (inp : Inputs)
  : M State unit :=
  when (interacting inp)
    (s ← get;
     when (interactionStartTime s =? 0)
       (modify (with_interactionStartTime (now inp)));;
     when (negb (gameStarted gameState))
       (modify (setGameState (fun prev =>
          {| currency := currency prev; score := score prev;
             level := level prev; upgrades := upgrades prev;
             lastUpdate := lastUpdate prev; gameStarted := true;
             highestCurrency := highestCurrency prev |})));;
     s ← get;
     when (1000 <? now inp - interactionStartTime s)
       (modify (with_showScore true);;
        when (2000 <? now inp - interactionStartTime s)
          (modify (with_showHint false)))).

(** "Check if we need to add more targets". *)
Definition replenish (gameState : GameState) : M State unit :=
  s ← get;
  let adjustedSpawnRate :=
    (opt_targetSpawnRate opts
     * (1 + inject_Z (targetSpawnRate (upgrades gameState)) * 0.2))%Q in
  if (targetCount (particles s) <? 3)%nat then
    r ← draw;
    if Js.ltb r adjustedSpawnRate then
      r' ← draw;
      s ← get;
      let randomIndex :=
        Js.floor (r' * inject_Z (Z.of_nat (length (particles s)))) in
      if randomIndex <? 0 then throw else
      p ← particleAt (Z.to_nat randomIndex);
      when (negb (is_target p) && negb (is_collector p))
        (update (Z.to_nat randomIndex) (set_isTarget true))
    else mret tt
  else mret tt.

(** Every target that is collected adds ten particles to visit. *)
Definition frameFuel (ps : list Particle) : nat :=
  S (length ps + 10 * targetCount ps).

(** [updateParticles(ctx, delta)]: there is no clean-up of the array after
    the loop in this variant. *)
Definition updateParticles (gameState : GameState) (inp : Inputs) (delta : Q)
  : M State unit :=
  noteInteraction gameState inp;;
  let normalizedDelta := (Js.min delta 32 / 16)%Q in
  replenish gameState;;
  s ← get;
  updateLoop (frameFuel (particles s)) gameState inp normalizedDelta 0.

End Hook.

(** A computation that, when it returns, leaves at least as many particles
    as it found. *)
Definition Grows {A} (m : M State A) : Prop :=
  forall s a s', m s = Ok a s' ->
    (length (particles s) <= length (particles s'))%nat.

(** A computation that returns, without throwing, from every state whose
    array has an element at index [i]. *)
Definition Total {A} (i : nat) (m : M State A) : Prop :=
  forall s, (i < length (particles s))%nat -> exists a s', m s = Ok a s'.

(** What the fuel of a frame is measured against: ten rounds for every
    target that can still be collected, one for every particle. *)
Definition workLeft (s : State) : nat :=
  (length (particles s) + 10 * targetCount (particles s))%nat.

(** A computation that, when it returns, has turned every target it removed
    into ten new particles. *)
Definition Steady {A} (m : M State A) : Prop :=
  forall s a s', m s = Ok a s' -> workLeft s' = workLeft s.

(** *** [GameState] as JSON

    A parsed value that lacks a field, or holds a value of another type in
    it, is no [GameState]; the model treats it like a text [JSON.parse]
    rejects. *)

Definition upgrades_toJSON (u : GameUpgrades) : Json.json :=
  Json.JObject
    [("maxParticles"%string, Json.JNum (maxParticles u));
     ("particleSize"%string, Json.JNum (particleSize u));
     ("interactionRadius"%string, Json.JNum (interactionRadius u));
     ("targetSpawnRate"%string, Json.JNum (targetSpawnRate u));
     ("autoCollectors"%string, Json.JNum (autoCollectors u));
     ("particleSpeed"%string, Json.JNum (particleSpeed u));
     ("autonomyLevel"%string, Json.JNum (autonomyLevel u))].

Definition toJSON (g : GameState) : Json.json :=
  Json.JObject
    [("currency"%string, Json.JNum (currency g));
     ("score"%string, Json.JNum (score g));
     ("level"%string, Json.JNum (level g));
     ("upgrades"%string, upgrades_toJSON (upgrades g));
     ("lastUpdate"%string, Json.JNum (lastUpdate g));
     ("gameStarted"%string, Json.JBool (gameStarted g));
     ("highestCurrency"%string, Json.JNum (highestCurrency g))].

Definition upgrades_ofJSON (ms : list (string * Json.json))
  : option GameUpgrades :=
  a ← Json.num "maxParticles" ms;
  b ← Json.num "particleSize" ms;
  c ← Json.num "interactionRadius" ms;
  d ← Json.num "targetSpawnRate" ms;
  e ← Json.num "autoCollectors" ms;
  f ← Json.num "particleSpeed" ms;
  g ← Json.num "autonomyLevel" ms;
  Some {| maxParticles := a; particleSize := b; interactionRadius := c;
          targetSpawnRate := d; autoCollectors := e; particleSpeed := f;
          autonomyLevel := g |}.

Definition ofJSON (j : Json.json) : option GameState :=
  match j with
  | Json.JObject ms =>
      c ← Json.num "currency" ms;
      sc ← Json.num "score" ms;
      l ← Json.num "level" ms;
      uo ← Json.object "upgrades" ms;
      u ← upgrades_ofJSON uo;
      t ← Json.num "lastUpdate" ms;
      st ← Json.bool "gameStarted" ms;
      h ← Json.num "highestCurrency" ms;
      Some {| currency := c; score := sc; level := l; upgrades := u;
              lastUpdate := t; gameStarted := st; highestCurrency := h |}
  | _ => None
  end.

Definition stringify (g : GameState) : string := Json.print (toJSON g).

Definition parse (text : string) : option GameState :=
  Json.parse text ≫= ofJSON.

(** The refs and the state cell as the hook creates them. *)
Definition initialState (now : Z) (ls : LocalStorage) : State :=
  {| particles := []; gameStateCell := initialGameState now;
     showScore := false; showHint := true;
     targetCollectedTime := 0; interactionStartTime := 0;
     localStorage := ls; randomCalls := 0 |}.

End Game.

(** The rows of [baseCosts] and [scaleFactor], by key. *)
Definition baseCostOf (k : Game.UpgradeKey) : Q :=
  match k with
  | Game.KmaxParticles => 5 | Game.KparticleSize => 10
  | Game.KinteractionRadius => 8 | Game.KtargetSpawnRate => 15
  | Game.KautoCollectors => 25 | Game.KparticleSpeed => 12
  | Game.KautonomyLevel => 20
  end.

Definition scaleFactorOf (k : Game.UpgradeKey) : Q :=
  match k with
  | Game.KmaxParticles => 1.5 | Game.KparticleSize => 1.8
  | Game.KinteractionRadius => 1.6 | Game.KtargetSpawnRate => 1.7
  | Game.KautoCollectors => 2.5 | Game.KparticleSpeed => 1.9
  | Game.KautonomyLevel => 2.2
  end.

(** ** Concrete inputs to run the model on *)

Definition exampleRandom (n : nat) : Q := Z.of_nat (n mod 10) # 10.

Definition exampleCanvas : Canvas := {| width := 800; height := 600 |}.

Definition exampleStorage : Game.LocalStorage :=
  {| Game.items := ∅; Game.quota := 4096 |}.

(** A frame in which no pointer event has arrived yet. *)
Definition idleInputs (now : Z) : Inputs :=
  {| scaledMousePos := (0%Q, 0%Q);
     mousePositionRef :=
       Some {| mouseX := 0; mouseY := 0; isMoving := false |};
     canvasSize := exampleCanvas;
     now := now |}.

(** Five targets collected, nothing bought yet. *)
Definition exampleGameState : Game.GameState :=
  {| Game.currency := 5; Game.score := 5; Game.level := 1;
     Game.upgrades := Game.upgrades (Game.initialGameState 0);
     Game.lastUpdate := 0; Game.gameStarted := true;
     Game.highestCurrency := 5 |}.

Definition exampleState : Game.State :=
  Game.setGameState (fun _ => exampleGameState)
    (Game.initialState 0 exampleStorage).

(** The state after the first [initParticles] of a fresh game engine. *)
Definition populatedState : Game.State :=
  default (Game.initialState 0 exampleStorage)
    (final (Game.initParticles exampleRandom canvasOptions
              (Game.initialGameState 0) (Some exampleCanvas)
              (Game.initialState 0 exampleStorage))).

(** A particle about to cross the left edge, alone on the canvas, in each
    variant. *)
Definition edgeParticle : Game.Particle :=
  {| Game.x := 1; Game.y := 300; Game.size := 2; Game.vx := -5; Game.vy := 0;
     Game.color := Rgba 0 246 255 1; Game.alpha := 1;
     Game.isTarget := Some false; Game.isCollector := Some false;
     Game.autonomy := 0; Game.behavior := Game.normal;
     Game.lastDirectionChange := 0 |}.

Definition edgeState : Game.State :=
  Game.with_randomCalls 5
    (Game.with_particles (fun _ => [edgeParticle])
       (Game.initialState 0 exampleStorage)).

Definition edgeStateAfter : Game.State :=
  default edgeState
    (final (Game.updateParticle exampleRandom Js.sqrt6 canvasOptions
              (Game.initialGameState 0) (idleInputs 16) 1 0 edgeState)).

Definition simpleEdgeParticle : Simple.Particle :=
  {| Simple.x := 1; Simple.y := 300; Simple.size := 2;
     Simple.vx := -5; Simple.vy := 0;
     Simple.color := Rgba 0 246 255 1; Simple.alpha := 1;
     Simple.isTarget := Some false |}.

Definition simpleEdgeState : Simple.State :=
  {| Simple.particles := [simpleEdgeParticle]; Simple.score := 0;
     Simple.showScore := false; Simple.showHint := true;
     Simple.targetCollectedTime := 0; Simple.interactionStartTime := 0;
     Simple.randomCalls := 5 |}.

(** A collector with autonomy and a target 300 units to its right, and the
    wall-clock time of a first frame. *)
Definition collectorParticle : Game.Particle :=
  {| Game.x := 100; Game.y := 300; Game.size := 2; Game.vx := 0; Game.vy := 0;
     Game.color := Rgba 0 255 150 1; Game.alpha := 1;
     Game.isTarget := Some false; Game.isCollector := Some true;
     Game.autonomy := 0.4; Game.behavior := Game.collector;
     Game.lastDirectionChange := 0 |}.

Definition targetParticle : Game.Particle :=
  {| Game.x := 400; Game.y := 300; Game.size := 2; Game.vx := 0; Game.vy := 0;
     Game.color := Rgba 0 246 255 1; Game.alpha := 1;
     Game.isTarget := Some true; Game.isCollector := Some false;
     Game.autonomy := 0; Game.behavior := Game.normal;
     Game.lastDirectionChange := 0 |}.

Definition collectorState : Game.State :=
  Game.with_randomCalls 5
    (Game.with_particles (fun _ => [collectorParticle; targetParticle])
       (Game.initialState 0 exampleStorage)).

Definition firstFrameTime : Z := 1700000000000.

(** A fresh game engine after four collections: the three initial targets
    and a fourth particle promoted to target since. *)
Definition burstLadenState : Game.State :=
  default populatedState
    (final ((Game.collectTarget exampleRandom 0 0;;
             Game.collectTarget exampleRandom 0 1;;
             Game.collectTarget exampleRandom 0 2;;
             Game.update 3 (Game.set_isTarget true);;
             Game.collectTarget exampleRandom 0 3) populatedState)).
(** ** What a frame of the game variant can do

    The frame, seen from the array and the game state: every round of the
    particle loop is a sequence of steps of three kinds, followed by the
    integration and the containment of its particle. *)

Module GameFrame.
Import Game.

(** A function the frame applies to [particles[i]] before the integration:
    it changes the velocity or [lastDirectionChange] and nothing else. *)
Definition Nudge (f : Particle -> Particle) : Prop :=
  forall p, x (f p) = x p /\ y (f p) = y p
            /\ isTarget (f p) = isTarget p
            /\ isCollector (f p) = isCollector p
            /\ size (f p) = size p /\ color (f p) = color p
            /\ alpha (f p) = alpha p /\ autonomy (f p) = autonomy p
            /\ behavior (f p) = behavior p.

(** The ten particles pushed for a collected particle [p]. *)
Definition BurstsOf (p : Particle) (bs : list Particle) : Prop :=
  length bs = 10%nat
  /\ Forall (fun b => x b = x p /\ y b = y p
                      /\ isTarget b = None /\ isCollector b = None
                      /\ autonomy b = 0%Q) bs.

(** One step of round [i]: nothing that touches the array or the game
    state; a nudge of [particles[i]]; the collection of a target [j]. *)
Inductive Step (i : nat) (s s' : State) : Prop :=
  | step_silent :
      particles s' = particles s ->
      gameStateCell s' = gameStateCell s -> Step i s s'
  | step_nudge (f : Particle -> Particle) :
      Nudge f ->
      particles s' = alter f i (particles s) ->
      gameStateCell s' = gameStateCell s -> Step i s s'
  | step_collect (j : nat) (p : Particle) (bs : list Particle) :
      particles s !! j = Some p -> is_target p = true -> BurstsOf p bs ->
      particles s' = <[j := set_isTarget false p]> (particles s) ++ bs ->
      gameStateCell s' = collected (gameStateCell s) -> Step i s s'.

(** Round [i] of the particle loop. *)
Definition Round (nd : Q) (cs : Canvas) (i : nat) (s s' : State) : Prop :=
  exists s0 q,
    rtc (Step i) s s0
    /\ particles s0 !! i = Some q
    /\ particles s' = <[i := contain cs (integrate nd q)]> (particles s0)
    /\ gameStateCell s' = gameStateCell s0.

(** The rounds from index [i] on, until the index reaches the length the
    array has by then. *)
Inductive Rounds (nd : Q) (cs : Canvas) : nat -> State -> State -> Prop :=
  | rounds_done i s :
      (length (particles s) <= i)%nat -> Rounds nd cs i s s
  | rounds_next i s s1 s' :
      (i < length (particles s))%nat ->
      Round nd cs i s s1 -> Rounds nd cs (S i) s1 s' ->
      Rounds nd cs i s s'.

(** [{ ...prev, gameStarted: true }]. *)
Definition started (prev : GameState) : GameState :=
  {| currency := currency prev; score := score prev;
     level := level prev; upgrades := upgrades prev;
     lastUpdate := lastUpdate prev; gameStarted := true;
     highestCurrency := highestCurrency prev |}.

(** What the replenishment can have done to the array: nothing, or the
    promotion of one particle that was neither a target nor a collector,
    while fewer than three targets existed. *)
Definition Promoted (ps ps' : list Particle) : Prop :=
  ps' = ps
  \/ exists k p,
       (targetCount ps < 3)%nat /\ ps !! k = Some p
       /\ is_target p = false /\ is_collector p = false
       /\ ps' = <[k := set_isTarget true p]> ps.

(** A whole frame. *)
Definition Frame (nd : Q) (cs : Canvas) (s s' : State) : Prop :=
  exists s1,
    (gameStateCell s1 = gameStateCell s
     \/ gameStateCell s1 = started (gameStateCell s))
    /\ Promoted (particles s) (particles s1)
    /\ Rounds nd cs 0 s1 s'.

(** [n] collections, as the array and the game state show them. *)
Definition Account (n : nat) (s s' : State) : Prop :=
  length (particles s') = (length (particles s) + 10 * n)%nat
  /\ (targetCount (particles s') + n)%nat = targetCount (particles s)
  /\ score (gameStateCell s') = score (gameStateCell s) + Z.of_nat n
  /\ currency (gameStateCell s') = currency (gameStateCell s) + Z.of_nat n
  /\ highestCurrency (gameStateCell s')
     = match n with
       | O => highestCurrency (gameStateCell s)
       | S _ => Z.max (highestCurrency (gameStateCell s))
                      (currency (gameStateCell s) + Z.of_nat n)
       end
  /\ upgrades (gameStateCell s') = upgrades (gameStateCell s)
  /\ level (gameStateCell s') = level (gameStateCell s)
  /\ lastUpdate (gameStateCell s') = lastUpdate (gameStateCell s)
  /\ gameStarted (gameStateCell s') = gameStarted (gameStateCell s).

(** A computation all of whose effects are steps of round [i]. *)
Definition Traces {A} (i : nat) (m : M State A) : Prop :=
  forall s a s', m s = Ok a s' -> rtc (Step i) s s'.

(** A particle inside the canvas, edges included. *)
Definition inside (cs : Canvas) (p : Particle) : Prop :=
  (0 <= x p <= width cs)%Q /\ (0 <= y p <= height cs)%Q.

End GameFrame.
(** ** The upgrade panel ([ParticleCanvas.tsx]) *)

Module Shop.
Import Game.

(** The ids of [upgradeTypes], in the order of the panel. *)
Definition upgradeTypes : list UpgradeKey :=
  [KmaxParticles; KparticleSize; KinteractionRadius; KtargetSpawnRate;
   KautoCollectors; KparticleSpeed; KautonomyLevel].

(** What a row of the panel shows ([Lvl currentLevel], [cost ₵]) and
    whether its button is disabled. *)
Record UpgradeOption := {
  id : UpgradeKey;
  currentLevel : Z;
  cost : Z;
  disabled : bool
}.

(** The body of [upgradeTypes.map(upgrade => ...)], for the [currency] and
    the [upgrades] the hook returned to the render. *)
Definition upgradeOption (currency : Z) (upgrades : GameUpgrades)
    (upgrade : UpgradeKey) : UpgradeOption :=
  let currentLevel := get_upgrade upgrades upgrade in
  let cost := getUpgradeCost (key_name upgrade) currentLevel in
  let canAfford := cost <=? currency in
  {| id := upgrade; currentLevel := currentLevel; cost := cost;
     disabled := negb canAfford |}.


Section Click.

Variable random : nat -> Q.
Variable opts : Options.

(** The button of a row rendered from [gameState]: a disabled button
    dispatches no click; otherwise [onClick] calls the [purchaseUpgrade] of
    that render with the row's id and the cost the row shows. *)
Definition click (gameState : GameState) (canvasRef : option Canvas)
    (o : UpgradeOption) : M State unit :=
  if disabled o then mret tt
  else purchaseUpgrade random opts gameState canvasRef (id o) (cost o).

End Click.

End Shop.

(** ** The engine over time

    What reaches the hook after the mount: animation frames, clicks on the
    rows of the panel, resizes of the window and ticks of the save timer.
    Each carries the [gameState] of the render its closure was created in. *)

Module Engine.
Import Game.

Inductive Event :=
  | AnimationFrame (gameState : GameState) (inp : Inputs) (delta : Q)
  | Click (gameState : GameState) (canvasRef : option Canvas)
          (upgrade : UpgradeKey)
  | Resize (gameState : GameState) (canvasRef : option Canvas)
  | SaveTick (gameState : GameState).

Section Run.

Variable random : nat -> Q.
Variable sqrt : Q -> Q.
Variable JSON_stringify : GameState -> string.
Variable opts : Options.

Definition handle (e : Event) : M State unit :=
  match e with
  | AnimationFrame gameState inp delta =>
      updateParticles random sqrt opts gameState inp delta
  | Click gameState canvasRef upgrade =>
      Shop.click random opts gameState canvasRef
        (Shop.upgradeOption (currency gameState) (upgrades gameState) upgrade)
  | Resize gameState canvasRef =>
      initParticles random opts gameState canvasRef
  | SaveTick gameState => saveGameState JSON_stringify gameState
  end.

Fixpoint run (es : list Event) : M State unit :=
  match es with
  | [] => mret tt
  | e :: es' => handle e;; run es'
  end.

End Run.

(** The books of the game: the currency is never negative, never above its
    high-water mark, and the mark never above the score. *)
Definition Balanced (g : GameState) : Prop :=
  0 <= currency g /\ currency g <= highestCurrency g
  /\ highestCurrency g <= score g.

End Engine.
(** ** The effects of the hook

    The two effects with an empty dependency list run once, after the first
    render; every function they call ([initParticles], [saveGameState],
    [updateParticles]) is the one that render created, and reads that
    render's [gameState]: the initial value of [useState]. *)

Module Lifecycle.
Import Game.

(** The [gameState] of the first render of a hook created at time [now]. *)
Definition firstRender (now : Z) : GameState := initialGameState now.

Section Effects.

Variable random : nat -> Q.
Variable sqrt : Q -> Q.
Variable JSON_stringify : GameState -> string.
Variable JSON_parse : string -> option GameState.
Variable opts : Options.

(** The body of the first effect, for a hook created at time [now]:
    [updateCanvasSize(); initParticles(); ...; loadGameState()].
    [canvasRef] is the canvas with the width and height that
    [updateCanvasSize] has given it; without a canvas the effect returns at
    once and registers no clean-up. *)
Definition mount (now : Z) (canvasRef : option Canvas) : M State unit :=
  match canvasRef with
  | None => mret tt
  | Some canvas =>
      initParticles random opts (firstRender now) (Some canvas);;
      loadGameState JSON_parse
  end.

(** The clean-up of that effect, as far as the state goes:
    [saveGameState()].  [canvasAtMount] is what [canvasRef.current] was
    when the effect ran. *)
Definition unmount (now : Z) (canvasAtMount : option Canvas) : M State unit :=
  match canvasAtMount with
  | None => mret tt
  | Some _ => saveGameState JSON_stringify (firstRender now)
  end.

(** [animate(time)], the callback of [requestAnimationFrame].  [lastTime]
    is [lastTimeRef.current] before the call; the result is its value
    after the call and whether the next frame was requested.  [ctx] tells
    whether [getContext('2d')] gave a context. *)
Definition animate (now : Z) (canvasRef : option Canvas) (ctx : bool)
    (inp : Inputs) (lastTime time : Q) : M State (Q * bool) :=
  let delta := (time - (if Qeq_bool lastTime 0 then time else lastTime))%Q in
  match canvasRef with
  | None => mret (time, false)
  | Some _ =>
      if negb ctx then mret (time, false) else
      updateParticles random sqrt opts (firstRender now) inp delta;;
      mret (time, true)
  end.

End Effects.

End Lifecycle.
(** ** What a frame of the plain variant can do *)

Module SimpleFrame.
Import Simple.

(** A particle inside the canvas, edges included. *)
Definition inside (cs : Canvas) (p : Particle) : Prop :=
  (0 <= x p <= width cs)%Q /\ (0 <= y p <= height cs)%Q.

(** Round [i] of the particle loop with [n] collections (none or one):
    [particles[i]] ends integrated and wrapped, ten bursts are pushed for a
    collection, and the score counts it. *)
Definition Round (cs : Canvas) (i n : nat) (s s' : State) : Prop :=
  exists q bs,
    particles s' = <[i := wrap cs (integrate q)]> (particles s) ++ bs
    /\ length bs = (10 * n)%nat
    /\ score s' = score s + Z.of_nat n
    /\ (n <= 1)%nat.

End SimpleFrame.
(** ** What the particle loop leaves alone *)

Module GameUi.
Import Game.

(** A computation that, when it returns, has left the two display flags,
    the time the interaction started and [localStorage] as they were. *)
Definition Quiet {A} (m : M State A) : Prop :=
  forall s a s', m s = Ok a s' ->
    showScore s' = showScore s /\ showHint s' = showHint s
    /\ interactionStartTime s' = interactionStartTime s
    /\ localStorage s' = localStorage s.

End GameUi.
(** ** Following a target through a frame *)

Module GameTarget.
Import Game.

(** The particle at index [k] is where the target [p] was; either it is
    still a target, or score and currency have been raised since the game
    state was [g0]. *)
Definition Pending (k : nat) (p : Particle) (g0 : GameState) (s : State)
  : Prop :=
  exists q,
    particles s !! k = Some q /\ x q = x p /\ y q = y p
    /\ score g0 <= score (gameStateCell s)
    /\ currency g0 <= currency (gameStateCell s)
    /\ (is_target q = false ->
        score g0 + 1 <= score (gameStateCell s)
        /\ currency g0 + 1 <= currency (gameStateCell s)).

(** The particle at index [k] is no target, and score and currency have
    been raised since the game state was [g0]. *)
Definition Collected (k : nat) (g0 : GameState) (s : State) : Prop :=
  exists q,
    particles s !! k = Some q /\ is_target q = false
    /\ score g0 + 1 <= score (gameStateCell s)
    /\ currency g0 + 1 <= currency (gameStateCell s).

End GameTarget.
(** ** More concrete inputs *)

(** Twenty targets collected, nothing bought yet. *)
Definition wealthyGameState : Game.GameState :=
  {| Game.currency := 20; Game.score := 20; Game.level := 1;
     Game.upgrades := Game.upgrades (Game.initialGameState 0);
     Game.lastUpdate := 0; Game.gameStarted := true;
     Game.highestCurrency := 20 |}.

Definition wealthyState : Game.State :=
  Game.setGameState (fun _ => wealthyGameState) populatedState.


(** A frame, a click on the first row, a resize, a save and another frame;
    every closure is that of the first render but the click's. *)
Definition exampleSession : list Engine.Event :=
  [Engine.AnimationFrame (Game.initialGameState 0) (idleInputs 16) 0;
   Engine.Click wealthyGameState (Some exampleCanvas) Game.KmaxParticles;
   Engine.Resize (Game.initialGameState 0) (Some exampleCanvas);
   Engine.SaveTick (Game.initialGameState 0);
   Engine.AnimationFrame (Game.initialGameState 0) (idleInputs 32) 16].

Definition exampleSessionEnd : Game.State :=
  default wealthyState
    (final (Engine.run exampleRandom Js.sqrt6 Game.stringify canvasOptions
              exampleSession wealthyState)).

(** A [localStorage] with room for 240 characters. *)
Definition crampedStorage : Game.LocalStorage :=
  {| Game.items := ∅; Game.quota := 240 |}.

(** A render after one auto-collector was bought. *)
Definition collectorGameState : Game.GameState :=
  {| Game.currency := 0; Game.score := 25; Game.level := 1;
     Game.upgrades :=
       Game.set_upgrade (Game.upgrades (Game.initialGameState 0))
         Game.KautoCollectors 1;
     Game.lastUpdate := 0; Game.gameStarted := true;
     Game.highestCurrency := 25 |}.

(** A frame with the pointer at (405, 300) of the canvas. *)
Definition pointerInputs (now : Z) : Inputs :=
  {| scaledMousePos := (405%Q, 300%Q);
     mousePositionRef := None;
     canvasSize := exampleCanvas;
     now := now |}.

(** A target of the plain variant, five units left of that pointer. *)
Definition simpleTargetParticle : Simple.Particle :=
  {| Simple.x := 400; Simple.y := 300; Simple.size := 2;
     Simple.vx := 0; Simple.vy := 0;
     Simple.color := Rgba 0 246 255 1; Simple.alpha := 1;
     Simple.isTarget := Some true |}.

Definition simpleTargetState : Simple.State :=
  {| Simple.particles := [simpleTargetParticle; simpleEdgeParticle];
     Simple.score := 0;
     Simple.showScore := false; Simple.showHint := true;
     Simple.targetCollectedTime := 0; Simple.interactionStartTime := 0;
     Simple.randomCalls := 5 |}.



(** * Properties *)

(** ** Numbers and the effect monad *)

Lemma ltb_lt (a b : Q) : Js.ltb a b = true <-> (a < b)%Q.
Proof.
  unfold Js.ltb. rewrite negb_true_iff. split.
  - intros H. apply Qnot_le_lt. intros Hle.
    apply Qle_bool_iff in Hle. congruence.
  - intros H. destruct (Qle_bool b a) eqn:E; [|reflexivity].
    apply Qle_bool_iff in E. exfalso. apply (Qlt_not_le _ _ H E).
Qed.

Lemma ltb_ge (a b : Q) : Js.ltb a b = false <-> (b <= a)%Q.
Proof. unfold Js.ltb. rewrite negb_false_iff. apply Qle_bool_iff. Qed.

Lemma floor_step (a b : Q) : (a + 1 <= b)%Q -> Js.floor a < Js.floor b.
Proof.
  intros H. unfold Js.floor.
  assert (Hs : Qfloor a + 1 <= Qfloor (a + 1)).
  { rewrite <- (Qfloor_Z (Qfloor a + 1)). apply Qfloor_resp_le.
    rewrite inject_Z_plus. apply Qplus_le_l. apply Qfloor_le. }
  pose proof (Qfloor_resp_le _ _ H). lia.
Qed.

Lemma pow_step (b f : Q) (L : Z) :
  0 <= L -> (1 <= f)%Q -> (1 <= b * (f - 1))%Q ->
  Js.floor (b * Js.pow f L) < Js.floor (b * Js.pow f (L + 1)).
Proof.
  intros HL Hf Hb. apply floor_step. unfold Js.pow.
  assert (Hp : (1 <= f ^ L)%Q) by (apply Qpower_1_le; assumption).
  assert (Hne : ~ (f == 0)%Q) by (intros E; lra).
  pose proof (Qpower_plus f L 1 Hne) as E1.
  pose proof (Qpower_1_r f) as E2.
  nra.
Qed.

Lemma bind_Ok {S A B} (m : M S A) (f : A -> M S B) s a s1 :
  m s = Ok a s1 -> (m ≫= f) s = f a s1.
Proof. intros H. unfold mbind, M_bind. rewrite H. reflexivity. Qed.

Lemma bind_inv {S A B} (m : M S A) (f : A -> M S B) s b s' :
  (m ≫= f) s = Ok b s' -> exists a s1, m s = Ok a s1 /\ f a s1 = Ok b s'.
Proof.
  unfold mbind, M_bind. destruct (m s) as [a s1| |]; try discriminate.
  intros H. exists a, s1. split; [reflexivity | exact H].
Qed.

(** ** Upgrade costs *)

Lemma getUpgradeCost_key (k : Game.UpgradeKey) (L : Z) :
  getUpgradeCost (Game.key_name k) L
  = Js.floor (baseCostOf k * Js.pow (scaleFactorOf k) L).
Proof.
  unfold getUpgradeCost.
  replace (Js.or_else (baseCosts !! Game.key_name k) 10) with (baseCostOf k)
    by (destruct k; vm_compute; reflexivity).
  replace (Js.or_else (scaleFactor !! Game.key_name k) 1.5)
    with (scaleFactorOf k) by (destruct k; vm_compute; reflexivity).
  reflexivity.
Qed.

(** Over the rationals, a key the tables do not have costs
    [floor(10 * 1.5^level)]. *)
Lemma getUpgradeCost_unknown (name : string) (L : Z) :
  baseCosts !! name = None -> scaleFactor !! name = None ->
  getUpgradeCost name L = Js.floor (10 * Js.pow 1.5 L).
Proof. intros Hb Hf. unfold getUpgradeCost. rewrite Hb, Hf. reflexivity. Qed.

(** Over the rationals the price formula [floor(baseCost *
    scaleFactor^L)] is strictly increasing at every level [L >= 0]. *)
Theorem getUpgradeCost_strictly_increasing (k : Game.UpgradeKey) (L : Z) :
  0 <= L ->
  getUpgradeCost (Game.key_name k) L
    = Qfloor (baseCostOf k * scaleFactorOf k ^ L)
  /\ getUpgradeCost "maxParticles" L = Qfloor (5 * 1.5 ^ L)
  /\ getUpgradeCost "autoCollectors" L = Qfloor (25 * 2.5 ^ L)
  /\ getUpgradeCost (Game.key_name k) L
     < getUpgradeCost (Game.key_name k) (L + 1).
Proof.
  intros HL. split; [|split; [|split]].
  - apply getUpgradeCost_key.
  - apply (getUpgradeCost_key Game.KmaxParticles).
  - apply (getUpgradeCost_key Game.KautoCollectors).
  - rewrite !getUpgradeCost_key.
    apply pow_step; [assumption | destruct k; vm_compute; discriminate
                    | destruct k; vm_compute; discriminate].
Qed.

Lemma getUpgradeCost_strictly_increasing_witness :
  getUpgradeCost "autonomyLevel" 3 = Qfloor (20 * 2.2 ^ 3)
  /\ getUpgradeCost "maxParticles" 3 = Qfloor (5 * 1.5 ^ 3)
  /\ getUpgradeCost "autoCollectors" 3 = Qfloor (25 * 2.5 ^ 3)
  /\ getUpgradeCost "autonomyLevel" 3 < getUpgradeCost "autonomyLevel" (3 + 1).
Proof.
  apply (getUpgradeCost_strictly_increasing Game.KautonomyLevel 3). lia.
Defined.

Example getUpgradeCost_first_levels :
  map (getUpgradeCost "maxParticles") [0; 1; 2; 3] = [5; 7; 11; 16]
  /\ map (getUpgradeCost "autoCollectors") [0; 1; 2] = [25; 62; 156].
Proof. split; vm_compute; reflexivity. Qed.
(** ** Prices in binary64 *)

Local Abbreviation exactCost := getUpgradeCost.

Section Binary64Prices.
Import Binary64.

Lemma nearest_in_roundings (m e : Z) :
  binary_normalize prec emax m e false ∈ roundings m e.
Proof.
  unfold roundings.
  destruct (binary_normalize prec emax m e false) as [s|s| |s mr er] eqn:E;
    try (apply list_elem_of_here).
  - apply list_elem_of_further, list_elem_of_here.
  - destruct (_ ?= _); try apply list_elem_of_here.
    apply list_elem_of_further, list_elem_of_here.
Qed.

Lemma pow_nearest_Accurate : Accurate pow_nearest.
Proof. intros m e n _. apply nearest_in_roundings. Qed.

Lemma pricesAt_elem baseCost e L mL p :
  p ∈ roundings mL (e * L) ->
  In (floor (mul baseCost p)) (pricesAt baseCost e L mL).
Proof.
  intros Hp. apply list_elem_of_In. unfold pricesAt.
  apply (list_elem_of_fmap_2 (fun p => floor (mul baseCost p))). exact Hp.
Qed.

(** What the two checks establish, level by level. *)
Lemma risesFrom_sound baseCost m e n : forall L,
  0 <= L -> risesFrom baseCost m e L (m ^ L) n = true ->
  forall j p p',
    L <= j < L + Z.of_nat n ->
    p ∈ roundings (m ^ j) (e * j) ->
    p' ∈ roundings (m ^ (j + 1)) (e * (j + 1)) ->
    below (floor (mul baseCost p)) (floor (mul baseCost p')) = true.
Proof.
  induction n as [|n IH]; intros L HL H j p p' Hj Hp Hp'; [lia|].
  cbn [risesFrom] in H. apply andb_true_iff in H as [H1 H2].
  assert (Hm : m * m ^ L = m ^ (L + 1))
    by (rewrite Z.pow_add_r, Z.pow_1_r by lia; lia).
  rewrite Hm in H1, H2.
  destruct (decide (j = L)) as [->|Hne].
  - rewrite forallb_forall in H1.
    specialize (H1 _ (pricesAt_elem baseCost e L _ p Hp)).
    rewrite forallb_forall in H1.
    apply (H1 _ (pricesAt_elem baseCost e (L + 1) _ p' Hp')).
  - apply (IH (L + 1) ltac:(lia) H2 j); [lia | exact Hp | exact Hp'].
Qed.


Variable pow : number -> Z -> number.
Hypothesis pow_accurate : Accurate pow.

Lemma price_rises baseCost m e n L :
  risesFrom baseCost (Zpos m) e 0 1 n = true ->
  0 <= L < Z.of_nat n ->
  exists c c',
    toZ (floor (mul baseCost (pow (S754_finite false m e) L))) = Some c
    /\ toZ (floor (mul baseCost (pow (S754_finite false m e) (L + 1)))) = Some c'
    /\ c < c'.
Proof.
  intros H HL.
  pose proof (risesFrom_sound baseCost (Zpos m) e n 0 (Z.le_refl 0) H L
                (pow (S754_finite false m e) L)
                (pow (S754_finite false m e) (L + 1))
                ltac:(lia) (pow_accurate m e L ltac:(lia))
                (pow_accurate m e (L + 1) ltac:(lia))) as Hb.
  unfold below in Hb.
  destruct (toZ (floor (mul baseCost (pow (S754_finite false m e) L))))
    as [c|]; [|discriminate].
  destruct (toZ (floor (mul baseCost (pow (S754_finite false m e) (L + 1)))))
    as [c'|]; [|discriminate].
  exists c, c'. apply Z.ltb_lt in Hb. auto.
Qed.





End Binary64Prices.

Section Binary64Overflow.
Import Binary64.

Variable pow : number -> Z -> number.
Hypothesis pow_accurate : Accurate pow.




(** An id that is no key of the tables. *)
Lemma getUpgradeCost_binary64_unknown (name : string) (L : Z) :
  baseCosts !! name = None -> scaleFactor !! name = None ->
  (name ∈ Js.objectPrototypeKeys -> getUpgradeCost pow name L = NaN)
  /\ (name ∉ Js.objectPrototypeKeys ->
      getUpgradeCost pow name L
      = floor (mul (of_Z 10) (pow (of_Q 1.5) L))).
Proof.
  intros Hb Hf. unfold getUpgradeCost, property_of. rewrite Hb, Hf. split.
  - intros Hin. rewrite bool_decide_eq_true_2 by exact Hin. reflexivity.
  - intros Hout. rewrite bool_decide_eq_false_2 by exact Hout.
    cbn [or_else].
    replace (of_Q 10) with (of_Z 10) by (vm_compute; reflexivity).
    reflexivity.
Qed.

Lemma fallback_price_rises (L : Z) :
  0 <= L <= 100 ->
  exists c c',
    toZ (floor (mul (of_Z 10) (pow (of_Q 1.5) L))) = Some c
    /\ toZ (floor (mul (of_Z 10) (pow (of_Q 1.5) (L + 1)))) = Some c'
    /\ c < c'.
Proof.
  intros HL.
  match goal with
  | |- context [pow (of_Q ?f) _] =>
      let x := eval vm_compute in (of_Q f) in change (of_Q f) with x
  end.
  apply (price_rises pow pow_accurate _ _ _ 101); try lia.
  vm_compute; reflexivity.
Qed.

End Binary64Overflow.




Example getUpgradeCost_binary64_levels :
  Binary64.toZ <$> (Binary64.getUpgradeCost Binary64.pow_nearest "autoCollectors"
                      <$> [0; 1; 2; 37; 38])
  = [Some 25; Some 62; Some 156; Some 13234889800848442;
     Some 33087224502121108]
  /\ getUpgradeCost "autoCollectors" 38 = 33087224502121106
  /\ Binary64.getUpgradeCost Binary64.pow_nearest "toString" 2 = Binary64.NaN.
Proof. vm_compute. repeat split. Qed.

(** ** Building the population *)

Section SimpleInit.
Import Simple.

Variable random : nat -> Q.





Lemma simple_populationFrom_lookup canvas n : forall k i j p,
  populationFrom random canvas k n i !! j = Some p ->
  p = freshParticle random canvas (7 * j + k) (i + Z.of_nat j).
Proof.
  induction n as [|n IH]; intros k i j p H; [discriminate|].
  destruct j as [|j]; cbn in H.
  - injection H as <-. f_equal; lia.
  - apply IH in H. subst p. f_equal; lia.
Qed.

End SimpleInit.

Section GameInit.
Import Game.

Variable random : nat -> Q.

Lemma newParticle_run gameState canvas i s :
  newParticle random gameState canvas i s
  = Ok (freshParticle random gameState canvas (randomCalls s) i)
       (with_randomCalls (8 + randomCalls s) s).
Proof. destruct s. reflexivity. Qed.

Lemma initLoop_run gameState canvas n : forall i s,
  initLoop random gameState canvas n i s
  = Ok tt (with_randomCalls (8 * n + randomCalls s)
             (with_particles
                (fun ps => ps ++ populationFrom random gameState canvas
                                   (randomCalls s) n i) s)).
Proof.
  induction n as [|n IH]; intros i s.
  - destruct s. cbn. unfold with_randomCalls, with_particles; cbn.
    rewrite app_nil_r. reflexivity.
  - cbn [initLoop].
    rewrite (bind_Ok _ _ _ _ _ (newParticle_run gameState canvas i s)).
    unfold push at 1. erewrite bind_Ok by reflexivity.
    rewrite IH. f_equal.
    destruct s; unfold with_randomCalls, with_particles; cbn.
    f_equal; [rewrite <- app_assoc; reflexivity | lia].
Qed.

(** [initParticles] always returns; what it leaves in the array depends on
    the render's [gameState], the canvas and the random draws only. *)
Lemma initParticles_run opts gameState canvasRef s :
  exists s',
    initParticles random opts gameState canvasRef s = Ok tt s'
    /\ particles s' = population random opts gameState canvasRef (randomCalls s)
    /\ gameStateCell s' = gameStateCell s
    /\ localStorage s' = localStorage s.
Proof.
  unfold initParticles, population. destruct canvasRef as [canvas|].
  - erewrite bind_Ok by reflexivity. rewrite initLoop_run.
    eexists; split; [reflexivity|]. destruct s; cbn. auto.
  - erewrite bind_Ok by reflexivity. eexists; split; [reflexivity|].
    destruct s; cbn; auto.
Qed.

Lemma populationFrom_length gameState canvas n : forall k i,
  length (populationFrom random gameState canvas k n i) = n.
Proof. induction n; intros; cbn; [reflexivity | rewrite IHn; reflexivity]. Qed.

Lemma populationFrom_lookup gameState canvas n : forall k i j p,
  populationFrom random gameState canvas k n i !! j = Some p ->
  p = freshParticle random gameState canvas (8 * j + k) (i + Z.of_nat j).
Proof.
  induction n as [|n IH]; intros k i j p H; [discriminate|].
  destruct j as [|j]; cbn in H.
  - injection H as <-. f_equal; lia.
  - apply IH in H. subst p. f_equal; lia.
Qed.

Lemma population_length opts gameState canvas k :
  length (population random opts gameState (Some canvas) k)
  = Z.to_nat (actualMaxParticles opts gameState).
Proof. apply populationFrom_length. Qed.

Lemma population_flags opts gameState canvasRef k i p :
  population random opts gameState canvasRef k !! i = Some p ->
  isTarget p = Some (Z.of_nat i <? 3)
  /\ isCollector p = Some (Z.of_nat i <? autoCollectors (upgrades gameState))
  /\ behavior p = behaviorFor gameState (Z.of_nat i)
  /\ lastDirectionChange p = 0.
Proof.
  destruct canvasRef as [canvas|]; [|discriminate].
  intros H. apply populationFrom_lookup in H. subst p. cbn. auto.
Qed.

End GameInit.






(** ** Purchases *)

Section GamePurchase.
Import Game.

Variable random : nat -> Q.

Lemma get_set_upgrade u k v : get_upgrade (set_upgrade u k v) k = v.
Proof. destruct k; reflexivity. Qed.


Lemma purchaseUpgrade_run opts gameState canvasRef upgradeType cost s :
  exists s',
    purchaseUpgrade random opts gameState canvasRef upgradeType cost s = Ok tt s'
    /\ gameStateCell s' = purchased upgradeType cost (gameStateCell s)
    /\ particles s' = population random opts gameState canvasRef (randomCalls s).
Proof.
  unfold purchaseUpgrade. erewrite bind_Ok by reflexivity.
  destruct (initParticles_run random opts gameState canvasRef
              (setGameState (purchased upgradeType cost) s))
    as (s' & Hrun & Hp & Hg & _).
  exists s'. split; [exact Hrun|]. split; [rewrite Hg | rewrite Hp];
    destruct s; reflexivity.
Qed.

(** A purchase the player can afford ([currency >= cost]) takes [cost] off
    the currency, raises the level of the named upgrade by one, and
    replaces the whole particle array by a newly built population, which
    is built from the [gameState] of the render that created
    [purchaseUpgrade]. *)
Theorem purchaseUpgrade_accepted opts gameState canvasRef upgradeType cost s :
  cost <= currency (gameStateCell s) ->
  exists s',
    purchaseUpgrade random opts gameState canvasRef upgradeType cost s = Ok tt s'
    /\ currency (gameStateCell s') = currency (gameStateCell s) - cost
    /\ get_upgrade (upgrades (gameStateCell s')) upgradeType
       = get_upgrade (upgrades (gameStateCell s)) upgradeType + 1
    /\ particles s' = population random opts gameState canvasRef (randomCalls s).
Proof.
  intros Hc.
  destruct (purchaseUpgrade_run opts gameState canvasRef upgradeType cost s)
    as (s' & Hrun & Hg & Hp).
  exists s'. split; [exact Hrun|]. rewrite Hg. unfold purchased.
  destruct (Z.ltb_spec (currency (gameStateCell s)) cost) as [Hlt|_]; [lia|].
  cbn. rewrite get_set_upgrade. auto.
Qed.

(** C2.  A purchase the player cannot afford ([currency < cost]) leaves the
    [GameState] as it was, every field of it. *)
Theorem purchaseUpgrade_rejected opts gameState canvasRef upgradeType cost s :
  currency (gameStateCell s) < cost ->
  exists s',
    purchaseUpgrade random opts gameState canvasRef upgradeType cost s = Ok tt s'
    /\ gameStateCell s' = gameStateCell s.
Proof.
  intros Hc.
  destruct (purchaseUpgrade_run opts gameState canvasRef upgradeType cost s)
    as (s' & Hrun & Hg & Hp).
  exists s'. split; [exact Hrun|]. rewrite Hg. unfold purchased.
  destruct (Z.ltb_spec (currency (gameStateCell s)) cost) as [_|Hge];
    [reflexivity|lia].
Qed.

(** C10.  [purchaseUpgrade] runs [initParticles] whatever the updater
    decides: after every call the particle array is a newly built
    population, independent of the particles (positions, velocities, target
    flags, bursts) that were there, also when the purchase is rejected and
    the [GameState] stays as it was. *)
Theorem purchaseUpgrade_always_reinitializes
    opts gameState canvasRef upgradeType cost s :
  exists s',
    purchaseUpgrade random opts gameState canvasRef upgradeType cost s = Ok tt s'
    /\ particles s' = population random opts gameState canvasRef (randomCalls s)
    /\ (forall s2, randomCalls s2 = randomCalls s ->
          exists s2',
            purchaseUpgrade random opts gameState canvasRef upgradeType cost s2
            = Ok tt s2'
            /\ particles s2' = particles s')
    /\ (currency (gameStateCell s) < cost -> gameStateCell s' = gameStateCell s).
Proof.
  destruct (purchaseUpgrade_run opts gameState canvasRef upgradeType cost s)
    as (s' & Hrun & Hg & Hp).
  exists s'. split; [exact Hrun|]. split; [exact Hp|]. split.
  - intros s2 Hk.
    destruct (purchaseUpgrade_run opts gameState canvasRef upgradeType cost s2)
      as (s2' & Hrun2 & _ & Hp2).
    exists s2'. split; [exact Hrun2|]. rewrite Hp2, Hp, Hk. reflexivity.
  - intros Hc. rewrite Hg. unfold purchased.
    destruct (Z.ltb_spec (currency (gameStateCell s)) cost) as [_|Hge];
      [reflexivity|lia].
Qed.

End GamePurchase.

Lemma purchaseUpgrade_accepted_witness :
  exists s',
    Game.purchaseUpgrade exampleRandom canvasOptions exampleGameState
      (Some exampleCanvas) Game.KmaxParticles 5 exampleState = Ok tt s'
    /\ Game.currency (Game.gameStateCell s')
       = Game.currency (Game.gameStateCell exampleState) - 5
    /\ Game.get_upgrade (Game.upgrades (Game.gameStateCell s')) Game.KmaxParticles
       = Game.get_upgrade (Game.upgrades (Game.gameStateCell exampleState))
           Game.KmaxParticles + 1
    /\ Game.particles s'
       = Game.population exampleRandom canvasOptions exampleGameState
           (Some exampleCanvas) (Game.randomCalls exampleState).
Proof.
  apply (purchaseUpgrade_accepted exampleRandom canvasOptions exampleGameState
           (Some exampleCanvas) Game.KmaxParticles 5 exampleState).
  vm_compute. discriminate.
Defined.

Lemma purchaseUpgrade_rejected_witness :
  exists s',
    Game.purchaseUpgrade exampleRandom canvasOptions exampleGameState
      (Some exampleCanvas) Game.KmaxParticles 7 exampleState = Ok tt s'
    /\ Game.gameStateCell s' = Game.gameStateCell exampleState.
Proof.
  apply (purchaseUpgrade_rejected exampleRandom canvasOptions exampleGameState
           (Some exampleCanvas) Game.KmaxParticles 7 exampleState).
  vm_compute. reflexivity.
Defined.

(** The scenarios of the purchase contract.  With currency 5 a purchase at
    cost 5 leaves currency 0 and level 2, and the population it builds still
    has the 72 particles of level 1, the level of the render that issued the
    purchase.  With currency 4 (and level 2) a purchase at cost 5 changes
    neither, and rebuilds the population all the same. *)
Example purchase_scenarios :
  let poor := Game.setGameState (Game.purchased Game.KmaxParticles 1)
                exampleState in
  (fun s => (Game.currency (Game.gameStateCell s),
             Game.maxParticles (Game.upgrades (Game.gameStateCell s)),
             length (Game.particles s)))
    <$> final (Game.purchaseUpgrade exampleRandom canvasOptions
                 (Game.gameStateCell exampleState) (Some exampleCanvas)
                 Game.KmaxParticles 5 exampleState)
  = Some (0, 2, 72%nat)
  /\ Game.currency (Game.gameStateCell poor) = 4
  /\ (fun s => (Game.currency (Game.gameStateCell s),
                Game.maxParticles (Game.upgrades (Game.gameStateCell s)),
                length (Game.particles s)))
       <$> final (Game.purchaseUpgrade exampleRandom canvasOptions
                    (Game.gameStateCell poor) (Some exampleCanvas)
                    Game.KmaxParticles 5 poor)
     = Some (4, 2, 84%nat).
Proof. vm_compute. repeat split. Qed.

(** C1 (code bug).  An affordable purchase takes the cost off the currency
    and raises the level, and [initParticles] rebuilds the array, but not
    for the new parameters: [initParticles] reads the [gameState] of the
    render that created [purchaseUpgrade], in which the purchase has not
    happened.  With the options of [ParticleCanvas] and five units of
    currency, buying maxParticles at its price 5 leaves level 2 in the
    game state and a population of 72 particles, the size for level 1;
    the size for the new parameters is 84. *)
Theorem purchaseUpgrade_builds_for_the_levels_before :
  (forall random opts canvasRef upgradeType cost s,
      cost <= Game.currency (Game.gameStateCell s) ->
      exists s',
        Game.purchaseUpgrade random opts (Game.gameStateCell s) canvasRef
          upgradeType cost s = Ok tt s'
        /\ Game.currency (Game.gameStateCell s')
           = Game.currency (Game.gameStateCell s) - cost
        /\ Game.get_upgrade (Game.upgrades (Game.gameStateCell s')) upgradeType
           = Game.get_upgrade (Game.upgrades (Game.gameStateCell s)) upgradeType
             + 1
        /\ Game.particles s'
           = Game.population random opts (Game.gameStateCell s) canvasRef
               (Game.randomCalls s))
  /\ exists s',
      Game.purchaseUpgrade exampleRandom canvasOptions
        (Game.gameStateCell exampleState) (Some exampleCanvas)
        Game.KmaxParticles 5 exampleState = Ok tt s'
      /\ Game.currency (Game.gameStateCell s') = 0
      /\ Game.maxParticles (Game.upgrades (Game.gameStateCell s')) = 2
      /\ length (Game.particles s') = 72%nat
      /\ Game.actualMaxParticles canvasOptions (Game.gameStateCell s') = 84
      /\ length (Game.population exampleRandom canvasOptions
                   (Game.gameStateCell s') (Some exampleCanvas)
                   (Game.randomCalls exampleState)) = 84%nat.
Proof.
  split.
  - intros random opts canvasRef upgradeType cost s Hc.
    destruct (purchaseUpgrade_run random opts (Game.gameStateCell s) canvasRef
                upgradeType cost s) as (s' & Hrun & Hg & Hp).
    exists s'. split; [exact Hrun|]. rewrite Hg. unfold Game.purchased.
    destruct (Z.ltb_spec (Game.currency (Game.gameStateCell s)) cost)
      as [Hlt|_]; [lia|].
    cbn. rewrite get_set_upgrade. auto.
  - destruct (purchaseUpgrade_run exampleRandom canvasOptions
                (Game.gameStateCell exampleState) (Some exampleCanvas)
                Game.KmaxParticles 5 exampleState) as (s' & Hrun & Hg & Hp).
    exists s'. split; [exact Hrun|]. rewrite Hg, Hp.
    rewrite !population_length.
    split; [reflexivity|]. split; [reflexivity|].
    split; [vm_compute; reflexivity|].
    split; vm_compute; reflexivity.
Qed.

(** ** Collection *)

Section GameCollect.
Import Game.

Variable random : nat -> Q.

Lemma burst_run p s :
  burst random p s
  = Ok (burstLiteral p (random (randomCalls s)) (random (1 + randomCalls s))
          (random (2 + randomCalls s)) (random (3 + randomCalls s))
          (random (4 + randomCalls s)))
       (with_randomCalls (5 + randomCalls s) s).
Proof. destruct s. reflexivity. Qed.

Lemma particleAt_run i s p :
  particles s !! i = Some p -> particleAt i s = Ok p s.
Proof. intros H. unfold particleAt. rewrite H. reflexivity. Qed.

Lemma particleAt_inv i s p s' :
  particleAt i s = Ok p s' -> s' = s /\ particles s !! i = Some p.
Proof.
  unfold particleAt. destruct (particles s !! i); [|discriminate].
  intros H; injection H as -> ->. auto.
Qed.

Lemma burstsFrom_length q n : forall k, length (burstsFrom random q k n) = n.
Proof. induction n; intros; cbn; [reflexivity | rewrite IHn; reflexivity]. Qed.

(** Bursts carry no role flag and no autonomy. *)
Lemma burstsFrom_inert q n : forall k b,
  b ∈ burstsFrom random q k n ->
  isTarget b = None /\ isCollector b = None /\ autonomy b = 0%Q
  /\ x b = x q /\ y b = y q.
Proof.
  induction n as [|n IH]; intros k b Hb; cbn in Hb.
  - apply elem_of_nil in Hb. contradiction.
  - apply elem_of_cons in Hb. destruct Hb as [->|Hb]; [cbn; auto|].
    eapply IH; exact Hb.
Qed.

Lemma times_burst index q n : forall s,
  particles s !! index = Some q ->
  times n (p ← particleAt index; b ← burst random p; push b) s
  = Ok tt (with_randomCalls (5 * n + randomCalls s)
             (with_particles
                (fun ps => ps ++ burstsFrom random q (randomCalls s) n) s)).
Proof.
  induction n as [|n IH]; intros s Hq.
  - destruct s; cbn. unfold with_randomCalls, with_particles; cbn.
    rewrite app_nil_r. reflexivity.
  - cbn [times].
    erewrite bind_Ok; cycle 1.
    { erewrite bind_Ok by (apply particleAt_run; exact Hq).
      erewrite bind_Ok by apply burst_run. reflexivity. }
    rewrite IH.
    + f_equal. destruct s; unfold with_randomCalls, with_particles; cbn.
      f_equal; [rewrite <- app_assoc; reflexivity | lia].
    + destruct s; cbn in *. apply lookup_app_l_Some. exact Hq.
Qed.

(** The guard of [collectTarget]: nothing happens for a particle that is
    not a target. *)
Lemma collectTarget_noop now index s p :
  particles s !! index = Some p -> is_target p = false ->
  collectTarget random now index s = Ok tt s.
Proof.
  intros Hp Ht. unfold collectTarget.
  erewrite bind_Ok by (apply particleAt_run; exact Hp).
  rewrite Ht. reflexivity.
Qed.

Lemma collectTarget_run now index s p :
  particles s !! index = Some p -> is_target p = true ->
  exists s',
    collectTarget random now index s = Ok tt s'
    /\ particles s'
       = <[index := set_isTarget false p]> (particles s)
         ++ burstsFrom random (set_isTarget false p) (randomCalls s) 10
    /\ gameStateCell s' = collected (gameStateCell s)
    /\ targetCollectedTime s' = now
    /\ randomCalls s' = (50 + randomCalls s)%nat.
Proof.
  intros Hp Ht. unfold collectTarget.
  erewrite bind_Ok by (apply particleAt_run; exact Hp).
  rewrite Ht. cbn [negb].
  unfold update at 1. erewrite bind_Ok by reflexivity.
  erewrite bind_Ok by reflexivity.
  erewrite bind_Ok; cycle 1.
  { apply times_burst with (q := set_isTarget false p).
    destruct s; cbn in *. rewrite list_lookup_alter_eq, Hp. reflexivity. }
  eexists. split; [reflexivity|].
  destruct s; cbn in *. repeat split.
  f_equal. apply list_eq. intros j.
  destruct (decide (j = index)) as [->|Hne].
  - rewrite list_lookup_alter_eq, Hp. cbn.
    symmetry. apply list_lookup_insert_eq. eapply lookup_lt_Some; eauto.
  - rewrite list_lookup_alter_ne by congruence.
    rewrite list_lookup_insert_ne by congruence. reflexivity.
Qed.

(** C3.  Collecting the particle at an index whose [isTarget] flag is true
    adds exactly 1 to the score and to the currency, sets the flag of that
    particle to false, appends exactly 10 burst particles to the array and
    raises the high-water mark to the new currency if that is larger.
    Calling [collectTarget] again on the same index, the flag now being
    false, changes nothing at all. *)
Theorem collectTarget_collects_once (now now' : Z) (index : nat) s p :
  particles s !! index = Some p -> isTarget p = Some true ->
  exists s' bursts,
    collectTarget random now index s = Ok tt s'
    /\ score (gameStateCell s') = score (gameStateCell s) + 1
    /\ currency (gameStateCell s') = currency (gameStateCell s) + 1
    /\ highestCurrency (gameStateCell s')
       = Z.max (highestCurrency (gameStateCell s))
               (currency (gameStateCell s) + 1)
    /\ length bursts = 10%nat
    /\ particles s' = <[index := set_isTarget false p]> (particles s) ++ bursts
    /\ isTarget <$> particles s' !! index = Some (Some false)
    /\ collectTarget random now' index s' = Ok tt s'.
Proof.
  intros Hp Ht.
  assert (Ht' : is_target p = true) by (unfold is_target; rewrite Ht; reflexivity).
  destruct (collectTarget_run now index s p Hp Ht')
    as (s' & Hrun & Hps & Hg & _ & _).
  assert (Hi : particles s' !! index = Some (set_isTarget false p)).
  { rewrite Hps. apply lookup_app_l_Some. apply list_lookup_insert_eq.
    eapply lookup_lt_Some; eauto. }
  exists s', (burstsFrom random (set_isTarget false p) (randomCalls s) 10).
  split; [exact Hrun|]. rewrite Hg. cbn.
  repeat split; try reflexivity.
  - exact Hps.
  - rewrite Hi. reflexivity.
  - apply (collectTarget_noop now' index s' _ Hi). reflexivity.
Qed.

End GameCollect.

Lemma collectTarget_collects_once_witness :
  let p := Game.freshParticle exampleRandom (Game.initialGameState 0)
             exampleCanvas 8 1 in
  exists s' bursts,
    Game.collectTarget exampleRandom 1000 1 populatedState = Ok tt s'
    /\ Game.score (Game.gameStateCell s')
       = Game.score (Game.gameStateCell populatedState) + 1
    /\ Game.currency (Game.gameStateCell s')
       = Game.currency (Game.gameStateCell populatedState) + 1
    /\ Game.highestCurrency (Game.gameStateCell s')
       = Z.max (Game.highestCurrency (Game.gameStateCell populatedState))
               (Game.currency (Game.gameStateCell populatedState) + 1)
    /\ length bursts = 10%nat
    /\ Game.particles s'
       = <[1%nat := Game.set_isTarget false p]> (Game.particles populatedState)
         ++ bursts
    /\ Game.isTarget <$> Game.particles s' !! 1%nat = Some (Some false)
    /\ Game.collectTarget exampleRandom 1016 1 s' = Ok tt s'.
Proof.
  apply (collectTarget_collects_once exampleRandom 1000 1016 1 populatedState
           (Game.freshParticle exampleRandom (Game.initialGameState 0)
              exampleCanvas 8 1)).
  - vm_compute. reflexivity.
  - vm_compute. reflexivity.
Defined.

(** ** The frame of the game variant *)

Section GameFrame.
Import Game.

Variable random : nat -> Q.
Variable sqrt : Q -> Q.
Variable opts : Options.

(** *** No step of a frame removes a particle *)

Lemma Grows_ret {A} (a : A) : Grows (mret a).
Proof. intros s a' s' H. injection H as _ <-. lia. Qed.

Lemma Grows_bind {A B} (m : M State A) (f : A -> M State B) :
  Grows m -> (forall a, Grows (f a)) -> Grows (m ≫= f).
Proof.
  intros Hm Hf s b s' H. apply bind_inv in H as (a & s1 & H1 & H2).
  apply Hm in H1. apply Hf in H2. lia.
Qed.

Lemma Grows_get : Grows (get (S := State)).
Proof. intros s a s' H. injection H as _ <-. lia. Qed.

Lemma Grows_throw {A} : Grows (throw (A := A)).
Proof. intros s a s' H. discriminate H. Qed.

Lemma Grows_modify (f : State -> State) :
  (forall s, (length (particles s) <= length (particles (f s)))%nat) ->
  Grows (modify f).
Proof. intros Hf s a s' H. injection H as _ <-. apply Hf. Qed.

Lemma Grows_when (b : bool) (m : M State unit) : Grows m -> Grows (when b m).
Proof. intros Hm. destruct b; [exact Hm | apply Grows_ret]. Qed.

Lemma Grows_draw : Grows (draw random).
Proof. intros s a s' H. injection H as _ <-. destruct s; cbn. lia. Qed.

Lemma Grows_particleAt i : Grows (particleAt i).
Proof. intros s a s' H. apply particleAt_inv in H as [-> _]. lia. Qed.

Lemma Grows_update i f : Grows (update i f).
Proof.
  apply Grows_modify. intros s. destruct s; cbn. rewrite length_alter. lia.
Qed.

Lemma Grows_push p : Grows (push p).
Proof.
  apply Grows_modify. intros s. destruct s; cbn. rewrite length_app. lia.
Qed.

Lemma Grows_times n (m : M State unit) : Grows m -> Grows (times n m).
Proof.
  intros Hm. induction n; cbn [times]; [apply Grows_ret|].
  apply Grows_bind; [exact Hm | intros _; exact IHn].
Qed.

Lemma Grows_setGameState f : Grows (modify (setGameState f)).
Proof. apply Grows_modify. intros s; destruct s; cbn; lia. Qed.

Ltac grows :=
  repeat first
    [ match goal with H : context [Grows] |- _ => simple apply H end
    | apply Grows_ret | apply Grows_get | apply Grows_throw
    | apply Grows_draw | apply Grows_particleAt | apply Grows_update
    | apply Grows_push | apply Grows_setGameState
    | apply Grows_when | apply Grows_times
    | apply Grows_bind; [|intros ?]
    | apply Grows_modify; intros []; cbn; lia
    | match goal with
      | |- Grows (if ?b then _ else _) => destruct b
      | |- Grows (match ?o with Some _ => _ | None => _ end) => destruct o
      | |- Grows (match ?p with (_, _) => _ end) => destruct p
      | |- Grows (match ?b with normal => _ | _ => _ end) => destruct b
      end ].

Lemma Grows_burst p : Grows (burst random p).
Proof. unfold burst. grows. Qed.

Lemma Grows_collectTarget now index : Grows (collectTarget random now index).
Proof. unfold collectTarget. grows. Qed.

Lemma Grows_jitter i scale : Grows (jitter random i scale).
Proof. unfold jitter. grows. Qed.

Lemma Grows_changeDirection gameState now i :
  Grows (changeDirection random sqrt gameState now i).
Proof. unfold changeDirection. grows. Qed.

Lemma Grows_steer gameState now i : Grows (steer random sqrt gameState now i).
Proof. unfold steer. grows. Qed.

Lemma Grows_autoCollect now i : Grows (autoCollect random sqrt now i).
Proof. unfold autoCollect. grows. Qed.

Lemma Grows_mouseInteraction gameState inp nd i :
  Grows (mouseInteraction random sqrt opts gameState inp nd i).
Proof. unfold mouseInteraction. grows. Qed.

Lemma Grows_updateParticle gameState inp nd i :
  Grows (updateParticle random sqrt opts gameState inp nd i).
Proof.
  pose proof Grows_steer. pose proof Grows_autoCollect.
  pose proof Grows_mouseInteraction. unfold updateParticle. grows.
Qed.

Lemma Grows_updateLoop gameState inp nd fuel : forall i,
  Grows (updateLoop random sqrt opts fuel gameState inp nd i).
Proof.
  induction fuel as [|fuel IH]; intros i; cbn [updateLoop].
  - intros s a s' H. discriminate H.
  - pose proof Grows_updateParticle. grows.
Qed.

Lemma Grows_noteInteraction gameState inp :
  Grows (noteInteraction gameState inp).
Proof. unfold noteInteraction. grows. Qed.

Lemma Grows_replenish gameState : Grows (replenish random opts gameState).
Proof. unfold replenish. grows. Qed.

(** The game variant's frame has no clean-up: whatever it is started on, the
    array is at least as long afterwards. *)
Lemma updateParticles_never_trims gameState inp delta :
  Grows (updateParticles random sqrt opts gameState inp delta).
Proof.
  pose proof Grows_updateLoop. pose proof Grows_replenish.
  pose proof Grows_noteInteraction. unfold updateParticles. grows.
Qed.

(** *** Every round of the frame loop returns *)

Lemma Total_ret {A} i (a : A) : Total i (mret a).
Proof. intros s _. exists a, s. reflexivity. Qed.

Lemma Total_bind {A B} i (m : M State A) (f : A -> M State B) :
  Total i m -> Grows m -> (forall a, Total i (f a)) -> Total i (m ≫= f).
Proof.
  intros Hm Hg Hf s Hi. destruct (Hm s Hi) as (a & s1 & H1).
  pose proof (Hg _ _ _ H1) as Hlen.
  destruct (Hf a s1) as (b & s' & H2); [lia|].
  exists b, s'. erewrite bind_Ok by exact H1. exact H2.
Qed.

Lemma Total_get i : Total i (get (S := State)).
Proof. intros s _. exists s, s. reflexivity. Qed.

Lemma Total_modify i f : Total i (modify (S := State) f).
Proof. intros s _. exists tt, (f s). reflexivity. Qed.

Lemma Total_draw i : Total i (draw random).
Proof. intros s _. eexists. eexists. reflexivity. Qed.

Lemma Total_particleAt i : Total i (particleAt i).
Proof.
  intros s Hi. destruct (lookup_lt_is_Some_2 _ _ Hi) as [p Hp].
  exists p, s. apply particleAt_run. exact Hp.
Qed.

Lemma Total_update i j f : Total i (update j f).
Proof. apply Total_modify. Qed.

Lemma Total_push i p : Total i (push p).
Proof. apply Total_modify. Qed.

Lemma Total_when i (b : bool) (m : M State unit) :
  Total i m -> Total i (when b m).
Proof. intros Hm. destruct b; [exact Hm | apply Total_ret]. Qed.

Lemma Total_times i n (m : M State unit) :
  Total i m -> Grows m -> Total i (times n m).
Proof.
  intros Hm Hg. induction n; cbn [times]; [apply Total_ret|].
  apply Total_bind; [exact Hm | exact Hg | intros _; exact IHn].
Qed.

Ltac total :=
  repeat first
    [ match goal with H : context [Total] |- Total _ _ => simple apply H end
    | match goal with H : context [Grows] |- Grows _ => simple apply H end
    | apply Total_ret | apply Total_get | apply Total_draw
    | apply Total_particleAt | apply Total_update | apply Total_push
    | apply Total_modify | apply Total_when
    | apply Total_times
    | apply Total_bind; [| |intros ?]
    | apply Grows_ret | apply Grows_get | apply Grows_draw
    | apply Grows_particleAt | apply Grows_update | apply Grows_push
    | apply Grows_setGameState | apply Grows_when | apply Grows_times
    | apply Grows_bind; [|intros ?]
    | apply Grows_modify; intros []; cbn; lia
    | match goal with
      | |- _ (if ?b then _ else _) => destruct b
      | |- _ (match ?o with Some _ => _ | None => _ end) => destruct o
      | |- _ (match ?p with (_, _) => _ end) => destruct p
      | |- _ (match ?b with normal => _ | _ => _ end) => destruct b
      end ].

Lemma Total_collectTarget now index :
  Total index (collectTarget random now index).
Proof. pose proof Grows_burst. unfold collectTarget. total. Qed.

Lemma findIndex_lt {A} (f : A -> bool) (l : list A) j :
  findIndex f l = Some j -> (j < length l)%nat.
Proof.
  revert j. induction l as [|a l IH]; intros j H; cbn in H; [discriminate|].
  destruct (f a); [injection H as <-; cbn; lia|].
  destruct (findIndex f l) as [j'|]; [|discriminate].
  injection H as <-. cbn. specialize (IH j' eq_refl). lia.
Qed.

Lemma Total_steer gameState now i : Total i (steer random sqrt gameState now i).
Proof.
  pose proof Grows_jitter. unfold steer, changeDirection, jitter.
  total.
Qed.

Lemma Total_autoCollect now i : Total i (autoCollect random sqrt now i).
Proof.
  unfold autoCollect. apply Total_bind; [apply Total_particleAt | apply Grows_particleAt | intros p].
  destruct (is_collector p); [|apply Total_ret].
  intros s _. unfold mbind, M_bind, get.
  destruct (findIndex _ (particles s)) as [j|] eqn:E.
  - apply findIndex_lt in E. apply (Total_collectTarget now j s E).
  - exists tt, s. reflexivity.
Qed.

Lemma Total_mouseInteraction gameState inp nd i :
  Total i (mouseInteraction random sqrt opts gameState inp nd i).
Proof.
  pose proof Total_collectTarget. pose proof Grows_collectTarget.
  unfold mouseInteraction. total.
Qed.

(** A round for an index inside the array returns. *)
Lemma Total_updateParticle gameState inp nd i :
  Total i (updateParticle random sqrt opts gameState inp nd i).
Proof.
  pose proof Total_steer. pose proof Total_autoCollect.
  pose proof Total_mouseInteraction. pose proof Grows_steer.
  pose proof Grows_autoCollect. pose proof Grows_mouseInteraction.
  unfold updateParticle. total.
Qed.

(** *** The fuel of a frame is enough *)

Lemma targetCount_app ps qs :
  targetCount (ps ++ qs) = (targetCount ps + targetCount qs)%nat.
Proof. unfold targetCount, targetsOf. rewrite filter_app, length_app. reflexivity. Qed.

Lemma targetCount_cons p ps :
  targetCount (p :: ps)
  = ((if is_target p then 1 else 0) + targetCount ps)%nat.
Proof.
  unfold targetCount, targetsOf. destruct (is_target p) eqn:E.
  - rewrite filter_cons_True by exact E. reflexivity.
  - rewrite filter_cons_False by congruence. reflexivity.
Qed.

Lemma targetCount_alter f i ps :
  (forall p, is_target (f p) = is_target p) ->
  targetCount (alter f i ps) = targetCount ps.
Proof.
  intros Hf. revert i. induction ps as [|p ps IH]; intros [|i];
    try reflexivity.
  - change (alter f 0%nat (p :: ps)) with (f p :: ps).
    rewrite !targetCount_cons, Hf. reflexivity.
  - change (alter f (S i) (p :: ps)) with (p :: alter f i ps).
    rewrite !targetCount_cons, IH. reflexivity.
Qed.

Lemma targetCount_collected i ps p :
  ps !! i = Some p -> is_target p = true ->
  S (targetCount (<[i := set_isTarget false p]> ps)) = targetCount ps.
Proof.
  revert i. induction ps as [|a ps IH]; intros [|i] Hp Ht;
    try discriminate.
  - injection Hp as ->.
    change (<[0%nat := set_isTarget false p]> (p :: ps))
      with (set_isTarget false p :: ps).
    rewrite !targetCount_cons, Ht. reflexivity.
  - change (<[S i := set_isTarget false p]> (a :: ps))
      with (a :: <[i := set_isTarget false p]> ps).
    rewrite !targetCount_cons. rewrite <- (IH i Hp Ht). lia.
Qed.

Lemma targetCount_bursts q n : forall k,
  targetCount (burstsFrom random q k n) = 0%nat.
Proof.
  induction n as [|n IH]; intros k; [reflexivity|].
  cbn [burstsFrom]. rewrite targetCount_cons, IH. reflexivity.
Qed.

Lemma Steady_ret {A} (a : A) : Steady (mret a).
Proof. intros s a' s' H. injection H as _ <-. reflexivity. Qed.

Lemma Steady_bind {A B} (m : M State A) (f : A -> M State B) :
  Steady m -> (forall a, Steady (f a)) -> Steady (m ≫= f).
Proof.
  intros Hm Hf s b s' H. apply bind_inv in H as (a & s1 & H1 & H2).
  apply Hm in H1. apply Hf in H2. congruence.
Qed.

Lemma Steady_get : Steady (get (S := State)).
Proof. intros s a s' H. injection H as _ <-. reflexivity. Qed.

Lemma Steady_draw : Steady (draw random).
Proof. intros s a s' H. injection H as _ <-. destruct s; reflexivity. Qed.

Lemma Steady_particleAt i : Steady (particleAt i).
Proof. intros s a s' H. apply particleAt_inv in H as [-> _]. reflexivity. Qed.

Lemma Steady_when (b : bool) (m : M State unit) : Steady m -> Steady (when b m).
Proof. intros Hm. destruct b; [exact Hm | apply Steady_ret]. Qed.

Lemma Steady_update i f :
  (forall p, is_target (f p) = is_target p) -> Steady (update i f).
Proof.
  intros Hf s a s' H. injection H as _ <-.
  unfold workLeft, with_particles; cbn [particles].
  rewrite length_alter, targetCount_alter by exact Hf. reflexivity.
Qed.

Lemma Steady_collectTarget now index : Steady (collectTarget random now index).
Proof.
  intros s [] s' H. pose proof H as H'. unfold collectTarget in H'.
  apply bind_inv in H' as (p & s1 & Hp & _).
  apply particleAt_inv in Hp as [_ Hp].
  destruct (is_target p) eqn:Ht.
  - destruct (collectTarget_run random now index s p Hp Ht)
      as (s2 & Hrun & Hps & _).
    rewrite Hrun in H. injection H as <-.
    unfold workLeft. rewrite Hps, length_app, length_insert, targetCount_app,
      burstsFrom_length, targetCount_bursts.
    pose proof (targetCount_collected index (particles s) p Hp Ht). lia.
  - rewrite (collectTarget_noop random now index s p Hp Ht) in H.
    injection H as <-. reflexivity.
Qed.

Lemma is_target_add_vel ix iy p : is_target (add_vel ix iy p) = is_target p.
Proof. reflexivity. Qed.

Lemma is_target_moveToward t scale p :
  is_target (moveToward sqrt t scale p) = is_target p.
Proof. unfold moveToward. destruct (Js.ltb _ _); reflexivity. Qed.

Lemma is_target_integrate nd p : is_target (integrate nd p) = is_target p.
Proof. reflexivity. Qed.

Lemma is_target_contain cs p : is_target (contain cs p) = is_target p.
Proof.
  unfold contain.
  repeat match goal with
         | |- context [if ?b then _ else _] => destruct b
         end; reflexivity.
Qed.

Ltac steady :=
  repeat first
    [ match goal with H : context [Steady] |- Steady _ => simple apply H end
    | apply Steady_ret | apply Steady_get | apply Steady_draw
    | apply Steady_particleAt | apply Steady_when
    | apply Steady_collectTarget
    | apply Steady_update; intros ?;
      first [ reflexivity | apply is_target_moveToward
            | apply is_target_contain ]
    | apply Steady_bind; [|intros ?]
    | match goal with
      | |- _ (if ?b then _ else _) => destruct b
      | |- _ (match ?o with Some _ => _ | None => _ end) => destruct o
      | |- _ (match ?p with (_, _) => _ end) => destruct p
      | |- _ (match ?b with normal => _ | _ => _ end) => destruct b
      end ].

Lemma Steady_steer gameState now i : Steady (steer random sqrt gameState now i).
Proof. unfold steer, changeDirection, jitter. steady. Qed.

Lemma Steady_autoCollect now i : Steady (autoCollect random sqrt now i).
Proof. unfold autoCollect. steady. Qed.

Lemma Steady_mouseInteraction gameState inp nd i :
  Steady (mouseInteraction random sqrt opts gameState inp nd i).
Proof. unfold mouseInteraction. steady. Qed.

Lemma Steady_updateParticle gameState inp nd i :
  Steady (updateParticle random sqrt opts gameState inp nd i).
Proof.
  pose proof Steady_steer. pose proof Steady_autoCollect.
  pose proof Steady_mouseInteraction. unfold updateParticle. steady.
Qed.

(** The loop returns when started with more fuel than there is work left
    beyond index [i]. *)
Lemma updateLoop_returns gameState inp nd fuel : forall i s,
  (i <= length (particles s))%nat ->
  (workLeft s - i < fuel)%nat ->
  exists s', updateLoop random sqrt opts fuel gameState inp nd i s = Ok tt s'.
Proof.
  induction fuel as [|fuel IH]; intros i s Hi Hf; [lia|].
  cbn [updateLoop]. erewrite bind_Ok by reflexivity.
  destruct (Nat.ltb_spec i (length (particles s))) as [Hlt|Hge].
  - destruct (Total_updateParticle gameState inp nd i s Hlt) as ([] & s1 & H1).
    erewrite bind_Ok by exact H1.
    pose proof (Grows_updateParticle gameState inp nd i _ _ _ H1) as Hg.
    pose proof (Steady_updateParticle gameState inp nd i _ _ _ H1) as Hs.
    apply IH; [lia|]. rewrite Hs.
    assert (length (particles s) <= workLeft s)%nat by (unfold workLeft; lia).
    lia.
  - exists s. reflexivity.
Qed.

(** A frame returns unless the replenishment throws, and leaves no particle
    out. *)
Lemma updateParticles_returns gameState inp delta s s1 :
  (noteInteraction gameState inp;; replenish random opts gameState) s
  = Ok tt s1 ->
  exists s',
    updateParticles random sqrt opts gameState inp delta s = Ok tt s'
    /\ (length (particles s) <= length (particles s'))%nat.
Proof.
  intros H. apply bind_inv in H as ([] & s0 & H0 & H1).
  destruct (updateLoop_returns gameState inp (Js.min delta 32 / 16)
              (frameFuel (particles s1)) 0 s1) as (s' & Hloop).
  { lia. }
  { unfold frameFuel, workLeft. lia. }
  assert (Hrun : updateParticles random sqrt opts gameState inp delta s
                 = Ok tt s').
  { unfold updateParticles. erewrite bind_Ok by exact H0.
    erewrite bind_Ok by exact H1. erewrite bind_Ok by reflexivity.
    exact Hloop. }
  exists s'. split; [exact Hrun|].
  apply (updateParticles_never_trims gameState inp delta _ _ _ Hrun).
Qed.

Lemma noteInteraction_returns gameState inp s :
  exists s', noteInteraction gameState inp s = Ok tt s'
             /\ particles s' = particles s
             /\ randomCalls s' = randomCalls s.
Proof.
  unfold noteInteraction, when.
  destruct (interacting inp); [|exists s; auto].
  erewrite bind_Ok by reflexivity.
  destruct (interactionStartTime s =? 0);
    (erewrite bind_Ok by reflexivity);
    (destruct (negb (gameStarted gameState));
     (erewrite bind_Ok by reflexivity); (erewrite bind_Ok by reflexivity));
    cbn [interactionStartTime with_interactionStartTime setGameState];
    repeat match goal with
           | |- context [if ?b then _ else _] => destruct b
           end;
    eexists; (split; [reflexivity|]); destruct s; cbn; auto.
Qed.

(** With [Math.random()] in [0, 1) the replenishment picks an index inside
    a non-empty array, so it does not throw. *)
Lemma replenish_returns gameState s :
  (forall n, (0 <= random n)%Q /\ (random n < 1)%Q) ->
  (0 < length (particles s))%nat ->
  exists s', replenish random opts gameState s = Ok tt s'.
Proof.
  intros Hr Hlen. unfold replenish. erewrite bind_Ok by reflexivity.
  destruct (targetCount (particles s) <? 3)%nat; [|exists s; reflexivity].
  erewrite bind_Ok by reflexivity.
  destruct (Js.ltb _ _); [|eexists; reflexivity].
  erewrite bind_Ok by reflexivity. erewrite bind_Ok by reflexivity.
  set (s2 := with_randomCalls _ (with_randomCalls _ s)).
  assert (Hps : particles s2 = particles s) by (destruct s; reflexivity).
  rewrite Hps.
  set (r := random _).
  destruct (Hr (S (randomCalls s))) as [Hr0 Hr1]. fold r in Hr0, Hr1.
  set (len := Z.of_nat (length (particles s))).
  assert (Hl : (0 < inject_Z len)%Q).
  { change 0%Q with (inject_Z 0). rewrite <- Zlt_Qlt. unfold len. lia. }
  assert (H0 : 0 <= Js.floor (r * inject_Z len)).
  { unfold Js.floor. rewrite <- (Qfloor_Z 0). apply Qfloor_resp_le.
    change (inject_Z 0) with 0%Q.
    apply Qmult_le_0_compat; [exact Hr0 | apply Qlt_le_weak; exact Hl]. }
  assert (H1 : Js.floor (r * inject_Z len) < len).
  { unfold Js.floor. rewrite Zlt_Qlt.
    pose proof (Qfloor_le (r * inject_Z len)) as Hfl.
    pose proof (Qmult_lt_compat_r r 1 (inject_Z len) Hl Hr1) as Hm.
    rewrite Qmult_1_l in Hm.
    eapply Qle_lt_trans; [exact Hfl | exact Hm]. }
  destruct (Z.ltb_spec (Js.floor (r * inject_Z len)) 0) as [?|_]; [lia|].
  assert (Hi : (Z.to_nat (Js.floor (r * inject_Z len))
                < length (particles s2))%nat) by (rewrite Hps; unfold len in *; lia).
  destruct (lookup_lt_is_Some_2 _ _ Hi) as [p Hp].
  erewrite bind_Ok by (apply particleAt_run; exact Hp).
  unfold when. destruct (_ && _); eexists; reflexivity.
Qed.

(** A frame over a non-empty array returns. *)
Lemma updateParticles_total gameState inp delta s :
  (forall n, (0 <= random n)%Q /\ (random n < 1)%Q) ->
  (0 < length (particles s))%nat ->
  exists s',
    updateParticles random sqrt opts gameState inp delta s = Ok tt s'
    /\ (length (particles s) <= length (particles s'))%nat.
Proof.
  intros Hr Hlen.
  destruct (noteInteraction_returns gameState inp s) as (s0 & H0 & Hp0 & _).
  destruct (replenish_returns gameState s0 Hr) as (s1 & H1);
    [rewrite Hp0; exact Hlen|].
  apply (updateParticles_returns gameState inp delta s s1).
  erewrite bind_Ok by exact H0. exact H1.
Qed.

End GameFrame.

(** ** Integration and containment *)

Section GameContain.
Import Game.

Variable random : nat -> Q.
Variable sqrt : Q -> Q.
Variable opts : Options.

(** "Contain within canvas", one axis at a time. *)
Lemma contain_x cs p :
  ((x p < 0)%Q ->
     x (contain cs p) = 0%Q /\ vx (contain cs p) = (vx p * -0.7)%Q)
  /\ ((0 <= x p)%Q -> (width cs < x p)%Q ->
     x (contain cs p) = width cs /\ vx (contain cs p) = (vx p * -0.7)%Q)
  /\ ((0 <= x p)%Q -> (x p <= width cs)%Q ->
     x (contain cs p) = x p /\ vx (contain cs p) = vx p).
Proof.
  unfold contain.
  destruct (Js.ltb (x p) 0) eqn:E0;
    [apply ltb_lt in E0 | apply ltb_ge in E0];
  (destruct (Js.ltb (width cs) (x p)) eqn:E1;
    [apply ltb_lt in E1 | apply ltb_ge in E1]);
  repeat split; intros;
  try (exfalso; lra);
  repeat match goal with
         | |- context [if ?b then _ else _] => destruct b
         end; reflexivity.
Qed.

Lemma contain_y cs p :
  ((y p < 0)%Q ->
     y (contain cs p) = 0%Q /\ vy (contain cs p) = (vy p * -0.7)%Q)
  /\ ((0 <= y p)%Q -> (height cs < y p)%Q ->
     y (contain cs p) = height cs /\ vy (contain cs p) = (vy p * -0.7)%Q)
  /\ ((0 <= y p)%Q -> (y p <= height cs)%Q ->
     y (contain cs p) = y p /\ vy (contain cs p) = vy p).
Proof.
  unfold contain.
  set (p1 := if Js.ltb (x p) 0 then _ else _).
  assert (Hy : y p1 = y p /\ vy p1 = vy p).
  { subst p1. destruct (Js.ltb (x p) 0); [split; reflexivity|].
    destruct (Js.ltb (width cs) (x p)); split; reflexivity. }
  destruct Hy as [Hy Hvy]. rewrite <- Hy, <- Hvy. clearbody p1.
  destruct (Js.ltb (y p1) 0) eqn:E0;
    [apply ltb_lt in E0 | apply ltb_ge in E0];
  (destruct (Js.ltb (height cs) (y p1)) eqn:E1;
    [apply ltb_lt in E1 | apply ltb_ge in E1]);
  repeat split; intros; try (exfalso; lra); reflexivity.
Qed.

(** Containment touches nothing but the position and the velocity. *)
Lemma contain_flags cs p :
  isTarget (contain cs p) = isTarget p
  /\ isCollector (contain cs p) = isCollector p
  /\ behavior (contain cs p) = behavior p
  /\ autonomy (contain cs p) = autonomy p.
Proof.
  unfold contain.
  repeat match goal with
         | |- context [if ?b then _ else _] => destruct b
         end; cbn; auto.
Qed.

(** A particle leaves [contain] inside the canvas. *)
Lemma contain_inside cs p :
  (0 <= width cs)%Q -> (0 <= height cs)%Q ->
  (0 <= x (contain cs p) <= width cs)%Q
  /\ (0 <= y (contain cs p) <= height cs)%Q.
Proof.
  intros Hw Hh.
  destruct (contain_x cs p) as (X1 & X2 & X3).
  destruct (contain_y cs p) as (Y1 & Y2 & Y3).
  split.
  - destruct (Qlt_le_dec (x p) 0) as [H0|H0].
    + destruct (X1 H0) as [-> _]. lra.
    + destruct (Qlt_le_dec (width cs) (x p)) as [H1|H1].
      * destruct (X2 H0 H1) as [-> _]. lra.
      * destruct (X3 H0 H1) as [-> _]. lra.
  - destruct (Qlt_le_dec (y p) 0) as [H0|H0].
    + destruct (Y1 H0) as [-> _]. lra.
    + destruct (Qlt_le_dec (height cs) (y p)) as [H1|H1].
      * destruct (Y2 H0 H1) as [-> _]. lra.
      * destruct (Y3 H0 H1) as [-> _]. lra.
Qed.

Lemma updateParticle_split gameState inp nd i s s' :
  updateParticle random sqrt opts gameState inp nd i s = Ok tt s' ->
  exists s0 q,
    beforeIntegration random sqrt opts gameState inp nd i s = Ok tt s0
    /\ particles s0 !! i = Some q
    /\ particles s'
       = <[i := contain (canvasSize inp) (integrate nd q)]> (particles s0).
Proof.
  unfold updateParticle, beforeIntegration. intros H.
  apply bind_inv in H as ([] & s1 & H1 & H).
  apply bind_inv in H as ([] & s2 & H2 & H).
  apply bind_inv in H as ([] & s3 & H3 & H).
  apply bind_inv in H as ([] & s4 & H4 & H5).
  injection H4 as <-. injection H5 as <-.
  assert (Hi : (i < length (particles s3))%nat).
  { pose proof H1 as H1'. unfold steer in H1'.
    apply bind_inv in H1' as (p & s1' & Hp & _).
    apply particleAt_inv in Hp as [_ Hp]. apply lookup_lt_Some in Hp.
    apply (Grows_steer random sqrt) in H1.
    apply (Grows_autoCollect random sqrt) in H2.
    apply (Grows_mouseInteraction random sqrt opts) in H3. lia. }
  destruct (lookup_lt_is_Some_2 _ _ Hi) as [q Hq].
  exists s3, q. split; [|split; [exact Hq|]].
  - erewrite bind_Ok by exact H1. erewrite bind_Ok by exact H2. exact H3.
  - destruct s3; cbn in *. apply list_eq. intros j.
    destruct (decide (j = i)) as [->|Hne].
    + rewrite !list_lookup_alter_eq, Hq. cbn.
      symmetry. apply list_lookup_insert_eq. exact Hi.
    + rewrite !list_lookup_alter_ne by congruence.
      rewrite list_lookup_insert_ne by congruence. reflexivity.
Qed.

(** C8 (amended).  In the game variant, every round of the frame loop (one
    for each index of the array) returns, and ends with the integration and
    the containment of its particle: a particle whose integrated position
    [p] lies beyond a canvas edge is put on that edge, not on the opposite
    one, and the velocity component perpendicular to the edge is multiplied
    by -0.7; inside the canvas neither changes.  (The plain variant wraps
    instead, see [simple_frame_wraps].) *)
Theorem updateParticle_contains gameState inp normalizedDelta i s :
  (i < length (particles s))%nat ->
  exists s' s0 q p',
    updateParticle random sqrt opts gameState inp normalizedDelta i s = Ok tt s'
    /\ beforeIntegration random sqrt opts gameState inp normalizedDelta i s
       = Ok tt s0
    /\ particles s0 !! i = Some q
    /\ particles s' !! i = Some p'
    /\ let p := integrate normalizedDelta q in
       let cs := canvasSize inp in
       ((x p < 0)%Q -> x p' = 0%Q /\ vx p' = (vx p * -0.7)%Q)
       /\ ((0 <= x p)%Q -> (width cs < x p)%Q ->
           x p' = width cs /\ vx p' = (vx p * -0.7)%Q)
       /\ ((0 <= x p)%Q -> (x p <= width cs)%Q -> x p' = x p /\ vx p' = vx p)
       /\ ((y p < 0)%Q -> y p' = 0%Q /\ vy p' = (vy p * -0.7)%Q)
       /\ ((0 <= y p)%Q -> (height cs < y p)%Q ->
           y p' = height cs /\ vy p' = (vy p * -0.7)%Q)
       /\ ((0 <= y p)%Q -> (y p <= height cs)%Q -> y p' = y p /\ vy p' = vy p).
Proof.
  intros Hi.
  destruct (Total_updateParticle random sqrt opts gameState inp normalizedDelta
              i s Hi) as ([] & s' & H).
  pose proof H as Hrun.
  apply updateParticle_split in H as (s0 & q & H0 & Hq & Hp).
  exists s', s0, q, (contain (canvasSize inp) (integrate normalizedDelta q)).
  split; [exact Hrun|]. split; [exact H0|]. split; [exact Hq|]. split.
  - rewrite Hp. apply list_lookup_insert_eq. eapply lookup_lt_Some; eauto.
  - cbn zeta.
    destruct (contain_x (canvasSize inp) (integrate normalizedDelta q))
      as (X1 & X2 & X3).
    destruct (contain_y (canvasSize inp) (integrate normalizedDelta q))
      as (Y1 & Y2 & Y3).
    repeat split; auto; try (apply X1; assumption); try (apply X2; assumption);
      try (apply X3; assumption); try (apply Y1; assumption);
      try (apply Y2; assumption); try (apply Y3; assumption).
Qed.

End GameContain.

Lemma updateParticle_contains_witness :
  exists s' s0 q p',
    Game.updateParticle exampleRandom Js.sqrt6 canvasOptions
      (Game.initialGameState 0) (idleInputs 16) 1 0 edgeState = Ok tt s'
    /\ Game.beforeIntegration exampleRandom Js.sqrt6 canvasOptions
         (Game.initialGameState 0) (idleInputs 16) 1 0 edgeState = Ok tt s0
    /\ Game.particles s0 !! 0%nat = Some q
    /\ Game.particles s' !! 0%nat = Some p'
    /\ let p := Game.integrate 1 q in
       let cs := canvasSize (idleInputs 16) in
       ((Game.x p < 0)%Q ->
          Game.x p' = 0%Q /\ Game.vx p' = (Game.vx p * -0.7)%Q)
       /\ ((0 <= Game.x p)%Q -> (width cs < Game.x p)%Q ->
           Game.x p' = width cs /\ Game.vx p' = (Game.vx p * -0.7)%Q)
       /\ ((0 <= Game.x p)%Q -> (Game.x p <= width cs)%Q ->
           Game.x p' = Game.x p /\ Game.vx p' = Game.vx p)
       /\ ((Game.y p < 0)%Q ->
           Game.y p' = 0%Q /\ Game.vy p' = (Game.vy p * -0.7)%Q)
       /\ ((0 <= Game.y p)%Q -> (height cs < Game.y p)%Q ->
           Game.y p' = height cs /\ Game.vy p' = (Game.vy p * -0.7)%Q)
       /\ ((0 <= Game.y p)%Q -> (Game.y p <= height cs)%Q ->
           Game.y p' = Game.y p /\ Game.vy p' = Game.vy p).
Proof.
  apply (updateParticle_contains exampleRandom Js.sqrt6 canvasOptions
           (Game.initialGameState 0) (idleInputs 16) 1 0 edgeState).
  vm_compute. lia.
Defined.

(** The particle at [x = 1] moving left at 5 per frame ends the round on the
    left edge, moving right at [5 * 0.98 * 0.7]. *)
Example updateParticle_bounces_at_left_edge :
  (fun p => (Qred (Game.x p), Qred (Game.vx p)))
    <$> Game.particles edgeStateAfter !! 0%nat
  = Some (0%Q, 3.43%Q).
Proof. vm_compute. reflexivity. Qed.

(** C8 as stated fails on the plain variant, whose frame wraps: the particle
    at [x = 1] moving left at 5 per frame crosses the left edge and ends the
    frame on the right edge ([x = width]), still moving left. *)
Lemma simple_frame_wraps :
  exists s' p',
    Simple.updateParticles exampleRandom Js.sqrt6 canvasOptions (idleInputs 16)
      simpleEdgeState = Ok tt s'
    /\ Simple.particles s' !! 0%nat = Some p'
    /\ (Simple.x (Simple.integrate simpleEdgeParticle) < 0)%Q
    /\ Simple.x p' = width exampleCanvas
    /\ ~ (Simple.x p' == 0)%Q
    /\ (Simple.vx p' == Simple.vx (Simple.integrate simpleEdgeParticle))%Q
    /\ ~ (Simple.vx p'
          == Simple.vx (Simple.integrate simpleEdgeParticle) * -0.7)%Q.
Proof.
  eexists. eexists. split; [vm_compute; reflexivity|].
  split; [reflexivity|]. repeat split; vm_compute; congruence.
Qed.

(** ** Autonomous steering *)

Section GameSteer.
Import Game.

Variable random : nat -> Q.
Variable sqrt : Q -> Q.

Lemma alter_as_insert {A} (f : A -> A) (l : list A) i a :
  l !! i = Some a -> alter f i l = <[i := f a]> l.
Proof.
  intros H. apply list_eq. intros j. destruct (decide (j = i)) as [->|Hne].
  - rewrite list_lookup_alter_eq, H. cbn. symmetry.
    apply list_lookup_insert_eq. eapply lookup_lt_Some; eauto.
  - rewrite list_lookup_alter_ne by congruence.
    rewrite list_lookup_insert_ne by congruence. reflexivity.
Qed.

Lemma draw_run s :
  draw random s
  = Ok (random (randomCalls s)) (with_randomCalls (S (randomCalls s)) s).
Proof. reflexivity. Qed.

(** A particle without autonomy is not steered, and draws nothing. *)
Lemma steer_without_autonomy gameState now i s p :
  particles s !! i = Some p -> (autonomy p <= 0)%Q ->
  steer random sqrt gameState now i s = Ok tt s.
Proof.
  intros Hp Ha. unfold steer.
  erewrite bind_Ok by (apply particleAt_run; exact Hp).
  apply ltb_ge in Ha. rewrite Ha. reflexivity.
Qed.

(** Before the cadence timer has run out, a frame only draws the random
    part of the timer. *)
Lemma steer_before_timer gameState now i s p :
  particles s !! i = Some p -> (0 < autonomy p)%Q ->
  (inject_Z (now - lastDirectionChange p)
   <= 1000 + random (randomCalls s) * 2000)%Q ->
  steer random sqrt gameState now i s
  = Ok tt (with_randomCalls (S (randomCalls s)) s).
Proof.
  intros Hp Ha Ht. unfold steer.
  erewrite bind_Ok by (apply particleAt_run; exact Hp).
  apply ltb_lt in Ha. rewrite Ha.
  erewrite bind_Ok by apply draw_run.
  apply ltb_ge in Ht. rewrite Ht. reflexivity.
Qed.

Lemma steer_after_timer gameState now i s p :
  particles s !! i = Some p -> (0 < autonomy p)%Q ->
  (1000 + random (randomCalls s) * 2000
   < inject_Z (now - lastDirectionChange p))%Q ->
  steer random sqrt gameState now i s
  = changeDirection random sqrt gameState now i
      (with_randomCalls (S (randomCalls s)) s).
Proof.
  intros Hp Ha Ht. unfold steer.
  erewrite bind_Ok by (apply particleAt_run; exact Hp).
  apply ltb_lt in Ha. rewrite Ha.
  erewrite bind_Ok by apply draw_run.
  apply ltb_lt in Ht. rewrite Ht. reflexivity.
Qed.

Lemma closestTarget_None p targets :
  closestTarget sqrt p targets = None <-> targets = [].
Proof. destruct targets; cbn; split; congruence. Qed.

(** C6 (amended).  A collector is steered under the same two gates as every
    other behaviour: only when its autonomy is positive and only in a frame
    in which more than [1000 + Math.random() * 2000] ms have passed since
    its last decision.  In such a frame it records the time and gets the
    impulse [0.2 * particleSpeed] along the unit vector toward the nearest
    target (nothing if that target is at distance 0), or, when there is no
    target, a random impulse [(Math.random() - 0.5) * 0.05 * particleSpeed]
    on each axis.  In every other frame steering leaves the array as it
    is. *)
Theorem collector_steering_is_gated gameState now i s p :
  particles s !! i = Some p -> behavior p = collector ->
  let k := randomCalls s in
  let speed := inject_Z (particleSpeed (upgrades gameState)) in
  let p1 := set_lastDirectionChange now p in
  let targets := targetsOf (<[i := p1]> (particles s)) in
  ((autonomy p <= 0)%Q -> steer random sqrt gameState now i s = Ok tt s)
  /\ ((0 < autonomy p)%Q ->
      (inject_Z (now - lastDirectionChange p) <= 1000 + random k * 2000)%Q ->
      steer random sqrt gameState now i s = Ok tt (with_randomCalls (S k) s))
  /\ ((0 < autonomy p)%Q ->
      (1000 + random k * 2000 < inject_Z (now - lastDirectionChange p))%Q ->
      exists s' p',
        steer random sqrt gameState now i s = Ok tt s'
        /\ particles s' = <[i := p']> (particles s)
        /\ lastDirectionChange p' = now
        /\ (forall t, closestTarget sqrt p1 targets = Some t ->
              let dx := (x t - x p)%Q in
              let dy := (y t - y p)%Q in
              let dist := sqrt (dx * dx + dy * dy)%Q in
              ((0 < dist)%Q ->
                 vx p' = (vx p + dx / dist * 0.2 * speed)%Q
                 /\ vy p' = (vy p + dy / dist * 0.2 * speed)%Q)
              /\ ((dist <= 0)%Q -> vx p' = vx p /\ vy p' = vy p))
        /\ (targets = [] ->
              vx p' = (vx p + (random (1 + k) - 0.5) * 0.05 * speed)%Q
              /\ vy p' = (vy p + (random (2 + k) - 0.5) * 0.05 * speed)%Q)).
Proof.
  intros Hp Hb k speed p1 targets. split; [|split].
  - apply steer_without_autonomy. exact Hp.
  - apply steer_before_timer. exact Hp.
  - intros Ha Ht. rewrite (steer_after_timer gameState now i s p Hp Ha Ht).
    unfold changeDirection.
    unfold update at 1. erewrite bind_Ok by reflexivity.
    assert (Hps : particles (with_particles (alter (set_lastDirectionChange now) i)
                               (with_randomCalls (S (randomCalls s)) s))
                  = <[i := p1]> (particles s)).
    { destruct s; cbn in *. apply alter_as_insert. exact Hp. }
    assert (Hi : (i < length (particles s))%nat)
      by (eapply lookup_lt_Some; eauto).
    erewrite bind_Ok; cycle 1.
    { apply particleAt_run. rewrite Hps. apply list_lookup_insert_eq. exact Hi. }
    erewrite bind_Ok by reflexivity.
    change (behavior p1) with (behavior p). rewrite Hb. rewrite Hps.
    fold targets.
    destruct (closestTarget sqrt p1 targets) as [t|] eqn:Hc.
    + eexists. exists (moveToward sqrt t (fun d => (d * 0.2 * speed)%Q) p1).
      split; [reflexivity|]. split; [|split; [|split]].
      * destruct s; cbn in *.
        rewrite (alter_as_insert _ _ i p1)
          by (rewrite (alter_as_insert _ _ i p Hp);
              apply list_lookup_insert_eq; exact Hi).
        rewrite (alter_as_insert _ _ i p Hp).
        apply list_insert_insert_eq.
      * unfold moveToward. destruct (Js.ltb _ _); reflexivity.
      * intros t' Ht'. injection Ht' as <-. cbn zeta.
        unfold moveToward, distance. cbn [x y set_lastDirectionChange p1].
        destruct (Js.ltb 0 (sqrt _)) eqn:E;
          [apply ltb_lt in E | apply ltb_ge in E]; split; intros H;
          try (exfalso; lra); split; reflexivity.
      * intros Hnil. rewrite Hnil in Hc. discriminate Hc.
    + eexists.
      exists (add_vel ((random (1 + k) - 0.5) * 0.05 * speed)%Q
                      ((random (2 + k) - 0.5) * 0.05 * speed)%Q p1).
      split; [reflexivity|]. split; [|split; [|split]].
      * destruct s; cbn in *.
        rewrite (alter_as_insert _ _ i p1)
          by (rewrite (alter_as_insert _ _ i p Hp);
              apply list_lookup_insert_eq; exact Hi).
        rewrite (alter_as_insert _ _ i p Hp).
        apply list_insert_insert_eq.
      * reflexivity.
      * intros t' Ht'. discriminate Ht'.
      * intros _. split; reflexivity.
Qed.

End GameSteer.

Lemma collector_steering_is_gated_witness :
  let s := collectorState in
  let p := collectorParticle in
  let i := 0%nat in
  let now := firstFrameTime in
  let gameState := Game.initialGameState 0 in
  let random := exampleRandom in
  let sqrt := Js.sqrt6 in
  let k := Game.randomCalls s in
  let speed := inject_Z (Game.particleSpeed (Game.upgrades gameState)) in
  let p1 := Game.set_lastDirectionChange now p in
  let targets := Game.targetsOf (<[i := p1]> (Game.particles s)) in
  ((Game.autonomy p <= 0)%Q ->
     Game.steer random sqrt gameState now i s = Ok tt s)
  /\ ((0 < Game.autonomy p)%Q ->
      (inject_Z (now - Game.lastDirectionChange p) <= 1000 + random k * 2000)%Q ->
      Game.steer random sqrt gameState now i s
      = Ok tt (Game.with_randomCalls (S k) s))
  /\ ((0 < Game.autonomy p)%Q ->
      (1000 + random k * 2000 < inject_Z (now - Game.lastDirectionChange p))%Q ->
      exists s' p',
        Game.steer random sqrt gameState now i s = Ok tt s'
        /\ Game.particles s' = <[i := p']> (Game.particles s)
        /\ Game.lastDirectionChange p' = now
        /\ (forall t, Game.closestTarget sqrt p1 targets = Some t ->
              let dx := (Game.x t - Game.x p)%Q in
              let dy := (Game.y t - Game.y p)%Q in
              let dist := sqrt (dx * dx + dy * dy)%Q in
              ((0 < dist)%Q ->
                 Game.vx p' = (Game.vx p + dx / dist * 0.2 * speed)%Q
                 /\ Game.vy p' = (Game.vy p + dy / dist * 0.2 * speed)%Q)
              /\ ((dist <= 0)%Q -> Game.vx p' = Game.vx p /\ Game.vy p' = Game.vy p))
        /\ (targets = [] ->
              Game.vx p' = (Game.vx p + (random (1 + k)%nat - 0.5) * 0.05 * speed)%Q
              /\ Game.vy p' = (Game.vy p + (random (2 + k)%nat - 0.5) * 0.05 * speed)%Q)).
Proof.
  apply (collector_steering_is_gated exampleRandom Js.sqrt6
           (Game.initialGameState 0) firstFrameTime 0 collectorState
           collectorParticle).
  - reflexivity.
  - reflexivity.
Defined.

(** The collector of that state, steered in a first frame: the target is
    300 units to its right, so the impulse is 0.2 along [x]. *)
Example collector_first_decision :
  (fun s => (fun p => (Qred (Game.vx p), Qred (Game.vy p),
                       Game.lastDirectionChange p))
            <$> Game.particles s !! 0%nat)
    <$> final (Game.steer exampleRandom Js.sqrt6 (Game.initialGameState 0)
                 firstFrameTime 0 collectorState)
  = Some (Some ((1 # 5)%Q, 0%Q, firstFrameTime)).
Proof. vm_compute. reflexivity. Qed.

(** C6 as stated fails.  A collector with positive autonomy and a target in
    sight is steered in the first frame (the impulse 0.2 shows in its
    velocity after friction, [0.2 * 0.98]); in the frame 16 ms later the
    target is still there, the timer has not run out, and the frame applies
    friction only, where unconditional steering would have added another
    0.2 first. *)
Lemma collector_not_steered_every_frame :
  exists s1 s2 c1 c2 t1,
    Game.updateParticles exampleRandom Js.sqrt6 canvasOptions
      (Game.initialGameState 0) (idleInputs firstFrameTime) 16 collectorState
    = Ok tt s1
    /\ Game.updateParticles exampleRandom Js.sqrt6 canvasOptions
         (Game.initialGameState 0) (idleInputs (firstFrameTime + 16)) 16 s1
       = Ok tt s2
    /\ Game.particles s1 !! 0%nat = Some c1
    /\ Game.particles s2 !! 0%nat = Some c2
    /\ Game.particles s1 !! 1%nat = Some t1
    /\ Game.behavior c1 = Game.collector
    /\ Game.is_target t1 = true
    /\ (Game.vx c1 == 0.2 * 0.98)%Q
    /\ (Game.vx c2 == Game.vx c1 * 0.98)%Q
    /\ ~ (Game.vx c2 == (Game.vx c1 + 0.2) * 0.98)%Q.
Proof.
  do 5 eexists.
  split; [vm_compute; reflexivity|].
  split; [vm_compute; reflexivity|].
  split; [reflexivity|]. split; [reflexivity|]. split; [reflexivity|].
  repeat split; vm_compute; congruence.
Qed.

(** ** The frame of the plain variant *)

Section SimpleFrame.
Import Simple.

Variable random : nat -> Q.
Variable sqrt : Q -> Q.
Variable opts : Options.

Lemma simple_targetCount_cons p ps :
  targetCount (p :: ps)
  = ((if Js.truthy (isTarget p) then 1 else 0) + targetCount ps)%nat.
Proof.
  unfold targetCount. destruct (Js.truthy (isTarget p)) eqn:E.
  - rewrite filter_cons_True by exact E. reflexivity.
  - rewrite filter_cons_False by congruence. reflexivity.
Qed.

Lemma simple_targetCount_app ps qs :
  targetCount (ps ++ qs) = (targetCount ps + targetCount qs)%nat.
Proof. unfold targetCount. rewrite filter_app, length_app. reflexivity. Qed.

Lemma simple_targetCount_alter f i ps :
  (forall p, isTarget (f p) = isTarget p) ->
  targetCount (alter f i ps) = targetCount ps.
Proof.
  intros Hf. revert i. induction ps as [|p ps IH]; intros [|i];
    try reflexivity.
  - change (alter f 0%nat (p :: ps)) with (f p :: ps).
    rewrite !simple_targetCount_cons, Hf. reflexivity.
  - change (alter f (S i) (p :: ps)) with (p :: alter f i ps).
    rewrite !simple_targetCount_cons, IH. reflexivity.
Qed.

Lemma simple_targetCount_collected i ps p :
  ps !! i = Some p -> Js.truthy (isTarget p) = true ->
  S (targetCount (alter (set_isTarget false) i ps)) = targetCount ps.
Proof.
  revert i. induction ps as [|a ps IH]; intros [|i] Hp Ht;
    try discriminate.
  - injection Hp as ->.
    change (alter (set_isTarget false) 0%nat (p :: ps))
      with (set_isTarget false p :: ps).
    rewrite !simple_targetCount_cons, Ht. reflexivity.
  - change (alter (set_isTarget false) (S i) (a :: ps))
      with (a :: alter (set_isTarget false) i ps).
    rewrite !simple_targetCount_cons. rewrite <- (IH i Hp Ht). lia.
Qed.

Lemma Fine_ret {A} i (a : A) : Fine i (mret a).
Proof. intros s _. exists a, s. auto. Qed.

Lemma Fine_bind {A B} i (m : M State A) (f : A -> M State B) :
  Fine i m -> (forall a, Fine i (f a)) -> Fine i (m ≫= f).
Proof.
  intros Hm Hf s Hi. destruct (Hm s Hi) as (a & s1 & H1 & Hl1 & Hw1).
  destruct (Hf a s1) as (b & s' & H2 & Hl2 & Hw2); [lia|].
  exists b, s'. erewrite bind_Ok by exact H1.
  split; [exact H2|]. split; [lia | congruence].
Qed.

Lemma Fine_when i (b : bool) (m : M State unit) : Fine i m -> Fine i (when b m).
Proof. intros Hm. destruct b; [exact Hm | apply Fine_ret]. Qed.

Lemma Fine_particleAt i : Fine i (particleAt i).
Proof.
  intros s Hi. destruct (lookup_lt_is_Some_2 _ _ Hi) as [p Hp].
  exists p, s. unfold particleAt. rewrite Hp. auto.
Qed.

Lemma Fine_update i j f :
  (forall p, isTarget (f p) = isTarget p) -> Fine i (update j f).
Proof.
  intros Hf s _. eexists. eexists. split; [reflexivity|].
  unfold workLeft, with_particles; cbn [particles].
  rewrite length_alter, simple_targetCount_alter by exact Hf. auto.
Qed.

Lemma simple_burst_push i s q :
  particles s !! i = Some q ->
  exists s1 b,
    (q ← particleAt i; b ← burst random q; push b) s = Ok tt s1
    /\ particles s1 = particles s ++ [b]
    /\ isTarget b = None.
Proof.
  intros Hq.
  erewrite bind_Ok by (unfold particleAt; rewrite Hq; reflexivity).
  eexists. eexists. split; [reflexivity|]. destruct s; split; reflexivity.
Qed.

(** The ten pushes of a collection. *)
Lemma simple_times_burst i n : forall s,
  (i < length (particles s))%nat ->
  exists s',
    times n (q ← particleAt i; b ← burst random q; push b) s = Ok tt s'
    /\ length (particles s') = (length (particles s) + n)%nat
    /\ targetCount (particles s') = targetCount (particles s).
Proof.
  induction n as [|n IH]; intros s Hi.
  - exists s. split; [reflexivity|]. split; [lia | reflexivity].
  - destruct (lookup_lt_is_Some_2 _ _ Hi) as [q Hq].
    destruct (simple_burst_push i s q Hq) as (s1 & b & H1 & Hps & Hb).
    cbn [times]. erewrite bind_Ok by exact H1.
    destruct (IH s1) as (s' & Hrun & Hlen & Htc).
    { rewrite Hps, length_app. lia. }
    exists s'. split; [exact Hrun|].
    rewrite Hlen, Htc, Hps.
    rewrite length_app, simple_targetCount_app, simple_targetCount_cons, Hb.
    cbn. split; lia.
Qed.

(** The collection inlined in "Apply mouse interaction". *)
Lemma Fine_collection now i s p :
  particles s !! i = Some p -> Js.truthy (isTarget p) = true ->
  exists s',
    (modify (with_score (fun n => n + 1));;
     update i (set_isTarget false);;
     modify (with_targetCollectedTime now);;
     times 10 (q ← particleAt i; b ← burst random q; push b)) s = Ok tt s'
    /\ (length (particles s) <= length (particles s'))%nat
    /\ workLeft s' = workLeft s.
Proof.
  intros Hp Ht.
  erewrite bind_Ok by reflexivity. erewrite bind_Ok by reflexivity.
  erewrite bind_Ok by reflexivity.
  match goal with |- context [times 10 _ ?s1] =>
    destruct (simple_times_burst i 10 s1) as (s' & Hrun & Hlen & Htc)
  end.
  { destruct s; cbn in *. rewrite length_alter.
    eapply lookup_lt_Some; eauto. }
  exists s'. split; [exact Hrun|]. unfold workLeft. rewrite Hlen, Htc.
  pose proof (simple_targetCount_collected i (particles s) p Hp Ht).
  replace (particles (with_targetCollectedTime now
             (with_particles (alter (set_isTarget false) i)
                (with_score (fun n => n + 1) s))))
    with (alter (set_isTarget false) i (particles s))
    by (destruct s; reflexivity).
  rewrite length_alter. lia.
Qed.

Lemma Fine_mouseInteraction inp i :
  Fine i (mouseInteraction random sqrt opts inp i).
Proof.
  unfold mouseInteraction. destruct (mousePos inp) as [[mx my]|];
    [|apply Fine_ret].
  intros s Hi. destruct (lookup_lt_is_Some_2 _ _ Hi) as [p Hp].
  erewrite bind_Ok by (unfold particleAt; rewrite Hp; reflexivity).
  set (repel := when _ (update i _)).
  assert (Hrepel : Fine i repel)
    by (apply Fine_when, Fine_update; intros; reflexivity).
  destruct (Js.truthy (isTarget p) && Js.ltb _ 30) eqn:Hc; cbn [when].
  - apply andb_true_iff in Hc as [Ht _].
    destruct (Fine_collection (now inp) i s p Hp Ht) as (s1 & H1 & Hl1 & Hw1).
    erewrite bind_Ok by exact H1.
    destruct (Hrepel s1) as (a & s' & H2 & Hl2 & Hw2); [lia|].
    exists a, s'. split; [exact H2|]. split; [lia | congruence].
  - erewrite bind_Ok by reflexivity. apply Hrepel. exact Hi.
Qed.

(** A round for an index inside the array returns. *)
Lemma Fine_updateParticle inp i :
  Fine i (updateParticle random sqrt opts inp i).
Proof.
  unfold updateParticle.
  apply Fine_bind; [apply Fine_mouseInteraction | intros _].
  apply Fine_bind; [apply Fine_update; intros; reflexivity | intros _].
  apply Fine_update. intros p. unfold wrap.
  repeat match goal with
         | |- context [if ?b then _ else _] => destruct b
         end; reflexivity.
Qed.

Lemma simple_updateLoop_returns inp fuel : forall i s,
  (i <= length (particles s))%nat ->
  (workLeft s - i < fuel)%nat ->
  exists s', updateLoop random sqrt opts fuel inp i s = Ok tt s'.
Proof.
  induction fuel as [|fuel IH]; intros i s Hi Hf; [lia|].
  cbn [updateLoop]. erewrite bind_Ok by reflexivity.
  destruct (Nat.ltb_spec i (length (particles s))) as [Hlt|Hge].
  - destruct (Fine_updateParticle inp i s Hlt) as ([] & s1 & H1 & Hl & Hw).
    erewrite bind_Ok by exact H1.
    apply IH; [lia|]. rewrite Hw.
    assert (length (particles s) <= workLeft s)%nat by (unfold workLeft; lia).
    lia.
  - exists s. reflexivity.
Qed.

Lemma simple_noteInteraction_returns inp s :
  exists s', noteInteraction inp s = Ok tt s'
             /\ particles s' = particles s.
Proof.
  unfold noteInteraction, when.
  destruct (interacting inp); [|exists s; auto].
  erewrite bind_Ok by reflexivity.
  destruct (interactionStartTime s =? 0);
    (erewrite bind_Ok by reflexivity); (erewrite bind_Ok by reflexivity);
    cbn [interactionStartTime with_interactionStartTime];
    repeat match goal with
           | |- context [if ?b then _ else _] => destruct b
           end;
    eexists; (split; [reflexivity|]); destruct s; reflexivity.
Qed.

Lemma simple_replenish_returns s :
  (forall n, (0 <= random n)%Q /\ (random n < 1)%Q) ->
  (0 < length (particles s))%nat ->
  exists s', replenish random opts s = Ok tt s'
             /\ length (particles s') = length (particles s).
Proof.
  intros Hr Hlen. unfold replenish. erewrite bind_Ok by reflexivity.
  destruct (targetCount (particles s) <? 3)%nat; [|exists s; auto].
  erewrite bind_Ok by reflexivity.
  destruct (Js.ltb _ _);
    [|eexists; split; [reflexivity | destruct s; reflexivity]].
  erewrite bind_Ok by reflexivity. erewrite bind_Ok by reflexivity.
  set (s2 := with_randomCalls _ (with_randomCalls _ s)).
  assert (Hps : particles s2 = particles s) by (destruct s; reflexivity).
  rewrite Hps.
  set (r := random _).
  destruct (Hr (S (randomCalls s))) as [Hr0 Hr1]. fold r in Hr0, Hr1.
  set (len := Z.of_nat (length (particles s))).
  assert (Hl : (0 < inject_Z len)%Q).
  { change 0%Q with (inject_Z 0). rewrite <- Zlt_Qlt. unfold len. lia. }
  assert (H0 : 0 <= Js.floor (r * inject_Z len)).
  { unfold Js.floor. rewrite <- (Qfloor_Z 0). apply Qfloor_resp_le.
    change (inject_Z 0) with 0%Q.
    apply Qmult_le_0_compat; [exact Hr0 | apply Qlt_le_weak; exact Hl]. }
  assert (H1 : Js.floor (r * inject_Z len) < len).
  { unfold Js.floor. rewrite Zlt_Qlt.
    pose proof (Qfloor_le (r * inject_Z len)) as Hfl.
    pose proof (Qmult_lt_compat_r r 1 (inject_Z len) Hl Hr1) as Hm.
    rewrite Qmult_1_l in Hm.
    eapply Qle_lt_trans; [exact Hfl | exact Hm]. }
  destruct (Z.ltb_spec (Js.floor (r * inject_Z len)) 0) as [?|_]; [lia|].
  assert (Hi : (Z.to_nat (Js.floor (r * inject_Z len))
                < length (particles s2))%nat)
    by (rewrite Hps; unfold len in *; lia).
  destruct (lookup_lt_is_Some_2 _ _ Hi) as [p Hp].
  erewrite bind_Ok by (unfold particleAt; rewrite Hp; reflexivity).
  unfold when. destruct (negb _); eexists; (split; [reflexivity|]);
    destruct s; cbn; rewrite ?length_alter; reflexivity.
Qed.

End SimpleFrame.

(** ** The bound on the number of particles *)

Lemma inject_Z_nonneg (z : Z) : 0 <= z -> (0 <= inject_Z z)%Q.
Proof. intros H. change 0%Q with (inject_Z 0). rewrite <- Zle_Qle. exact H. Qed.

Section SimpleCleanup.
Import Simple.

Variable random : nat -> Q.
Variable sqrt : Q -> Q.
Variable opts : Options.

(** The plain variant's clean-up: an array longer than 1.5 times the cap is
    cut back to the cap. *)
Lemma simple_cleanup_cases (ps : list Particle) :
  0 <= opt_maxParticles opts ->
  ((inject_Z (opt_maxParticles opts) * 1.5 < inject_Z (Z.of_nat (length ps)))%Q ->
     cleanup opts ps = take (Z.to_nat (opt_maxParticles opts)) ps)
  /\ ((inject_Z (Z.of_nat (length ps)) <= inject_Z (opt_maxParticles opts) * 1.5)%Q ->
     cleanup opts ps = ps).
Proof.
  intros Hmax. unfold cleanup. split; intros H.
  - pose proof H as Hb. apply ltb_lt in Hb. rewrite Hb.
    assert (Hlt : opt_maxParticles opts < Z.of_nat (length ps)).
    { rewrite Zlt_Qlt.
      pose proof (inject_Z_nonneg _ Hmax). lra. }
    unfold Js.splice, Js.splice_start.
    destruct (Z.ltb_spec (opt_maxParticles opts) 0) as [?|_]; [lia|].
    rewrite Z.min_l by lia.
    rewrite Z.max_l by lia. rewrite Z.min_id.
    replace (opt_maxParticles opts
             + (Z.of_nat (length ps) - opt_maxParticles opts))
      with (Z.of_nat (length ps)) by lia.
    rewrite Nat2Z.id, drop_all, app_nil_r. reflexivity.
  - apply ltb_ge in H. rewrite H. reflexivity.
Qed.

Lemma simple_cleanup_bound (ps : list Particle) :
  0 <= opt_maxParticles opts ->
  (inject_Z (Z.of_nat (length (cleanup opts ps)))
   <= 1.5 * inject_Z (opt_maxParticles opts))%Q.
Proof.
  intros Hmax. destruct (simple_cleanup_cases ps Hmax) as [Hcut Hkeep].
  pose proof (inject_Z_nonneg _ Hmax) as H0.
  destruct (Qlt_le_dec (inject_Z (opt_maxParticles opts) * 1.5)
              (inject_Z (Z.of_nat (length ps)))) as [H|H].
  - rewrite (Hcut H). rewrite length_take.
    assert (Hle : Z.of_nat (Z.to_nat (opt_maxParticles opts) `min` length ps)
                  <= opt_maxParticles opts) by lia.
    rewrite Zle_Qle in Hle. lra.
  - rewrite (Hkeep H). lra.
Qed.

(** The plain variant's frame over a non-empty array returns, and keeps the
    bound. *)
Lemma simple_updateParticles_bounded inp s :
  (forall n, (0 <= random n)%Q /\ (random n < 1)%Q) ->
  (0 < length (particles s))%nat ->
  0 <= opt_maxParticles opts ->
  exists s',
    updateParticles random sqrt opts inp s = Ok tt s'
    /\ (inject_Z (Z.of_nat (length (particles s')))
        <= 1.5 * inject_Z (opt_maxParticles opts))%Q.
Proof.
  intros Hr Hlen Hmax.
  destruct (simple_noteInteraction_returns inp s) as (s0 & H0 & Hp0).
  destruct (simple_replenish_returns random opts s0 Hr) as (s1 & H1 & _);
    [rewrite Hp0; exact Hlen|].
  destruct (simple_updateLoop_returns random sqrt opts inp
              (frameFuel (particles s1)) 0 s1) as (s2 & H2).
  { lia. }
  { unfold frameFuel, workLeft. lia. }
  exists (with_particles (cleanup opts) s2). split.
  - unfold updateParticles. erewrite bind_Ok by exact H0.
    erewrite bind_Ok by exact H1. erewrite bind_Ok by reflexivity.
    erewrite bind_Ok by exact H2. reflexivity.
  - destruct s2; cbn [particles with_particles].
    apply simple_cleanup_bound. exact Hmax.
Qed.

End SimpleCleanup.

(** C4.  The bound is not kept by the game variant.  At a fresh engine
    ([baseMax = 60], default upgrades, cap 72) after four collections the
    frame returns with all 112 particles, more than [1.5 * 72 = 108]: the
    loop of this variant is not followed by the clean-up that the plain
    variant has ([simple_updateParticles_bounded]), and no frame shortens
    the array ([updateParticles_total]). *)
Theorem game_frame_exceeds_bound :
  exists s',
    Game.updateParticles exampleRandom Js.sqrt6 canvasOptions
      (Game.initialGameState 0) (idleInputs 16) 16 burstLadenState = Ok tt s'
    /\ Game.actualMaxParticles canvasOptions (Game.initialGameState 0) = 72
    /\ length (Game.particles burstLadenState) = 112%nat
    /\ length (Game.particles s') = 112%nat
    /\ (1.5 * 72 < 112)%Q.
Proof.
  eexists. split; [vm_compute; reflexivity|].
  repeat split; vm_compute; reflexivity.
Qed.

(** ** The JSON codec reads back what it prints *)

Section JsonRoundTrip.
Import Json.

Lemma append_assoc (a b c : string) : (a +:+ b) +:+ c = a +:+ (b +:+ c).
Proof.
  induction a as [|x a IH]; [reflexivity|].
  change (String x ((a +:+ b) +:+ c) = String x (a +:+ (b +:+ c))).
  rewrite IH. reflexivity.
Qed.

Lemma length_append (a b : string) :
  String.length (a +:+ b) = (String.length a + String.length b)%nat.
Proof.
  induction a as [|x a IH]; [reflexivity|].
  change (S (String.length (a +:+ b))
          = S (String.length a + String.length b)).
  rewrite IH. reflexivity.
Qed.

Lemma pretty_N_go_append (x : N) : forall s r,
  pretty_N_go x s +:+ r = pretty_N_go x (s +:+ r).
Proof.
  induction (N.lt_wf_0 x) as [x _ IH]. intros s r.
  destruct (N.eq_dec x 0%N) as [->|Hx].
  - rewrite !pretty_N_go_0. reflexivity.
  - rewrite (pretty_N_go_step x s), (pretty_N_go_step x (s +:+ r)) by lia.
    rewrite IH by (apply N.div_lt; lia). reflexivity.
Qed.

Lemma pretty_N_char_digit (d : N) :
  (d < 10)%N ->
  is_digit (pretty_N_char d) = true
  /\ Z.of_nat (Ascii.nat_of_ascii (pretty_N_char d)) - 48 = Z.of_N d.
Proof.
  intros Hd.
  assert (d = 0 \/ d = 1 \/ d = 2 \/ d = 3 \/ d = 4 \/ d = 5 \/ d = 6
          \/ d = 7 \/ d = 8 \/ d = 9)%N as H by lia.
  repeat (destruct H as [->|H]; [split; reflexivity|]). subst d.
  split; reflexivity.
Qed.

(** Reading the digits [pretty_N_go] puts in front of [s]. *)
Lemma digits_pretty_N_go (x : N) :
  exists m : Z, forall s acc,
    digits (pretty_N_go x s) acc = digits s (acc * m + Z.of_N x).
Proof.
  induction (N.lt_wf_0 x) as [x _ IH].
  destruct (N.eq_dec x 0%N) as [->|Hx].
  - exists 1. intros s acc. rewrite pretty_N_go_0. f_equal. lia.
  - destruct (IH (x `div` 10)%N) as [m Hm]; [apply N.div_lt; lia|].
    exists (10 * m). intros s acc.
    rewrite pretty_N_go_step by lia. rewrite Hm.
    destruct (pretty_N_char_digit (x `mod` 10)%N) as [Hd Hv];
      [apply N.mod_lt; lia|].
    cbn [digits]. rewrite Hd, Hv. f_equal.
    pose proof (N.div_mod x 10 ltac:(lia)) as E.
    rewrite N2Z.inj_div, N2Z.inj_mod.
    change (Z.of_N 10) with 10.
    pose proof (Z.div_mod (Z.of_N x) 10 ltac:(lia)). lia.
Qed.

(** A positive number is printed with a digit in front. *)
Lemma pretty_N_go_head (x : N) : forall s,
  (0 < x)%N ->
  exists c r, pretty_N_go x s = String c r /\ is_digit c = true.
Proof.
  induction (N.lt_wf_0 x) as [x _ IH]. intros s Hx.
  rewrite pretty_N_go_step by exact Hx.
  destruct (N.eq_dec (x `div` 10)%N 0%N) as [E|E].
  - rewrite E, pretty_N_go_0.
    destruct (pretty_N_char_digit (x `mod` 10)%N) as [Hd _];
      [apply N.mod_lt; lia|].
    eexists. eexists. split; [reflexivity | exact Hd].
  - apply IH; [apply N.div_lt; lia|].
    destruct (x `div` 10)%N; [congruence | reflexivity].
Qed.

Lemma digit_is_no_mark (c : ascii) :
  is_digit c = true ->
  Ascii.eqb c "{" = false /\ Ascii.eqb c "t" = false
  /\ Ascii.eqb c "f" = false /\ Ascii.eqb c "-" = false.
Proof.
  intros H.
  repeat split; apply Ascii.eqb_neq; intros ->; vm_compute in H; discriminate.
Qed.

Lemma parse_number_positive (p : positive) (rest : string) :
  starts_with_digit rest = false ->
  exists c r,
    pretty (Z.pos p) +:+ rest = String c r /\ is_digit c = true
    /\ digits (String c r) 0 = (Z.pos p, rest).
Proof.
  intros Hrest.
  assert (E : pretty (Z.pos p) +:+ rest = pretty_N_go (N.pos p) rest).
  { unfold pretty, pretty_Z, pretty_positive, pretty, pretty_N.
    rewrite decide_False by discriminate.
    rewrite pretty_N_go_append. reflexivity. }
  destruct (pretty_N_go_head (N.pos p) rest ltac:(lia)) as (c & r & Hc & Hd).
  exists c, r. rewrite E. split; [exact Hc|]. split; [exact Hd|].
  rewrite <- Hc. destruct (digits_pretty_N_go (N.pos p)) as [m Hm].
  rewrite Hm. cbn [Z.mul Z.add Z.of_N].
  destruct rest as [|a rest']; [reflexivity|].
  cbn in Hrest. cbn [digits]. rewrite Hrest. reflexivity.
Qed.

Lemma parse_value_number fuel (z : Z) (rest : string) :
  starts_with_digit rest = false ->
  parse_value (S fuel) (pretty z +:+ rest) = Some (JNum z, rest).
Proof.
  intros Hrest. destruct z as [|p|p].
  - change (pretty 0%Z +:+ rest) with (String "0" rest).
    cbn [parse_value first_is]. cbn.
    unfold parse_number. cbn.
    destruct rest as [|a rest']; [reflexivity|].
    cbn in Hrest. cbn [digits]. rewrite Hrest. reflexivity.
  - destruct (parse_number_positive p rest Hrest) as (c & r & -> & Hd & Hv).
    destruct (digit_is_no_mark c Hd) as (E1 & E2 & E3 & E4).
    cbn [parse_value first_is]. rewrite E1, E2, E3.
    unfold parse_number. cbn [first_is starts_with_digit]. rewrite E4, Hd, Hv.
    reflexivity.
  - destruct (parse_number_positive p rest Hrest) as (c & r & E & Hd & Hv).
    change (pretty (Z.neg p) +:+ rest)
      with (String "-" (pretty (Z.pos p) +:+ rest)).
    rewrite E. cbn [parse_value first_is]. cbn [Ascii.eqb Bool.eqb].
    unfold parse_number. cbn [first_is tail starts_with_digit].
    cbn [Ascii.eqb Bool.eqb]. rewrite Hd, Hv. reflexivity.
Qed.


Lemma app_String (a : ascii) (s t : string) :
  String a s +:+ t = String a (s +:+ t).
Proof. reflexivity. Qed.

Lemma app_empty (t : string) : EmptyString +:+ t = t.
Proof. reflexivity. Qed.

Ltac flatten :=
  repeat first [rewrite append_assoc | rewrite app_String | rewrite app_empty].

Lemma until_quote_plain (k r : string) :
  plain_key k = true ->
  until_quote (k +:+ String dquote r) = Some (k, r).
Proof.
  induction k as [|c k IH]; intros Hk.
  - rewrite app_empty. cbn [until_quote]. rewrite Ascii.eqb_refl. reflexivity.
  - cbn [plain_key] in Hk. apply andb_true_iff in Hk as [Hc Hk].
    apply negb_true_iff in Hc.
    rewrite app_String. cbn [until_quote]. rewrite Hc, (IH Hk). reflexivity.
Qed.

Lemma size_pos (j : json) : (1 <= size j)%nat.
Proof. destruct j; cbn; lia. Qed.

(** The members of an object and its value parser read back what was
    printed, given fuel beyond the size of the value. *)
Lemma parse_print fuel :
  (forall j rest,
      plain j = true -> (size j < fuel)%nat ->
      starts_with_digit rest = false ->
      parse_value fuel (print j +:+ rest) = Some (j, rest))
  /\ (forall m ms rest,
      plain (JObject (m :: ms)) = true ->
      (size (JObject (m :: ms)) <= fuel)%nat ->
      parse_members fuel
        (print_members print (m :: ms) +:+ String "}" rest)
      = Some (m :: ms, rest)).
Proof.
  induction fuel as [|fuel [IHv IHm]];
    [split; intros; [lia | cbn [size] in *; lia]|]. split.
  - intros j rest Hp Hs Hr. destruct j as [z|[|]|[|m ms]].
    + apply parse_value_number. exact Hr.
    + reflexivity.
    + reflexivity.
    + reflexivity.
    + cbn [print]. flatten.
      destruct m as [k v]. cbn [parse_value first_is tail].
      change (Ascii.eqb "{" "{") with true. cbv iota.
      assert (E : first_is "}" (print_members print ((k, v) :: ms)
                                +:+ String "}" rest) = false).
      { cbn [print_members]. unfold quoted. flatten. reflexivity. }
      rewrite E. rewrite (IHm (k, v) ms rest Hp) by (cbn in Hs |- *; lia).
      reflexivity.
  - intros [k v] ms rest Hp Hs.
    cbn [plain] in Hp. apply andb_true_iff in Hp as [Hp Hms].
    apply andb_true_iff in Hp as [Hk Hv].
    cbn [size] in Hs.
    change (print_members print ((k, v) :: ms))
      with (quoted k +:+ ":" +:+ print v +:+
            match ms with
            | [] => EmptyString
            | _ => "," +:+ print_members print ms
            end).
    unfold quoted. flatten.
    cbn [parse_members first_is tail]. rewrite Ascii.eqb_refl.
    rewrite (until_quote_plain k _ Hk). cbn [mbind option_bind].
    cbn [strip_prefix]. change (Ascii.eqb ":" ":") with true. cbv iota.
    cbn [mbind option_bind].
    pose proof (size_pos v) as Hv1.
    destruct ms as [|m' ms'].
    + rewrite app_empty.
      rewrite (IHv v (String "}" rest) Hv) by (cbn in Hs; first [lia | reflexivity]).
      reflexivity.
    + flatten.
      rewrite (IHv v _ Hv) by (cbn in Hs; first [lia | reflexivity]).
      cbn [mbind option_bind first_is tail].
      change (Ascii.eqb "," ",") with true. cbv iota.
      rewrite (IHm m' ms' rest Hms) by (cbn in Hs |- *; lia).
      reflexivity.
Qed.

(** Reading back a printed value. *)
Lemma parse_print_value (j : json) :
  plain j = true -> (size j <= String.length (print j))%nat ->
  parse (print j) = Some j.
Proof.
  intros Hp Hs. unfold parse.
  destruct (parse_print (S (String.length (print j)))) as [Hv _].
  specialize (Hv j EmptyString Hp ltac:(lia) eq_refl).
  assert (E : print j +:+ EmptyString = print j).
  { generalize (print j). intros s. induction s as [|a s IH];
      [reflexivity | rewrite app_String, IH; reflexivity]. }
  rewrite E in Hv. rewrite Hv. reflexivity.
Qed.


(** Every [GameState] comes back from its JSON text. *)
Lemma GameState_json_round_trip (g : Game.GameState) :
  Game.parse (Game.stringify g) = Some g
  /\ (0 < String.length (Game.stringify g))%nat.
Proof.
  unfold Game.parse, Game.stringify. split.
  - rewrite parse_print_value.
    + destruct g as [c sc l [u1 u2 u3 u4 u5 u6 u7] t st h]. reflexivity.
    + reflexivity.
    + cbn [print print_members Game.toJSON Game.upgrades_toJSON size].
      unfold quoted. flatten.
      repeat first [rewrite length_append | progress cbn [String.length]]. lia.
  - cbn [print print_members Game.toJSON]. flatten. cbn [String.length]. lia.
Qed.

End JsonRoundTrip.

(** ** Persistence *)

Section GamePersistence.
Import Game.

Variable JSON_stringify : GameState -> string.
Variable JSON_parse : string -> option GameState.

Lemma saveGameState_run gameState s :
  (String.length (JSON_stringify gameState) <= quota (localStorage s))%nat ->
  exists s1,
    saveGameState JSON_stringify gameState s = Ok tt s1
    /\ getItem storageKey (localStorage s1) = Some (JSON_stringify gameState)
    /\ gameStateCell s1 = gameStateCell s
    /\ particles s1 = particles s.
Proof.
  intros Hq. unfold saveGameState. erewrite bind_Ok by reflexivity.
  unfold setItem. apply Nat.leb_le in Hq. rewrite Hq.
  eexists. split; [reflexivity|]. destruct s; cbn. split; [|auto].
  unfold getItem; cbn. apply lookup_insert_eq.
Qed.

(** A write that [localStorage] refuses is swallowed: nothing changes. *)
Lemma saveGameState_over_quota gameState s :
  (quota (localStorage s) < String.length (JSON_stringify gameState))%nat ->
  saveGameState JSON_stringify gameState s = Ok tt s.
Proof.
  intros Hq. unfold saveGameState. erewrite bind_Ok by reflexivity.
  unfold setItem. apply Nat.leb_gt in Hq. rewrite Hq. reflexivity.
Qed.

(** With nothing stored, or with a text [JSON.parse] rejects, loading
    leaves the state as it is. *)
Lemma loadGameState_nothing_usable s :
  (getItem storageKey (localStorage s) = None
   \/ exists text, getItem storageKey (localStorage s) = Some text
                   /\ JSON_parse text = None) ->
  loadGameState JSON_parse s = Ok tt s.
Proof.
  intros H. unfold loadGameState. erewrite bind_Ok by reflexivity.
  destruct H as [-> | (text & -> & Hp)]; [reflexivity|].
  rewrite Hp. destruct (String.length text =? 0)%nat; reflexivity.
Qed.

Lemma save_then_load_run gameState s :
  JSON_parse (JSON_stringify gameState) = Some gameState ->
  (0 < String.length (JSON_stringify gameState) <= quota (localStorage s))%nat ->
  exists s1 s2,
    saveGameState JSON_stringify gameState s = Ok tt s1
    /\ loadGameState JSON_parse s1 = Ok tt s2
    /\ gameStateCell s2 = gameState.
Proof.
  intros Hcodec [Hlen Hq].
  destruct (saveGameState_run gameState s Hq) as (s1 & Hsave & Hitem & _).
  exists s1. unfold loadGameState. erewrite bind_Ok by reflexivity.
  rewrite Hitem, Hcodec.
  destruct (Nat.eqb_spec (String.length (JSON_stringify gameState)) 0) as [E|_];
    [lia|].
  eexists. split; [exact Hsave|]. split; [reflexivity|].
  destruct s1; reflexivity.
Qed.

(** C9.  Saving a [GameState] and loading it back puts that very state in
    the state cell, so currency, score and upgrades (and [lastUpdate] too)
    are the saved ones.  The platform's part is assumed: [JSON.parse] reads
    back what [JSON.stringify] wrote for this state, the text is not empty,
    and [localStorage] has room for it. *)
Theorem save_then_load_restores gameState s :
  JSON_parse (JSON_stringify gameState) = Some gameState ->
  (0 < String.length (JSON_stringify gameState) <= quota (localStorage s))%nat ->
  exists s1 s2,
    saveGameState JSON_stringify gameState s = Ok tt s1
    /\ loadGameState JSON_parse s1 = Ok tt s2
    /\ gameStateCell s2 = gameState
    /\ currency (gameStateCell s2) = currency gameState
    /\ score (gameStateCell s2) = score gameState
    /\ upgrades (gameStateCell s2) = upgrades gameState.
Proof.
  intros Hcodec Hroom.
  destruct (save_then_load_run gameState s Hcodec Hroom)
    as (s1 & s2 & H1 & H2 & H3).
  exists s1, s2. rewrite H3. repeat split; assumption.
Qed.

End GamePersistence.

Lemma save_then_load_restores_witness :
  exists s1 s2,
    Game.saveGameState Game.stringify exampleGameState populatedState = Ok tt s1
    /\ Game.loadGameState Game.parse s1 = Ok tt s2
    /\ Game.gameStateCell s2 = exampleGameState
    /\ Game.currency (Game.gameStateCell s2) = Game.currency exampleGameState
    /\ Game.score (Game.gameStateCell s2) = Game.score exampleGameState
    /\ Game.upgrades (Game.gameStateCell s2) = Game.upgrades exampleGameState.
Proof.
  apply (save_then_load_restores Game.stringify Game.parse exampleGameState
           populatedState).
  - vm_compute. reflexivity.
  - vm_compute. split; lia.
Defined.

(** With the executable codec the platform assumptions hold for every
    [GameState]: the round trip needs room in [localStorage] and nothing
    else. *)
Corollary save_then_load_json (g : Game.GameState) (s : Game.State) :
  (String.length (Game.stringify g) <= Game.quota (Game.localStorage s))%nat ->
  exists s1 s2,
    Game.saveGameState Game.stringify g s = Ok tt s1
    /\ Game.loadGameState Game.parse s1 = Ok tt s2
    /\ Game.gameStateCell s2 = g.
Proof.
  intros Hq. destruct (GameState_json_round_trip g) as [Hcodec Hlen].
  apply (save_then_load_run Game.stringify Game.parse g s Hcodec). lia.
Qed.
(** ** The frame of the game variant as a sequence of steps *)

Section GameFrameSteps.
Import Game GameFrame.

Variable random : nat -> Q.
Variable sqrt : Q -> Q.
Variable opts : Options.

Lemma Traces_ret {A} i (a : A) : Traces i (mret a).
Proof. intros s a' s' H. injection H as _ <-. apply rtc_refl. Qed.

Lemma Traces_bind {A B} i (m : M State A) (f : A -> M State B) :
  Traces i m -> (forall a, Traces i (f a)) -> Traces i (m ≫= f).
Proof.
  intros Hm Hf s b s' H. apply bind_inv in H as (a & s1 & H1 & H2).
  eapply rtc_trans; [eapply Hm | eapply Hf]; eassumption.
Qed.

Lemma Traces_get i : Traces i (get (S := State)).
Proof. intros s a s' H. injection H as _ <-. apply rtc_refl. Qed.

Lemma Traces_when i (b : bool) (m : M State unit) :
  Traces i m -> Traces i (when b m).
Proof. intros Hm. destruct b; [exact Hm | apply Traces_ret]. Qed.

Lemma Traces_draw i : Traces i (draw random).
Proof.
  intros s a s' H. injection H as _ <-. apply rtc_once.
  apply step_silent; destruct s; reflexivity.
Qed.

Lemma Traces_particleAt i j : Traces i (particleAt j).
Proof. intros s a s' H. apply particleAt_inv in H as [-> _]. apply rtc_refl. Qed.

Lemma Traces_update i f : Nudge f -> Traces i (update i f).
Proof.
  intros Hf s a s' H. injection H as _ <-. apply rtc_once.
  apply (step_nudge _ _ _ f); [exact Hf | |]; destruct s; reflexivity.
Qed.

Lemma Nudge_set_lastDirectionChange t : Nudge (set_lastDirectionChange t).
Proof. intros p. repeat split. Qed.

Lemma Nudge_add_vel ix iy : Nudge (add_vel ix iy).
Proof. intros p. repeat split. Qed.

Lemma Nudge_moveToward t scale : Nudge (moveToward sqrt t scale).
Proof. intros p. unfold moveToward. destruct (Js.ltb _ _); repeat split. Qed.

Lemma BurstsOf_burstsFrom p k :
  BurstsOf p (burstsFrom random (set_isTarget false p) k 10).
Proof.
  split; [apply burstsFrom_length|].
  apply Forall_forall. intros b Hb.
  apply burstsFrom_inert in Hb as (H1 & H2 & H3 & H4 & H5). auto.
Qed.

Lemma Traces_collectTarget i now j : Traces i (collectTarget random now j).
Proof.
  intros s a s' H.
  assert (Hp : exists p, particles s !! j = Some p).
  { unfold collectTarget in H. apply bind_inv in H as (p & s1 & H1 & _).
    apply particleAt_inv in H1 as [_ H1]. eauto. }
  destruct Hp as [p Hp]. destruct (is_target p) eqn:Ht.
  - destruct (collectTarget_run random now j s p Hp Ht)
      as (s2 & Hrun & Hps & Hg & _).
    rewrite Hrun in H. injection H as _ <-. apply rtc_once.
    eapply step_collect; [exact Hp | exact Ht | | exact Hps | exact Hg].
    apply BurstsOf_burstsFrom.
  - rewrite (collectTarget_noop random now j s p Hp Ht) in H.
    injection H as _ <-. apply rtc_refl.
Qed.

Ltac traces :=
  repeat first
    [ match goal with H : context [Traces] |- Traces _ _ => simple apply H end
    | apply Traces_ret | apply Traces_get | apply Traces_draw
    | apply Traces_particleAt | apply Traces_collectTarget
    | apply Traces_update;
      first [ apply Nudge_set_lastDirectionChange | apply Nudge_add_vel
            | apply Nudge_moveToward ]
    | apply Traces_when
    | apply Traces_bind; [|intros ?]
    | match goal with
      | |- Traces _ (if ?b then _ else _) => destruct b
      | |- Traces _ (match ?o with Some _ => _ | None => _ end) => destruct o
      | |- Traces _ (match ?p with (_, _) => _ end) => destruct p
      | |- Traces _ (match ?b with normal => _ | _ => _ end) => destruct b
      end ].

Lemma Traces_jitter i scale : Traces i (jitter random i scale).
Proof. unfold jitter. traces. Qed.

Lemma Traces_changeDirection gameState now i :
  Traces i (changeDirection random sqrt gameState now i).
Proof. pose proof Traces_jitter. unfold changeDirection. traces. Qed.

Lemma Traces_steer gameState now i : Traces i (steer random sqrt gameState now i).
Proof. pose proof Traces_changeDirection. unfold steer. traces. Qed.

Lemma Traces_autoCollect now i : Traces i (autoCollect random sqrt now i).
Proof. unfold autoCollect. traces. Qed.

Lemma Traces_mouseInteraction gameState inp nd i :
  Traces i (mouseInteraction random sqrt opts gameState inp nd i).
Proof. unfold mouseInteraction. traces. Qed.

Lemma Traces_beforeIntegration gameState inp nd i :
  Traces i (beforeIntegration random sqrt opts gameState inp nd i).
Proof.
  pose proof Traces_steer. pose proof Traces_autoCollect.
  pose proof Traces_mouseInteraction. unfold beforeIntegration. traces.
Qed.

Lemma updateParticle_after gameState inp nd i s s0 :
  beforeIntegration random sqrt opts gameState inp nd i s = Ok tt s0 ->
  updateParticle random sqrt opts gameState inp nd i s
  = Ok tt (with_particles (alter (contain (canvasSize inp)) i)
             (with_particles (alter (integrate nd) i) s0)).
Proof.
  unfold updateParticle, beforeIntegration. intros H.
  apply bind_inv in H as ([] & s1 & H1 & H).
  apply bind_inv in H as ([] & s2 & H2 & H3).
  erewrite bind_Ok by exact H1. erewrite bind_Ok by exact H2.
  erewrite bind_Ok by exact H3. reflexivity.
Qed.

(** Every round of the loop is a [Round]. *)
Lemma updateParticle_round gameState inp nd i s s' :
  updateParticle random sqrt opts gameState inp nd i s = Ok tt s' ->
  Round nd (canvasSize inp) i s s'.
Proof.
  intros H.
  destruct (updateParticle_split random sqrt opts gameState inp nd i s s' H)
    as (s0 & q & H0 & Hq & Hps).
  exists s0, q. split; [|split; [exact Hq | split; [exact Hps|]]].
  - apply (Traces_beforeIntegration gameState inp nd i s tt s0 H0).
  - rewrite (updateParticle_after _ _ _ _ _ _ H0) in H.
    injection H as <-. destruct s0; reflexivity.
Qed.

(** The loop is a sequence of rounds that ends when the index has reached
    the length of the array. *)
Lemma updateLoop_rounds gameState inp nd fuel : forall i s s',
  updateLoop random sqrt opts fuel gameState inp nd i s = Ok tt s' ->
  Rounds nd (canvasSize inp) i s s'.
Proof.
  induction fuel as [|fuel IH]; intros i s s' H; [discriminate H|].
  cbn [updateLoop] in H. erewrite bind_Ok in H by reflexivity.
  destruct (Nat.ltb_spec i (length (particles s))) as [Hlt|Hge].
  - apply bind_inv in H as ([] & s1 & H1 & H2).
    eapply rounds_next; [exact Hlt | |].
    + apply (updateParticle_round gameState). exact H1.
    + apply IH. exact H2.
  - injection H as <-. apply rounds_done. exact Hge.
Qed.

(** The interaction block touches the game state only to set
    [gameStarted]. *)
Lemma noteInteraction_cell gameState inp s s' :
  noteInteraction gameState inp s = Ok tt s' ->
  particles s' = particles s
  /\ (gameStateCell s' = gameStateCell s
      \/ gameStateCell s' = started (gameStateCell s)).
Proof.
  unfold noteInteraction, when.
  destruct (interacting inp); [|intros H; injection H as <-; auto].
  erewrite bind_Ok by reflexivity.
  destruct (interactionStartTime s =? 0);
    (erewrite bind_Ok by reflexivity);
    (destruct (negb (gameStarted gameState));
     (erewrite bind_Ok by reflexivity); (erewrite bind_Ok by reflexivity));
    cbn [interactionStartTime with_interactionStartTime setGameState];
    repeat match goal with
           | |- context [if ?b then _ else _] => destruct b
           end;
    intros H; injection H as <-; destruct s; cbn; auto.
Qed.

(** The replenishment promotes at most one particle, and never a target or
    a collector. *)
Lemma replenish_promotes gameState s s' :
  replenish random opts gameState s = Ok tt s' ->
  gameStateCell s' = gameStateCell s
  /\ Promoted (particles s) (particles s').
Proof.
  unfold replenish. erewrite bind_Ok by reflexivity.
  destruct (Nat.ltb_spec (targetCount (particles s)) 3) as [Hlt|Hge];
    [|intros H; injection H as <-; split; [reflexivity | left; reflexivity]].
  erewrite bind_Ok by reflexivity.
  destruct (Js.ltb _ _);
    [|intros H; injection H as <-; destruct s; split;
      [reflexivity | left; reflexivity]].
  erewrite bind_Ok by reflexivity. erewrite bind_Ok by reflexivity.
  set (s2 := with_randomCalls _ (with_randomCalls _ s)).
  assert (Hps : particles s2 = particles s) by (destruct s; reflexivity).
  assert (Hg : gameStateCell s2 = gameStateCell s) by (destruct s; reflexivity).
  rewrite Hps. set (k := Js.floor _).
  destruct (k <? 0); [discriminate|].
  intros H. apply bind_inv in H as (p & s3 & Hp & H).
  apply particleAt_inv in Hp as [-> Hp]. rewrite Hps in Hp.
  unfold when in H.
  destruct (is_target p) eqn:Ht; cbn [negb andb] in H;
    [injection H as <-; rewrite Hps, Hg; split; [reflexivity | left; reflexivity]|].
  destruct (is_collector p) eqn:Hc; cbn [negb andb] in H;
    [injection H as <-; rewrite Hps, Hg; split; [reflexivity | left; reflexivity]|].
  injection H as <-. split; [destruct s; reflexivity|].
  right. exists (Z.to_nat k), p. repeat split; try assumption.
  replace (particles (with_particles (alter (set_isTarget true) (Z.to_nat k)) s2))
    with (alter (set_isTarget true) (Z.to_nat k) (particles s))
    by (destruct s; reflexivity).
  apply alter_as_insert. exact Hp.
Qed.

(** A frame that returns is a [Frame]. *)
Lemma updateParticles_frame gameState inp delta s s' :
  updateParticles random sqrt opts gameState inp delta s = Ok tt s' ->
  Frame (Js.min delta 32 / 16) (canvasSize inp) s s'.
Proof.
  unfold updateParticles. intros H.
  apply bind_inv in H as ([] & s0 & H0 & H).
  apply bind_inv in H as ([] & s1 & H1 & H).
  erewrite bind_Ok in H by reflexivity.
  apply noteInteraction_cell in H0 as [Hp0 Hg0].
  apply replenish_promotes in H1 as [Hg1 Hp1].
  exists s1. split; [rewrite Hg1; exact Hg0|].
  split; [rewrite <- Hp0; exact Hp1|].
  apply (updateLoop_rounds gameState) in H. exact H.
Qed.

End GameFrameSteps.
(** ** What every frame of the game variant keeps *)

Section GameFrameFacts.
Import Game GameFrame.

Lemma targetCount_nil_flags (bs : list Particle) :
  Forall (fun b => isTarget b = None) bs -> targetCount bs = 0%nat.
Proof.
  induction 1 as [|b bs Hb _ IH]; [reflexivity|].
  rewrite targetCount_cons, IH. unfold is_target. rewrite Hb. reflexivity.
Qed.

Lemma targetCount_BurstsOf p bs : BurstsOf p bs -> targetCount bs = 0%nat.
Proof.
  intros [_ H]. apply targetCount_nil_flags.
  eapply Forall_impl; [exact H|]. cbn. intros b Hb. tauto.
Qed.

Lemma targetCount_insert_same i ps p q :
  ps !! i = Some p -> is_target q = is_target p ->
  targetCount (<[i := q]> ps) = targetCount ps.
Proof.
  intros Hp Hq.
  rewrite <- (alter_as_insert (fun _ => q) ps i p Hp).
  revert i Hp. induction ps as [|a ps IH]; intros [|i] Hp; try discriminate.
  - injection Hp as ->. cbn [alter list_alter]. rewrite !targetCount_cons, Hq.
    reflexivity.
  - cbn [alter list_alter]. rewrite !targetCount_cons.
    f_equal. apply IH. exact Hp.
Qed.

Lemma Account_refl s : Account 0 s s.
Proof. unfold Account. repeat split; lia. Qed.

Lemma Account_trans n m s s1 s' :
  Account n s s1 -> Account m s1 s' -> Account (n + m) s s'.
Proof.
  unfold Account.
  intros (L1 & T1 & S1 & C1 & H1 & U1 & V1 & D1 & G1)
         (L2 & T2 & S2 & C2 & H2 & U2 & V2 & D2 & G2).
  split; [lia|]. split; [lia|]. split; [lia|]. split; [lia|].
  split; [|repeat split; congruence].
  rewrite H2, C1, H1. destruct n, m; cbn [Nat.add]; lia.
Qed.

Lemma Step_Account i s s' : Step i s s' -> exists n, Account n s s'.
Proof.
  intros [Hp Hg | f Hf Hp Hg | j p bs Hj Ht Hb Hp Hg].
  - exists 0%nat. unfold Account. rewrite Hp, Hg. repeat split; lia.
  - exists 0%nat. unfold Account. rewrite Hp, Hg, length_alter.
    rewrite targetCount_alter
      by (intros q; unfold is_target; destruct (Hf q) as (_ & _ & -> & _);
          reflexivity).
    repeat split; lia.
  - exists 1%nat. unfold Account. rewrite Hp, Hg.
    rewrite length_app, length_insert, targetCount_app.
    rewrite (targetCount_BurstsOf p bs Hb).
    pose proof (targetCount_collected j _ p Hj Ht).
    destruct Hb as [Hl _]. rewrite Hl. cbn.
    repeat split; lia.
Qed.

Lemma Steps_Account i s s' : rtc (Step i) s s' -> exists n, Account n s s'.
Proof.
  induction 1 as [s | s s1 s' H1 _ (m & IH)].
  - exists 0%nat. apply Account_refl.
  - destruct (Step_Account i s s1 H1) as (n & Hn).
    exists (n + m)%nat. eapply Account_trans; eassumption.
Qed.

Lemma Round_Account nd cs i s s' :
  Round nd cs i s s' -> exists n, Account n s s'.
Proof.
  intros (s0 & q & Hsteps & Hq & Hp & Hg).
  destruct (Steps_Account i s s0 Hsteps) as (n & Hn).
  exists n. replace n with (n + 0)%nat by lia.
  eapply Account_trans; [exact Hn|].
  unfold Account. rewrite Hp, Hg, length_insert.
  rewrite (targetCount_insert_same i _ q)
    by (first [exact Hq
              | rewrite is_target_contain, is_target_integrate; reflexivity]).
  repeat split; lia.
Qed.

Lemma Rounds_Account nd cs i s s' :
  Rounds nd cs i s s' -> exists n, Account n s s'.
Proof.
  induction 1 as [i s _ | i s s1 s' _ Hr _ (m & IH)].
  - exists 0%nat. apply Account_refl.
  - destruct (Round_Account nd cs i s s1 Hr) as (n & Hn).
    exists (n + m)%nat. eapply Account_trans; eassumption.
Qed.

Lemma targetCount_promoted i ps p :
  ps !! i = Some p -> is_target p = false ->
  targetCount (<[i := set_isTarget true p]> ps) = S (targetCount ps).
Proof.
  revert i. induction ps as [|a ps IH]; intros [|i] Hp Ht;
    try discriminate.
  - injection Hp as ->.
    change (<[0%nat := set_isTarget true p]> (p :: ps))
      with (set_isTarget true p :: ps).
    rewrite !targetCount_cons, Ht. reflexivity.
  - change (<[S i := set_isTarget true p]> (a :: ps))
      with (a :: <[i := set_isTarget true p]> ps).
    rewrite !targetCount_cons. rewrite (IH i Hp Ht). lia.
Qed.

Lemma Promoted_length ps ps' : Promoted ps ps' -> length ps' = length ps.
Proof.
  intros [->|(k & p & _ & _ & _ & _ & ->)]; [reflexivity|].
  apply length_insert.
Qed.

Lemma Promoted_targetCount ps ps' :
  Promoted ps ps' ->
  (targetCount ps <= targetCount ps' <= targetCount ps + 1)%nat
  /\ (targetCount ps' <= Nat.max 3 (targetCount ps))%nat.
Proof.
  intros [->|(k & p & Hlt & Hp & Ht & _ & ->)]; [lia|].
  rewrite (targetCount_promoted k ps p Hp Ht). lia.
Qed.

(** A frame: [n] collections after at most one promotion. *)
Lemma Frame_Account nd cs s s' :
  Frame nd cs s s' ->
  exists n,
    length (particles s') = (length (particles s) + 10 * n)%nat
    /\ (targetCount (particles s') + n <= targetCount (particles s) + 1)%nat
    /\ (targetCount (particles s') + n <= Nat.max 3 (targetCount (particles s)))%nat
    /\ score (gameStateCell s') = score (gameStateCell s) + Z.of_nat n
    /\ currency (gameStateCell s') = currency (gameStateCell s) + Z.of_nat n
    /\ highestCurrency (gameStateCell s')
       = match n with
         | O => highestCurrency (gameStateCell s)
         | S _ => Z.max (highestCurrency (gameStateCell s))
                        (currency (gameStateCell s) + Z.of_nat n)
         end
    /\ upgrades (gameStateCell s') = upgrades (gameStateCell s)
    /\ level (gameStateCell s') = level (gameStateCell s)
    /\ lastUpdate (gameStateCell s') = lastUpdate (gameStateCell s).
Proof.
  intros (s1 & Hg & Hp & Hr).
  destruct (Rounds_Account nd cs 0 s1 s' Hr)
    as (n & L & T & S & C & H & U & V & D & _).
  pose proof (Promoted_length _ _ Hp) as Hl.
  pose proof (Promoted_targetCount _ _ Hp) as [Ht Ht'].
  exists n. rewrite L, S, C, H, U, V, D.
  destruct Hg as [-> | ->]; cbn; repeat split; lia.
Qed.

(** *** Particles the loop has visited stay inside the canvas *)

Lemma Step_inside cs n i s s' :
  Step i s s' -> (n <= i < length (particles s))%nat ->
  (forall k p, (k < n)%nat -> particles s !! k = Some p -> inside cs p) ->
  (i < length (particles s'))%nat
  /\ (forall k p, (k < n)%nat -> particles s' !! k = Some p -> inside cs p).
Proof.
  intros [Hp Hg | f Hf Hp Hg | j p bs Hj Ht Hb Hp Hg] Hi Hin; rewrite Hp.
  - split; [lia | exact Hin].
  - rewrite length_alter. split; [lia|].
    intros k q Hk. rewrite list_lookup_alter_ne by lia. apply Hin. exact Hk.
  - rewrite length_app, length_insert. split; [lia|].
    intros k q Hk. rewrite lookup_app_l by (rewrite length_insert; lia).
    destruct (decide (k = j)) as [->|Hne].
    + rewrite list_lookup_insert_eq by (apply lookup_lt_Some in Hj; exact Hj).
      intros [= <-]. apply (Hin j p Hk Hj).
    + rewrite list_lookup_insert_ne by congruence. apply Hin. exact Hk.
Qed.

Lemma Steps_inside cs n i s s' :
  rtc (Step i) s s' -> (n <= i < length (particles s))%nat ->
  (forall k p, (k < n)%nat -> particles s !! k = Some p -> inside cs p) ->
  (i < length (particles s'))%nat
  /\ (forall k p, (k < n)%nat -> particles s' !! k = Some p -> inside cs p).
Proof.
  induction 1 as [s | s s1 s' H1 _ IH]; intros Hi Hin.
  - split; [lia | exact Hin].
  - destruct (Step_inside cs n i s s1 H1 Hi Hin) as [Hi1 Hin1].
    apply IH; [lia | exact Hin1].
Qed.

Lemma Round_inside nd cs i s s' :
  (0 <= width cs)%Q -> (0 <= height cs)%Q ->
  Round nd cs i s s' -> (i < length (particles s))%nat ->
  (forall k p, (k < i)%nat -> particles s !! k = Some p -> inside cs p) ->
  forall k p, (k < S i)%nat -> particles s' !! k = Some p -> inside cs p.
Proof.
  intros Hw Hh (s0 & q & Hsteps & Hq & Hp & _) Hi Hin.
  destruct (Steps_inside cs i i s s0 Hsteps) as [Hi0 Hin0]; [lia | exact Hin|].
  intros k p Hk. rewrite Hp.
  destruct (decide (k = i)) as [->|Hne].
  - rewrite list_lookup_insert_eq by exact Hi0. intros [= <-].
    apply contain_inside; assumption.
  - rewrite list_lookup_insert_ne by congruence. apply Hin0. lia.
Qed.

Lemma Rounds_inside nd cs i s s' :
  (0 <= width cs)%Q -> (0 <= height cs)%Q ->
  Rounds nd cs i s s' ->
  (forall k p, (k < i)%nat -> particles s !! k = Some p -> inside cs p) ->
  forall k p, particles s' !! k = Some p -> inside cs p.
Proof.
  intros Hw Hh. induction 1 as [i s Hge | i s s1 s' Hlt Hr _ IH]; intros Hin.
  - intros k p Hp. apply (Hin k p); [|exact Hp].
    apply lookup_lt_Some in Hp. lia.
  - apply IH. apply (Round_inside nd cs i s s1); assumption.
Qed.

Lemma Frame_inside nd cs s s' :
  (0 <= width cs)%Q -> (0 <= height cs)%Q ->
  Frame nd cs s s' ->
  forall k p, particles s' !! k = Some p -> inside cs p.
Proof.
  intros Hw Hh (s1 & _ & _ & Hr).
  apply (Rounds_inside nd cs 0 s1 s' Hw Hh Hr). intros k p Hk. lia.
Qed.

(** *** Following one particle through a frame

    A property of a particle that every nudge, every change of the target
    flag the frame can make, and the integration with containment keep, is
    kept by the frame. *)

Section Tracking.

Variable nd : Q.
Variable cs : Canvas.
Variable P : Particle -> Prop.

Hypothesis P_nudge : forall f p, Nudge f -> P p -> P (f p).
Hypothesis P_collect :
  forall p, is_target p = true -> P p -> P (set_isTarget false p).
Hypothesis P_promote :
  forall p, is_target p = false -> is_collector p = false -> P p ->
            P (set_isTarget true p).
Hypothesis P_move : forall q, P q -> P (contain cs (integrate nd q)).

Lemma Step_tracks i k s s' p :
  Step i s s' -> particles s !! k = Some p -> P p ->
  exists p', particles s' !! k = Some p' /\ P p'.
Proof.
  intros [Hp Hg | f Hf Hp Hg | j q bs Hj Ht Hb Hp Hg] Hk HP; rewrite Hp.
  - eauto.
  - destruct (decide (k = i)) as [->|Hne].
    + rewrite list_lookup_alter_eq, Hk. cbn. eauto.
    + rewrite list_lookup_alter_ne by congruence. eauto.
  - rewrite lookup_app_l
      by (rewrite length_insert; apply lookup_lt_Some in Hk; exact Hk).
    destruct (decide (k = j)) as [->|Hne].
    + rewrite list_lookup_insert_eq by (apply lookup_lt_Some in Hj; exact Hj).
      assert (q = p) as -> by congruence. eauto.
    + rewrite list_lookup_insert_ne by congruence. eauto.
Qed.

Lemma Steps_tracks i k s s' :
  rtc (Step i) s s' -> forall p, particles s !! k = Some p -> P p ->
  exists p', particles s' !! k = Some p' /\ P p'.
Proof.
  induction 1 as [s | s s1 s' H1 _ IH]; intros p Hk HP; [eauto|].
  destruct (Step_tracks i k s s1 p H1 Hk HP) as (p1 & Hk1 & HP1). eauto.
Qed.

Lemma Round_tracks i k s s' p :
  Round nd cs i s s' -> particles s !! k = Some p -> P p ->
  exists p', particles s' !! k = Some p' /\ P p'.
Proof.
  intros (s0 & q & Hsteps & Hq & Hp & _) Hk HP.
  destruct (Steps_tracks i k s s0 Hsteps p Hk HP) as (p0 & Hk0 & HP0).
  rewrite Hp. destruct (decide (k = i)) as [->|Hne].
  - rewrite list_lookup_insert_eq by (apply lookup_lt_Some in Hq; exact Hq).
    assert (q = p0) as -> by congruence. eauto.
  - rewrite list_lookup_insert_ne by congruence. eauto.
Qed.

Lemma Rounds_tracks i k s s' :
  Rounds nd cs i s s' -> forall p, particles s !! k = Some p -> P p ->
  exists p', particles s' !! k = Some p' /\ P p'.
Proof.
  induction 1 as [i s _ | i s s1 s' _ Hr _ IH]; intros p Hk HP; [eauto|].
  destruct (Round_tracks i k s s1 p Hr Hk HP) as (p1 & Hk1 & HP1). eauto.
Qed.

Lemma Frame_tracks k s s' p :
  Frame nd cs s s' -> particles s !! k = Some p -> P p ->
  exists p', particles s' !! k = Some p' /\ P p'.
Proof.
  intros (s1 & _ & Hpr & Hr) Hk HP.
  assert (H1 : exists p1, particles s1 !! k = Some p1 /\ P p1).
  { destruct Hpr as [->|(j & q & _ & Hj & Ht & Hc & ->)]; [eauto|].
    destruct (decide (k = j)) as [->|Hne].
    - rewrite list_lookup_insert_eq by (apply lookup_lt_Some in Hj; exact Hj).
      assert (q = p) as -> by congruence. eauto.
    - rewrite list_lookup_insert_ne by congruence. eauto. }
  destruct H1 as (p1 & Hk1 & HP1).
  apply (Rounds_tracks 0 k s1 s' Hr p1 Hk1 HP1).
Qed.

End Tracking.

Lemma move_keeps cs nd q :
  let q' := contain cs (integrate nd q) in
  size q' = size q /\ color q' = color q /\ alpha q' = alpha q
  /\ isTarget q' = isTarget q /\ isCollector q' = isCollector q
  /\ autonomy q' = autonomy q /\ behavior q' = behavior q
  /\ lastDirectionChange q' = lastDirectionChange q.
Proof.
  unfold contain, integrate. cbn.
  repeat match goal with
         | |- context [if ?b then _ else _] => destruct b
         end; cbn; repeat split.
Qed.

End GameFrameFacts.
(** ** A frame of the game variant, from start to end *)

Lemma exampleRandom_unit (n : nat) :
  (0 <= exampleRandom n)%Q /\ (exampleRandom n < 1)%Q.
Proof.
  unfold exampleRandom, Qle, Qlt. cbn.
  pose proof (Nat.mod_upper_bound n 10). lia.
Qed.

Section GameFrameWhole.
Import Game GameFrame.

Variable random : nat -> Q.
Variable sqrt : Q -> Q.
Variable opts : Options.

(** X1.  A frame of the game variant that starts on a non-empty array
    returns, and settles its accounts: for some number [n] of collections
    the array has grown by exactly [10 * n] particles, score and currency
    have grown by exactly [n], [highestCurrency] has followed the currency,
    and upgrades, level and [lastUpdate] are as before.  [n] is at most the
    number of targets at the start plus the one the frame may promote. *)
Theorem frame_settles_accounts gameState inp delta s :
  (forall n, (0 <= random n)%Q /\ (random n < 1)%Q) ->
  (0 < length (particles s))%nat ->
  exists s' n,
    updateParticles random sqrt opts gameState inp delta s = Ok tt s'
    /\ length (particles s') = (length (particles s) + 10 * n)%nat
    /\ (n <= targetCount (particles s) + 1)%nat
    /\ score (gameStateCell s') = score (gameStateCell s) + Z.of_nat n
    /\ currency (gameStateCell s') = currency (gameStateCell s) + Z.of_nat n
    /\ highestCurrency (gameStateCell s')
       = match n with
         | O => highestCurrency (gameStateCell s)
         | S _ => Z.max (highestCurrency (gameStateCell s))
                        (currency (gameStateCell s) + Z.of_nat n)
         end
    /\ upgrades (gameStateCell s') = upgrades (gameStateCell s)
    /\ level (gameStateCell s') = level (gameStateCell s)
    /\ lastUpdate (gameStateCell s') = lastUpdate (gameStateCell s).
Proof.
  intros Hr Hlen.
  destruct (updateParticles_total random sqrt opts gameState inp delta s Hr Hlen)
    as (s' & Hrun & _).
  pose proof (updateParticles_frame random sqrt opts gameState inp delta s s' Hrun)
    as Hf.
  apply Frame_Account in Hf as (n & L & T & _ & S & C & H & U & V & D).
  exists s', n. repeat split; try assumption. lia.
Qed.

(** X2.  A frame of the game variant that starts on a non-empty array, on
    a canvas of non-negative width and height, returns with every particle
    of the array inside the canvas (edges included): the particles it found,
    wherever they were, and the bursts it pushed. *)
Theorem frame_ends_inside_canvas gameState inp delta s :
  (forall n, (0 <= random n)%Q /\ (random n < 1)%Q) ->
  (0 < length (particles s))%nat ->
  (0 <= width (canvasSize inp))%Q -> (0 <= height (canvasSize inp))%Q ->
  exists s',
    updateParticles random sqrt opts gameState inp delta s = Ok tt s'
    /\ forall k p, particles s' !! k = Some p ->
         (0 <= x p <= width (canvasSize inp))%Q
         /\ (0 <= y p <= height (canvasSize inp))%Q.
Proof.
  intros Hr Hlen Hw Hh.
  destruct (updateParticles_total random sqrt opts gameState inp delta s Hr Hlen)
    as (s' & Hrun & _).
  exists s'. split; [exact Hrun|].
  apply (updateParticles_frame random sqrt opts gameState inp delta) in Hrun.
  apply (Frame_inside _ _ s s' Hw Hh Hrun).
Qed.

(** X3.  A frame of the game variant that starts with at most three targets
    ends with at most three: the replenishment promotes one particle at
    most, and only while fewer than three targets exist. *)
Theorem frame_keeps_target_cap gameState inp delta s :
  (forall n, (0 <= random n)%Q /\ (random n < 1)%Q) ->
  (0 < length (particles s))%nat ->
  (targetCount (particles s) <= 3)%nat ->
  exists s',
    updateParticles random sqrt opts gameState inp delta s = Ok tt s'
    /\ (targetCount (particles s') <= 3)%nat.
Proof.
  intros Hr Hlen Hcap.
  destruct (updateParticles_total random sqrt opts gameState inp delta s Hr Hlen)
    as (s' & Hrun & _).
  exists s'. split; [exact Hrun|].
  apply (updateParticles_frame random sqrt opts gameState inp delta) in Hrun.
  apply Frame_Account in Hrun as (n & _ & _ & T & _). lia.
Qed.

(** X4.  A frame of the game variant changes of a particle it finds in the
    array only the position, the velocity, [lastDirectionChange] and the
    target flag: size, colour, alpha, the collector flag, autonomy and
    behaviour are as before, at the same index.  A collector that is no
    target at the start of the frame is no target at its end. *)
Theorem frame_keeps_particle_identity gameState inp delta s k p :
  (forall n, (0 <= random n)%Q /\ (random n < 1)%Q) ->
  particles s !! k = Some p ->
  exists s' p',
    updateParticles random sqrt opts gameState inp delta s = Ok tt s'
    /\ particles s' !! k = Some p'
    /\ size p' = size p /\ color p' = color p /\ alpha p' = alpha p
    /\ isCollector p' = isCollector p
    /\ autonomy p' = autonomy p /\ behavior p' = behavior p
    /\ (is_collector p = true -> is_target p = false -> is_target p' = false).
Proof.
  intros Hr Hk.
  assert (Hlen : (0 < length (particles s))%nat)
    by (apply lookup_lt_Some in Hk; lia).
  destruct (updateParticles_total random sqrt opts gameState inp delta s Hr Hlen)
    as (s' & Hrun & _).
  pose proof (updateParticles_frame random sqrt opts gameState inp delta s s' Hrun)
    as Hf.
  set (P := fun q : Particle =>
    size q = size p /\ color q = color p /\ alpha q = alpha p
    /\ isCollector q = isCollector p
    /\ autonomy q = autonomy p /\ behavior q = behavior p
    /\ (is_collector p = true -> is_target p = false -> is_target q = false)).
  destruct (Frame_tracks (Js.min delta 32 / 16) (canvasSize inp) P)
    with (k := k) (s := s) (s' := s') (p := p)
    as (p' & Hk' & HP); try assumption.
  - intros f q Hn (A & B & C & D & E & F & G).
    destruct (Hn q) as (_ & _ & Nt & Nc & Ns & Nk & Na & Nu & Nb).
    unfold P, is_target. rewrite Nt, Nc, Ns, Nk, Na, Nu, Nb.
    repeat split; try assumption; exact G.
  - intros q _ (A & B & C & D & E & F & G). unfold P. cbn.
    repeat split; try assumption; reflexivity.
  - intros q Ht Hc (A & B & C & D & E & F & G). unfold P. cbn.
    repeat split; try assumption. intros Hcp _.
    unfold is_collector in Hc, Hcp. rewrite D, Hcp in Hc. discriminate.
  - intros q (A & B & C & D & E & F & G).
    destruct (move_keeps (canvasSize inp) (Js.min delta 32 / 16) q)
      as (Ms & Mk & Ma & Mt & Mc & Mu & Mb & _).
    unfold P, is_target. rewrite Ms, Mk, Ma, Mt, Mc, Mu, Mb.
    repeat split; try assumption; exact G.
  - unfold P. repeat split; try reflexivity. intros _ Ht. exact Ht.
  - exists s', p'. unfold P in HP. tauto.
Qed.

(** X7.  On an empty array the frame depends on one draw.  If
    [Math.random()] falls below the adjusted spawn rate, the replenishment
    reads [particles[0].isTarget] of an array that has no element and the
    frame throws; otherwise the frame returns and the array is still
    empty. *)
Theorem frame_on_empty_array gameState inp delta s :
  particles s = [] ->
  let adjustedSpawnRate :=
    (opt_targetSpawnRate opts
     * (1 + inject_Z (targetSpawnRate (upgrades gameState)) * 0.2))%Q in
  ((random (randomCalls s) < adjustedSpawnRate)%Q ->
     updateParticles random sqrt opts gameState inp delta s = Throw)
  /\ ((adjustedSpawnRate <= random (randomCalls s))%Q ->
      exists s',
        updateParticles random sqrt opts gameState inp delta s = Ok tt s'
        /\ particles s' = []).
Proof.
  intros Hnil rate.
  destruct (noteInteraction_returns gameState inp s) as (s0 & H0 & Hp0 & Hc0).
  rewrite Hnil in Hp0.
  assert (Hrep : replenish random opts gameState s0
                 = if Js.ltb (random (randomCalls s)) rate then Throw
                   else Ok tt (with_randomCalls (S (randomCalls s0)) s0)).
  { unfold replenish. erewrite bind_Ok by reflexivity. cbn beta.
    rewrite Hp0. change (targetCount [] <? 3)%nat with true. cbn iota.
    erewrite bind_Ok by reflexivity. rewrite Hc0. fold rate.
    destruct (Js.ltb (random (randomCalls s)) rate); [|reflexivity].
    erewrite bind_Ok by reflexivity. erewrite bind_Ok by reflexivity.
    replace (particles (with_randomCalls _ (with_randomCalls _ s0)))
      with (particles s0) by (destruct s0; reflexivity).
    rewrite Hp0. cbn [length].
    replace (Js.floor _) with 0.
    2:{ unfold Js.floor. symmetry. rewrite <- (Qfloor_Z 0).
        apply Qfloor_comp. change (inject_Z (Z.of_nat 0)) with 0%Q.
        change (inject_Z 0) with 0%Q. ring. }
    cbn [Z.ltb Z.compare Z.to_nat]. unfold mbind, M_bind, particleAt.
    replace (particles (with_randomCalls _ (with_randomCalls _ s0)))
      with (particles s0) by (destruct s0; reflexivity).
    rewrite Hp0. reflexivity. }
  unfold updateParticles. erewrite bind_Ok by exact H0.
  split; intros Hr.
  - apply ltb_lt in Hr. rewrite Hr in Hrep.
    unfold mbind, M_bind at 1. rewrite Hrep. reflexivity.
  - apply ltb_ge in Hr. rewrite Hr in Hrep.
    erewrite bind_Ok by exact Hrep. erewrite bind_Ok by reflexivity.
    replace (particles (with_randomCalls _ s0)) with (particles s0)
      by (destruct s0; reflexivity).
    rewrite Hp0. cbn [frameFuel length targetCount targetsOf filter Nat.add
                      Nat.mul updateLoop].
    erewrite bind_Ok by reflexivity.
    replace (particles (with_randomCalls _ s0)) with (particles s0)
      by (destruct s0; reflexivity).
    rewrite Hp0. cbn. eexists. split; [reflexivity|].
    destruct s0; cbn in *. exact Hp0.
Qed.

End GameFrameWhole.

Lemma frame_settles_accounts_witness :
  exists s' n,
    Game.updateParticles exampleRandom Js.sqrt6 canvasOptions
      (Game.initialGameState 0) (idleInputs 16) 16 populatedState = Ok tt s'
    /\ length (Game.particles s')
       = (length (Game.particles populatedState) + 10 * n)%nat
    /\ (n <= Game.targetCount (Game.particles populatedState) + 1)%nat
    /\ Game.score (Game.gameStateCell s')
       = Game.score (Game.gameStateCell populatedState) + Z.of_nat n
    /\ Game.currency (Game.gameStateCell s')
       = Game.currency (Game.gameStateCell populatedState) + Z.of_nat n
    /\ Game.highestCurrency (Game.gameStateCell s')
       = match n with
         | O => Game.highestCurrency (Game.gameStateCell populatedState)
         | S _ => Z.max (Game.highestCurrency (Game.gameStateCell populatedState))
                        (Game.currency (Game.gameStateCell populatedState)
                         + Z.of_nat n)
         end
    /\ Game.upgrades (Game.gameStateCell s')
       = Game.upgrades (Game.gameStateCell populatedState)
    /\ Game.level (Game.gameStateCell s')
       = Game.level (Game.gameStateCell populatedState)
    /\ Game.lastUpdate (Game.gameStateCell s')
       = Game.lastUpdate (Game.gameStateCell populatedState).
Proof.
  apply (frame_settles_accounts exampleRandom Js.sqrt6 canvasOptions
           (Game.initialGameState 0) (idleInputs 16) 16 populatedState).
  - exact exampleRandom_unit.
  - vm_compute. lia.
Defined.

Lemma frame_ends_inside_canvas_witness :
  exists s',
    Game.updateParticles exampleRandom Js.sqrt6 canvasOptions
      (Game.initialGameState 0) (idleInputs 16) 16 burstLadenState = Ok tt s'
    /\ forall k p, Game.particles s' !! k = Some p ->
         (0 <= Game.x p <= width (canvasSize (idleInputs 16)))%Q
         /\ (0 <= Game.y p <= height (canvasSize (idleInputs 16)))%Q.
Proof.
  apply (frame_ends_inside_canvas exampleRandom Js.sqrt6 canvasOptions
           (Game.initialGameState 0) (idleInputs 16) 16 burstLadenState).
  - exact exampleRandom_unit.
  - vm_compute. lia.
  - vm_compute. discriminate.
  - vm_compute. discriminate.
Defined.

Lemma frame_keeps_target_cap_witness :
  exists s',
    Game.updateParticles exampleRandom Js.sqrt6 canvasOptions
      (Game.initialGameState 0) (idleInputs 16) 16 populatedState = Ok tt s'
    /\ (Game.targetCount (Game.particles s') <= 3)%nat.
Proof.
  apply (frame_keeps_target_cap exampleRandom Js.sqrt6 canvasOptions
           (Game.initialGameState 0) (idleInputs 16) 16 populatedState).
  - exact exampleRandom_unit.
  - vm_compute. lia.
  - vm_compute. lia.
Defined.

Lemma frame_keeps_particle_identity_witness :
  exists s' p',
    Game.updateParticles exampleRandom Js.sqrt6 canvasOptions
      (Game.initialGameState 0) (idleInputs firstFrameTime) 16 collectorState
    = Ok tt s'
    /\ Game.particles s' !! 0%nat = Some p'
    /\ Game.size p' = Game.size collectorParticle
    /\ Game.color p' = Game.color collectorParticle
    /\ Game.alpha p' = Game.alpha collectorParticle
    /\ Game.isCollector p' = Game.isCollector collectorParticle
    /\ Game.autonomy p' = Game.autonomy collectorParticle
    /\ Game.behavior p' = Game.behavior collectorParticle
    /\ (Game.is_collector collectorParticle = true ->
        Game.is_target collectorParticle = false ->
        Game.is_target p' = false).
Proof.
  apply (frame_keeps_particle_identity exampleRandom Js.sqrt6 canvasOptions
           (Game.initialGameState 0) (idleInputs firstFrameTime) 16
           collectorState 0 collectorParticle).
  - exact exampleRandom_unit.
  - reflexivity.
Defined.

Lemma frame_on_empty_array_witness :
  let s := Game.initialState 0 exampleStorage in
  let gameState := Game.initialGameState 0 in
  let adjustedSpawnRate :=
    (opt_targetSpawnRate canvasOptions
     * (1 + inject_Z (Game.targetSpawnRate (Game.upgrades gameState)) * 0.2))%Q in
  ((exampleRandom (Game.randomCalls s) < adjustedSpawnRate)%Q ->
     Game.updateParticles exampleRandom Js.sqrt6 canvasOptions gameState
       (idleInputs 16) 0 s = Throw)
  /\ ((adjustedSpawnRate <= exampleRandom (Game.randomCalls s))%Q ->
      exists s',
        Game.updateParticles exampleRandom Js.sqrt6 canvasOptions gameState
          (idleInputs 16) 0 s = Ok tt s'
        /\ Game.particles s' = []).
Proof.
  apply (frame_on_empty_array exampleRandom Js.sqrt6 canvasOptions
           (Game.initialGameState 0) (idleInputs 16) 0
           (Game.initialState 0 exampleStorage)).
  reflexivity.
Defined.

Example first_frame_on_empty_array_throws :
  Game.updateParticles exampleRandom Js.sqrt6 canvasOptions
    (Game.initialGameState 0) (idleInputs 16) 0
    (Game.initialState 0 exampleStorage) = Throw.
Proof. vm_compute. reflexivity. Qed.
(** ** The upgrade panel and the engine over time *)

Lemma getUpgradeCost_nonneg (k : Game.UpgradeKey) (L : Z) :
  0 <= getUpgradeCost (Game.key_name k) L.
Proof.
  rewrite getUpgradeCost_key. unfold Js.floor, Js.pow.
  rewrite <- (Qfloor_Z 0). apply Qfloor_resp_le.
  change (inject_Z 0) with 0%Q. apply Qmult_le_0_compat.
  - destruct k; vm_compute; discriminate.
  - apply Qpower_0_le. destruct k; vm_compute; discriminate.
Qed.


Section ShopProperties.
Import Game Shop.

Variable random : nat -> Q.
Variable opts : Options.



End ShopProperties.


Section EngineProperties.
Import Game GameFrame Engine.

Variable random : nat -> Q.
Variable sqrt : Q -> Q.
Variable JSON_stringify : GameState -> string.
Variable opts : Options.

Lemma saveGameState_cell gameState s s' :
  saveGameState JSON_stringify gameState s = Ok tt s' ->
  gameStateCell s' = gameStateCell s /\ particles s' = particles s.
Proof.
  unfold saveGameState. erewrite bind_Ok by reflexivity.
  destruct (setItem _ _ _); intros H; injection H as <-;
    destruct s; split; reflexivity.
Qed.

Lemma targetCount_le_length ps : (targetCount ps <= length ps)%nat.
Proof. unfold targetCount, targetsOf. apply length_filter. Qed.

Lemma targetCount_none ps :
  Forall (fun p => is_target p = false) ps -> targetCount ps = 0%nat.
Proof.
  induction 1 as [|p ps Hp _ IH]; [reflexivity|].
  rewrite targetCount_cons, Hp, IH. reflexivity.
Qed.

(** [initParticles] marks the first three particles as targets and no
    other. *)
Lemma population_targetCount gameState canvasRef k :
  (targetCount (population random opts gameState canvasRef k) <= 3)%nat.
Proof.
  set (ps := population random opts gameState canvasRef k).
  rewrite <- (take_drop 3 ps), targetCount_app.
  assert (H1 : (targetCount (take 3 ps) <= 3)%nat).
  { etransitivity; [apply targetCount_le_length|].
    rewrite length_take. lia. }
  assert (H2 : targetCount (drop 3 ps) = 0%nat).
  { apply targetCount_none, Forall_lookup. intros i p Hp.
    rewrite lookup_drop in Hp.
    apply (population_flags random opts gameState canvasRef k) in Hp
      as (Ht & _).
    unfold is_target. rewrite Ht.
    destruct (Z.ltb_spec (Z.of_nat (3 + i)) 3); [lia | reflexivity]. }
  lia.
Qed.

Lemma purchased_Balanced k cost g :
  0 <= cost -> Balanced g -> Balanced (purchased k cost g).
Proof.
  unfold Balanced, purchased. intros Hc (H0 & H1 & H2).
  destruct (Z.ltb_spec (currency g) cost); cbn; lia.
Qed.

Lemma purchased_levels k cost g k' :
  get_upgrade (upgrades g) k'
  <= get_upgrade (upgrades (purchased k cost g)) k'.
Proof.
  unfold purchased. destruct (currency g <? cost); [lia|]. cbn.
  destruct k, k'; cbn; lia.
Qed.

Lemma purchased_rest k cost g :
  score (purchased k cost g) = score g
  /\ highestCurrency (purchased k cost g) = highestCurrency g
  /\ level (purchased k cost g) = level g
  /\ lastUpdate (purchased k cost g) = lastUpdate g.
Proof. unfold purchased. destruct (currency g <? cost); cbn; auto. Qed.

(** What an event can do to the books, the levels and the targets. *)
Lemma handle_keeps e s s' :
  handle random sqrt JSON_stringify opts e s = Ok tt s' ->
  let g := gameStateCell s in
  let g' := gameStateCell s' in
  (Balanced g -> Balanced g')
  /\ score g <= score g'
  /\ highestCurrency g <= highestCurrency g'
  /\ (forall k, get_upgrade (upgrades g) k <= get_upgrade (upgrades g') k)
  /\ level g' = level g /\ lastUpdate g' = lastUpdate g
  /\ ((targetCount (particles s) <= 3)%nat ->
      (targetCount (particles s') <= 3)%nat).
Proof.
  destruct e as [gameState inp delta | gameState canvasRef k
                | gameState canvasRef | gameState]; cbn [handle]; intros H.
  - apply (updateParticles_frame random sqrt opts) in H.
    apply Frame_Account in H as (n & L & T & T' & S & C & Hh & U & V & D).
    cbn zeta. unfold Balanced. rewrite S, C, Hh, U, V, D.
    split; [intros (B0 & B1 & B2); destruct n; lia|].
    repeat split; intros; try lia; destruct n; lia.
  - unfold Shop.click in H.
    destruct (Shop.disabled _).
    + injection H as <-. cbn zeta.
      split; [auto | repeat split; intros; try lia; auto].
    + destruct (purchaseUpgrade_run random opts gameState canvasRef
                  (Shop.id (Shop.upgradeOption (currency gameState)
                              (upgrades gameState) k))
                  (Shop.cost (Shop.upgradeOption (currency gameState)
                                (upgrades gameState) k)) s)
        as (s2 & Hrun & Hg & Hp).
      rewrite Hrun in H. injection H as <-. cbn zeta. rewrite Hg, Hp.
      destruct (purchased_rest k
                  (Shop.cost (Shop.upgradeOption (currency gameState)
                                (upgrades gameState) k)) (gameStateCell s))
        as (R1 & R2 & R3 & R4).
      cbn [Shop.id Shop.upgradeOption] in *.
      rewrite R1, R2, R3, R4.
      split; [apply purchased_Balanced, getUpgradeCost_nonneg|].
      repeat split; try lia.
      * apply purchased_levels.
      * intros _. apply population_targetCount.
  - destruct (initParticles_run random opts gameState canvasRef s)
      as (s2 & Hrun & Hp & Hg & _).
    rewrite Hrun in H. injection H as <-. cbn zeta. rewrite Hg, Hp.
    split; [auto | repeat split; intros; try lia; auto].
    apply population_targetCount.
  - apply saveGameState_cell in H as [Hg Hp]. cbn zeta. rewrite Hg, Hp.
    split; [auto | repeat split; intros; try lia; auto].
Qed.

(** X6.  Whatever frames, clicks on the panel, resizes and saves reach the
    engine, in whatever order and from whatever render their closures
    come: if the books were balanced at the start ([0 <= currency <=
    highestCurrency <= score]) they are balanced at the end; score,
    [highestCurrency] and every upgrade level have not decreased; [level]
    and [lastUpdate] are what they were; and an array that held at most
    three targets still holds at most three. *)
Theorem engine_keeps_the_books es s s' :
  run random sqrt JSON_stringify opts es s = Ok tt s' ->
  Balanced (gameStateCell s) ->
  (targetCount (particles s) <= 3)%nat ->
  Balanced (gameStateCell s')
  /\ score (gameStateCell s) <= score (gameStateCell s')
  /\ highestCurrency (gameStateCell s) <= highestCurrency (gameStateCell s')
  /\ (forall k, get_upgrade (upgrades (gameStateCell s)) k
                <= get_upgrade (upgrades (gameStateCell s')) k)
  /\ level (gameStateCell s') = level (gameStateCell s)
  /\ lastUpdate (gameStateCell s') = lastUpdate (gameStateCell s)
  /\ (targetCount (particles s') <= 3)%nat.
Proof.
  revert s. induction es as [|e es IH]; intros s H HB HT.
  - injection H as <-. split; [exact HB|]. repeat split; intros; try lia.
  - cbn [run] in H. apply bind_inv in H as ([] & s1 & H1 & H2).
    apply handle_keeps in H1 as (B1 & S1 & M1 & U1 & L1 & D1 & T1).
    destruct (IH s1 H2 (B1 HB) (T1 HT)) as (B2 & S2 & M2 & U2 & L2 & D2 & T2).
    split; [exact B2|]. repeat split; try lia.
    intros k. specialize (U1 k). specialize (U2 k). lia.
Qed.

End EngineProperties.

Lemma engine_keeps_the_books_witness :
  Engine.Balanced (Game.gameStateCell exampleSessionEnd)
  /\ Game.score (Game.gameStateCell wealthyState)
     <= Game.score (Game.gameStateCell exampleSessionEnd)
  /\ Game.highestCurrency (Game.gameStateCell wealthyState)
     <= Game.highestCurrency (Game.gameStateCell exampleSessionEnd)
  /\ (forall k, Game.get_upgrade (Game.upgrades (Game.gameStateCell wealthyState)) k
                <= Game.get_upgrade
                     (Game.upgrades (Game.gameStateCell exampleSessionEnd)) k)
  /\ Game.level (Game.gameStateCell exampleSessionEnd)
     = Game.level (Game.gameStateCell wealthyState)
  /\ Game.lastUpdate (Game.gameStateCell exampleSessionEnd)
     = Game.lastUpdate (Game.gameStateCell wealthyState)
  /\ (Game.targetCount (Game.particles exampleSessionEnd) <= 3)%nat.
Proof.
  apply (engine_keeps_the_books exampleRandom Js.sqrt6 Game.stringify
           canvasOptions exampleSession wealthyState exampleSessionEnd).
  - vm_compute. reflexivity.
  - vm_compute. repeat split; discriminate.
  - vm_compute. lia.
Defined.

Example exampleSession_books :
  (fun g => (Game.currency g, Game.score g, Game.highestCurrency g,
             Game.maxParticles (Game.upgrades g)))
    (Game.gameStateCell exampleSessionEnd)
  = (13, 20, 20, 2)
  /\ length (Game.particles exampleSessionEnd) = 72%nat.
Proof. vm_compute. split; reflexivity. Qed.
(** ** The target a seeker or a collector turns to *)

Section Nearest.
Import Game.

Variable sqrt : Q -> Q.

Lemma fold_closer p l : forall c d,
  exists c' d',
    fold_left (closer sqrt p) l (c, Some d) = (c', Some d')
    /\ ((c' = c /\ d' = d)
        \/ (c' ∈ l /\ d' = distance sqrt (x c' - x p) (y c' - y p)))
    /\ (d' <= d)%Q
    /\ forall u, u ∈ l -> (d' <= distance sqrt (x u - x p) (y u - y p))%Q.
Proof.
  induction l as [|a l IH]; intros c d; cbn [fold_left].
  - exists c, d. split; [reflexivity|]. split; [left; auto|].
    split; [apply Qle_refl|]. intros u Hu. inversion Hu.
  - unfold closer at 2. cbn [snd].
    destruct (Js.ltb _ d) eqn:E.
    + apply ltb_lt in E.
      destruct (IH a (distance sqrt (x a - x p) (y a - y p)))
        as (c' & d' & Hf & Hc & Hd & Hall).
      exists c', d'. split; [exact Hf|]. split; [|split].
      * right. destruct Hc as [[-> ->] | [Hin ->]].
        -- split; [left | reflexivity].
        -- split; [right; exact Hin | reflexivity].
      * eapply Qle_trans; [exact Hd | apply Qlt_le_weak; exact E].
      * intros u Hu. apply elem_of_cons in Hu as [-> | Hu];
          [exact Hd | apply Hall; exact Hu].
    + apply ltb_ge in E.
      destruct (IH c d) as (c' & d' & Hf & Hc & Hd & Hall).
      exists c', d'. split; [exact Hf|]. split; [|split].
      * destruct Hc as [Hc | [Hin ->]]; [left; exact Hc|].
        right. split; [right; exact Hin | reflexivity].
      * exact Hd.
      * intros u Hu. apply elem_of_cons in Hu as [-> | Hu];
          [eapply Qle_trans; eassumption | apply Hall; exact Hu].
Qed.

(** X8.  "Find closest target": among a non-empty list of targets the loop
    picks one of the list, and no target of the list is nearer to the
    particle than the one picked. *)
Theorem closestTarget_is_nearest p targets :
  targets <> [] ->
  exists t,
    closestTarget sqrt p targets = Some t
    /\ t ∈ targets
    /\ forall u, u ∈ targets ->
         (distance sqrt (x t - x p) (y t - y p)
          <= distance sqrt (x u - x p) (y u - y p))%Q.
Proof.
  destruct targets as [|t0 rest]; [congruence|]. intros _.
  unfold closestTarget. cbn [fold_left]. unfold closer at 2. cbn [snd].
  destruct (fold_closer p rest t0 (distance sqrt (x t0 - x p) (y t0 - y p)))
    as (c' & d' & Hf & Hc & Hd & Hall).
  rewrite Hf. cbn [fst]. exists c'. split; [reflexivity|].
  assert (Hd' : d' = distance sqrt (x c' - x p) (y c' - y p))
    by (destruct Hc as [[-> ->] | [_ ->]]; reflexivity).
  split.
  - destruct Hc as [[-> _] | [Hin _]]; [left | right; exact Hin].
  - rewrite <- Hd'. intros u Hu.
    apply elem_of_cons in Hu as [-> | Hu]; [exact Hd | apply Hall; exact Hu].
Qed.

End Nearest.

Lemma closestTarget_is_nearest_witness :
  exists t,
    Game.closestTarget Js.sqrt6 collectorParticle [targetParticle; edgeParticle]
    = Some t
    /\ t ∈ [targetParticle; edgeParticle]
    /\ forall u, u ∈ [targetParticle; edgeParticle] ->
         (Game.distance Js.sqrt6 (Game.x t - Game.x collectorParticle)
            (Game.y t - Game.y collectorParticle)
          <= Game.distance Js.sqrt6 (Game.x u - Game.x collectorParticle)
               (Game.y u - Game.y collectorParticle))%Q.
Proof.
  apply (closestTarget_is_nearest Js.sqrt6 collectorParticle
           [targetParticle; edgeParticle]).
  discriminate.
Defined.
(** ** Persistence and the effects of the hook *)

Section LifecycleProperties.
Import Game Lifecycle.

Variable random : nat -> Q.
Variable sqrt : Q -> Q.
Variable JSON_stringify : GameState -> string.
Variable JSON_parse : string -> option GameState.
Variable opts : Options.

Lemma saveGameState_fits gameState s :
  (String.length (JSON_stringify gameState) <= quota (localStorage s))%nat ->
  saveGameState JSON_stringify gameState s
  = Ok tt (with_localStorage
             (fun ls => {| items := <[storageKey := JSON_stringify gameState]>
                                      (items ls);
                           quota := quota ls |}) s).
Proof.
  intros Hq. unfold saveGameState. erewrite bind_Ok by reflexivity.
  unfold setItem. apply Nat.leb_le in Hq. rewrite Hq.
  destruct s; reflexivity.
Qed.

Lemma loadGameState_cases s :
  exists s',
    loadGameState JSON_parse s = Ok tt s'
    /\ particles s' = particles s
    /\ localStorage s' = localStorage s
    /\ gameStateCell s'
       = match getItem storageKey (localStorage s) with
         | None => gameStateCell s
         | Some savedState =>
             if (String.length savedState =? 0)%nat then gameStateCell s
             else default (gameStateCell s) (JSON_parse savedState)
         end.
Proof.
  unfold loadGameState. erewrite bind_Ok by reflexivity.
  destruct (getItem storageKey (localStorage s)) as [text|];
    [|exists s; auto].
  destruct (String.length text =? 0)%nat; [exists s; auto|].
  destruct (JSON_parse text) as [g|]; [|exists s; auto].
  eexists. split; [reflexivity|]. destruct s; auto.
Qed.

(** X9.  A write that [localStorage] refuses is caught, and the save made
    before it is still there: after a save of [g1] that fits and a save of
    [g2] that does not, loading gives [g1]. *)
Theorem refused_save_keeps_the_previous_one g1 g2 s :
  JSON_parse (JSON_stringify g1) = Some g1 ->
  (0 < String.length (JSON_stringify g1) <= quota (localStorage s))%nat ->
  (quota (localStorage s) < String.length (JSON_stringify g2))%nat ->
  exists s1 s2,
    saveGameState JSON_stringify g1 s = Ok tt s1
    /\ saveGameState JSON_stringify g2 s1 = Ok tt s1
    /\ loadGameState JSON_parse s1 = Ok tt s2
    /\ gameStateCell s2 = g1.
Proof.
  intros Hcodec [Hlen Hq] Hover.
  pose proof (saveGameState_fits g1 s Hq) as H1.
  eexists. 
  destruct (loadGameState_cases
              (with_localStorage
                 (fun ls => {| items := <[storageKey := JSON_stringify g1]>
                                          (items ls);
                               quota := quota ls |}) s))
    as (s2 & Hload & _ & _ & Hg).
  exists s2. split; [exact H1|]. split; [|split; [exact Hload|]].
  - apply saveGameState_over_quota. destruct s; cbn in *. exact Hover.
  - rewrite Hg.
    replace (getItem storageKey (localStorage (with_localStorage _ s)))
      with (Some (JSON_stringify g1))
      by (destruct s; unfold getItem; cbn; symmetry; apply lookup_insert_eq).
    destruct (Nat.eqb_spec (String.length (JSON_stringify g1)) 0) as [E|_];
      [lia|].
    rewrite Hcodec. reflexivity.
Qed.

(** X10.  [saveGameState] writes one key.  After two saves that fit, the
    item under ['particleGame'] is the text of the second, every other key
    of [localStorage] holds what it held, and neither the game state nor
    the particles have changed. *)
Theorem saveGameState_overwrites_one_key g1 g2 s :
  (String.length (JSON_stringify g1) <= quota (localStorage s))%nat ->
  (String.length (JSON_stringify g2) <= quota (localStorage s))%nat ->
  exists s1 s2,
    saveGameState JSON_stringify g1 s = Ok tt s1
    /\ saveGameState JSON_stringify g2 s1 = Ok tt s2
    /\ getItem storageKey (localStorage s2) = Some (JSON_stringify g2)
    /\ (forall k, k <> storageKey ->
          getItem k (localStorage s2) = getItem k (localStorage s))
    /\ gameStateCell s2 = gameStateCell s
    /\ particles s2 = particles s.
Proof.
  intros H1 H2.
  eexists. eexists. split; [apply saveGameState_fits; exact H1|].
  split; [apply saveGameState_fits; destruct s; cbn in *; exact H2|].
  destruct s as [ps g a b c d [it q] r]; unfold getItem; cbn.
  split; [apply lookup_insert_eq|]. split; [|auto].
  intros k Hk. rewrite !lookup_insert_ne by congruence. reflexivity.
Qed.

(** The mount builds the population from the first render and only then
    loads the save. *)
Lemma mount_run now canvas ls :
  exists s',
    mount random JSON_parse opts now (Some canvas) (initialState now ls)
    = Ok tt s'
    /\ particles s' = population random opts (initialGameState now) (Some canvas) 0
    /\ localStorage s' = ls
    /\ gameStateCell s'
       = match getItem storageKey ls with
         | None => initialGameState now
         | Some savedState =>
             if (String.length savedState =? 0)%nat then initialGameState now
             else default (initialGameState now) (JSON_parse savedState)
         end.
Proof.
  unfold mount, firstRender.
  destruct (initParticles_run random opts (initialGameState now) (Some canvas)
              (initialState now ls)) as (s1 & H1 & Hp1 & Hg1 & Hl1).
  destruct (loadGameState_cases s1) as (s2 & H2 & Hp2 & Hl2 & Hg2).
  exists s2. split; [erewrite bind_Ok by exact H1; exact H2|].
  rewrite Hp2, Hp1, Hg2, Hg1, Hl2, Hl1. auto.
Qed.

(** X11.  What a mount leaves behind.  Whatever [localStorage] holds, the
    population is the one of the first render: its size comes from
    [maxParticles] at its initial level 1, no particle is a collector and
    none has autonomy.  The game state is the initial one if there is no
    item under ['particleGame'] or the item is the empty text, and it is
    the saved one if [JSON.parse] of the item returns a complete game
    state: the levels it carries have not reached the population. *)
Theorem mount_loads_state_after_population now canvas ls :
  exists s',
    mount random JSON_parse opts now (Some canvas) (initialState now ls)
    = Ok tt s'
    /\ length (particles s')
       = Z.to_nat
           (Binary64.rounds
              (Binary64.floor
                 (Binary64.mul (Binary64.of_Z (opt_maxParticles opts))
                    (Binary64.add (Binary64.of_Z 1)
                       (Binary64.mul (Binary64.of_Z 1) (Binary64.of_Q 0.2))))))
    /\ (forall p, p ∈ particles s' ->
          is_collector p = false /\ (autonomy p == 0)%Q)
    /\ (getItem storageKey ls = None -> gameStateCell s' = initialGameState now)
    /\ (forall savedState,
          getItem storageKey ls = Some savedState ->
          String.length savedState = 0%nat ->
          gameStateCell s' = initialGameState now)
    /\ (forall savedState g,
          getItem storageKey ls = Some savedState ->
          String.length savedState <> 0%nat ->
          JSON_parse savedState = Some g ->
          gameStateCell s' = g).
Proof.
  destruct (mount_run now canvas ls) as (s' & Hm & Hp & _ & Hg).
  exists s'. split; [exact Hm|]. rewrite Hp.
  split; [|split; [|split; [|split]]].
  - exact (population_length random opts (initialGameState now) canvas 0).
  - intros p Hin. apply list_elem_of_lookup in Hin as [i Hi].
    pose proof Hi as Hi'.
    apply population_flags in Hi as (_ & Hc & _).
    split.
    + unfold is_collector. rewrite Hc. cbn.
      destruct (Z.ltb_spec (Z.of_nat i) 0); [lia | reflexivity].
    + unfold population in Hi'. apply populationFrom_lookup in Hi'.
      subst p. unfold freshParticle, particleLiteral. cbn [autonomy].
      change (Js.min 0.8 (inject_Z (autonomyLevel (upgrades (initialGameState now))) * 0.2))
        with (0 # 10)%Q.
      unfold Qeq, Qmult. cbn [Qnum Qden]. lia.
  - intros Hnone. rewrite Hg, Hnone. reflexivity.
  - intros savedState Hsome Hlen. rewrite Hg, Hsome.
    apply Nat.eqb_eq in Hlen. rewrite Hlen. reflexivity.
  - intros savedState g Hsome Hlen Hparse. rewrite Hg, Hsome, Hparse.
    apply Nat.eqb_neq in Hlen. rewrite Hlen. reflexivity.
Qed.

(** X12.  What an unmount leaves behind.  The clean-up saves the game
    state of the first render, not the current one: whatever the game state
    is when the component unmounts, the item under ['particleGame'] is the
    text of the initial state of that hook, and the next mount starts from
    it. *)
Theorem unmount_saves_the_first_render now canvas s :
  JSON_parse (JSON_stringify (initialGameState now)) = Some (initialGameState now) ->
  (0 < String.length (JSON_stringify (initialGameState now))
   <= quota (localStorage s))%nat ->
  exists s1,
    unmount JSON_stringify now (Some canvas) s = Ok tt s1
    /\ getItem storageKey (localStorage s1)
       = Some (JSON_stringify (initialGameState now))
    /\ gameStateCell s1 = gameStateCell s
    /\ forall now' canvas',
         exists s2,
           mount random JSON_parse opts now' (Some canvas')
             (initialState now' (localStorage s1)) = Ok tt s2
           /\ gameStateCell s2 = initialGameState now.
Proof.
  intros Hcodec [Hlen Hq]. unfold unmount, firstRender.
  destruct (saveGameState_run JSON_stringify (initialGameState now) s Hq)
    as (s1 & Hsave & Hitem & Hg & _).
  exists s1. split; [exact Hsave|]. split; [exact Hitem|].
  split; [exact Hg|]. intros now' canvas'.
  destruct (mount_run now' canvas' (localStorage s1))
    as (s2 & Hm & _ & _ & Hg2).
  exists s2. split; [exact Hm|]. rewrite Hg2, Hitem.
  destruct (Nat.eqb_spec (String.length (JSON_stringify (initialGameState now))) 0)
    as [E|_]; [lia|].
  rewrite Hcodec. reflexivity.
Qed.

End LifecycleProperties.

Lemma refused_save_keeps_the_previous_one_witness :
  exists s1 s2,
    Game.saveGameState Game.stringify exampleGameState
      (Game.initialState 0 crampedStorage) = Ok tt s1
    /\ Game.saveGameState Game.stringify (Game.initialGameState firstFrameTime) s1
       = Ok tt s1
    /\ Game.loadGameState Game.parse s1 = Ok tt s2
    /\ Game.gameStateCell s2 = exampleGameState.
Proof.
  apply (refused_save_keeps_the_previous_one Game.stringify Game.parse
           exampleGameState (Game.initialGameState firstFrameTime)
           (Game.initialState 0 crampedStorage)).
  - vm_compute. reflexivity.
  - vm_compute. lia.
  - vm_compute. lia.
Defined.

Lemma saveGameState_overwrites_one_key_witness :
  exists s1 s2,
    Game.saveGameState Game.stringify exampleGameState populatedState = Ok tt s1
    /\ Game.saveGameState Game.stringify wealthyGameState s1 = Ok tt s2
    /\ Game.getItem Game.storageKey (Game.localStorage s2)
       = Some (Game.stringify wealthyGameState)
    /\ (forall k, k <> Game.storageKey ->
          Game.getItem k (Game.localStorage s2)
          = Game.getItem k (Game.localStorage populatedState))
    /\ Game.gameStateCell s2 = Game.gameStateCell populatedState
    /\ Game.particles s2 = Game.particles populatedState.
Proof.
  apply (saveGameState_overwrites_one_key Game.stringify
           exampleGameState wealthyGameState populatedState).
  - vm_compute. lia.
  - vm_compute. lia.
Defined.

Lemma unmount_saves_the_first_render_witness :
  exists s1,
    Lifecycle.unmount Game.stringify 0 (Some exampleCanvas) wealthyState
    = Ok tt s1
    /\ Game.getItem Game.storageKey (Game.localStorage s1)
       = Some (Game.stringify (Game.initialGameState 0))
    /\ Game.gameStateCell s1 = Game.gameStateCell wealthyState
    /\ forall now' canvas',
         exists s2,
           Lifecycle.mount exampleRandom Game.parse canvasOptions now'
             (Some canvas') (Game.initialState now' (Game.localStorage s1))
           = Ok tt s2
           /\ Game.gameStateCell s2 = Game.initialGameState 0.
Proof.
  apply (unmount_saves_the_first_render exampleRandom Game.stringify Game.parse
           canvasOptions 0 exampleCanvas wealthyState).
  - vm_compute. reflexivity.
  - vm_compute. lia.
Defined.
(** ** The frame of the plain variant, from start to end *)

Section SimpleFrameWhole.
Import Simple SimpleFrame.

Variable random : nat -> Q.
Variable sqrt : Q -> Q.
Variable opts : Options.

Lemma wrap_inside cs p :
  (0 <= width cs)%Q -> (0 <= height cs)%Q -> inside cs (wrap cs p).
Proof.
  intros Hw Hh. unfold inside, wrap.
  destruct (Js.ltb (x p) 0) eqn:E1; cbn [x y set_pos];
    [apply ltb_lt in E1 | apply ltb_ge in E1].
  - destruct (Js.ltb (width cs) (width cs)) eqn:E2;
      [apply ltb_lt in E2; lra|]. cbn [x y set_pos].
    destruct (Js.ltb (y p) 0) eqn:E3; cbn [x y set_pos];
      [apply ltb_lt in E3 | apply ltb_ge in E3].
    + destruct (Js.ltb (height cs) (height cs)) eqn:E4;
        [apply ltb_lt in E4; lra|]. cbn [x y set_pos]. lra.
    + destruct (Js.ltb (height cs) (y p)) eqn:E4; cbn [x y set_pos];
        [apply ltb_lt in E4 | apply ltb_ge in E4]; lra.
  - destruct (Js.ltb (width cs) (x p)) eqn:E2; cbn [x y set_pos];
      [apply ltb_lt in E2 | apply ltb_ge in E2];
      (destruct (Js.ltb (y p) 0) eqn:E3; cbn [x y set_pos];
       [apply ltb_lt in E3 | apply ltb_ge in E3];
       [destruct (Js.ltb (height cs) (height cs)) eqn:E4;
          [apply ltb_lt in E4; lra|]; cbn [x y set_pos]; lra
       |destruct (Js.ltb (height cs) (y p)) eqn:E4; cbn [x y set_pos];
          [apply ltb_lt in E4 | apply ltb_ge in E4]; lra]).
Qed.

Lemma simple_times_burst_app i n : forall s,
  (i < length (particles s))%nat ->
  exists s' bs,
    times n (q ← particleAt i; b ← burst random q; push b) s = Ok tt s'
    /\ particles s' = particles s ++ bs
    /\ length bs = n
    /\ score s' = score s.
Proof.
  induction n as [|n IH]; intros s Hi.
  - exists s, []. rewrite app_nil_r. auto.
  - destruct (lookup_lt_is_Some_2 _ _ Hi) as [q Hq].
    cbn [times].
    erewrite bind_Ok
      by (erewrite bind_Ok by (unfold particleAt; rewrite Hq; reflexivity);
          erewrite bind_Ok by reflexivity; reflexivity).
    match goal with |- context [times n _ ?s1] =>
      destruct (IH s1) as (s' & bs & Hrun & Hps & Hlen & Hsc);
        [destruct s; cbn in *; rewrite length_app; lia|]
    end.
    exists s', (burstLiteral q (random (randomCalls s))
                  (random (1 + randomCalls s)) (random (2 + randomCalls s))
                  (random (3 + randomCalls s)) (random (4 + randomCalls s))
                :: bs).
    split; [exact Hrun|].
    rewrite Hps, Hsc. destruct s; cbn. rewrite <- app_assoc.
    split; [reflexivity|]. split; [rewrite Hlen; reflexivity | reflexivity].
Qed.

Lemma alter_alter_app {A} (f g : A -> A) i (l bs : list A) :
  (i < length l)%nat ->
  alter f i (alter g i l ++ bs) = alter (f ∘ g) i l ++ bs.
Proof.
  intros Hi. rewrite alter_app_l by (rewrite length_alter; exact Hi).
  rewrite list_alter_alter_eq. reflexivity.
Qed.

(** "Apply mouse interaction" changes [particles[i]] in place and pushes
    ten bursts if it collects it. *)
Lemma simple_mouseInteraction_run inp i s p :
  particles s !! i = Some p ->
  exists s' g bs n,
    mouseInteraction random sqrt opts inp i s = Ok tt s'
    /\ particles s' = alter g i (particles s) ++ bs
    /\ length bs = (10 * n)%nat
    /\ score s' = score s + Z.of_nat n
    /\ (n <= 1)%nat
    /\ (forall mx my,
          mousePos inp = Some (mx, my) -> Js.truthy (isTarget p) = true ->
          Js.ltb (distance sqrt (x p - mx) (y p - my)) 30 = true -> n = 1%nat).
Proof.
  intros Hp. pose proof (lookup_lt_Some _ _ _ Hp) as Hi.
  unfold mouseInteraction. destruct (mousePos inp) as [[mx my]|].
  2:{ exists s, id, [], 0%nat. rewrite list_alter_id, app_nil_r by auto.
      split_and!; try reflexivity; try lia. intros mx my H. discriminate H. }
  erewrite bind_Ok by (unfold particleAt; rewrite Hp; reflexivity).
  set (repel := when _ (update i _)).
  assert (Hrepel : forall s1 g bs,
             particles s1 = alter g i (particles s) ++ bs ->
             exists s' g',
               repel s1 = Ok tt s'
               /\ particles s' = alter g' i (particles s) ++ bs
               /\ score s' = score s1).
  { intros s1 g bs H1. unfold repel, when.
    destruct (Js.ltb _ _).
    - eexists. eexists. split; [reflexivity|].
      split; [|destruct s1; reflexivity].
      replace (particles (with_particles _ s1))
        with (alter (fun p0 : Particle =>
                set_vel
                  (vx p0 + direction (x p - mx) (distance sqrt (x p - mx) (y p - my))
                         * ((opt_interactionRadius opts
                             - distance sqrt (x p - mx) (y p - my))
                            / opt_interactionRadius opts)
                         * opt_repulsionStrength opts)
                  (vy p0 + direction (y p - my) (distance sqrt (x p - mx) (y p - my))
                         * ((opt_interactionRadius opts
                             - distance sqrt (x p - mx) (y p - my))
                            / opt_interactionRadius opts)
                         * opt_repulsionStrength opts) p0) i (particles s1))
        by (destruct s1; reflexivity).
      rewrite H1. apply alter_alter_app. exact Hi.
    - exists s1, g. auto. }
  destruct (Js.truthy (isTarget p) && Js.ltb _ 30) eqn:Hc; cbn [when].
  - assert (Hblock : exists s1 bs,
              (modify (with_score (fun n => n + 1));;
               update i (set_isTarget false);;
               modify (with_targetCollectedTime (now inp));;
               times 10 (q ← particleAt i; b ← burst random q; push b)) s
              = Ok tt s1
              /\ particles s1
                 = alter (set_isTarget false) i (particles s) ++ bs
              /\ length bs = 10%nat
              /\ score s1 = score s + 1).
    { erewrite bind_Ok by reflexivity. erewrite bind_Ok by reflexivity.
      erewrite bind_Ok by reflexivity.
      match goal with |- context [times 10 _ ?s0] =>
        destruct (simple_times_burst_app i 10 s0)
          as (s1 & bs & H1 & Hps & Hlen & Hsc);
          [destruct s; cbn in *; rewrite length_alter; exact Hi|]
      end.
      exists s1, bs. split; [exact H1|]. rewrite Hps, Hsc.
      destruct s; auto. }
    destruct Hblock as (s1 & bs & H1 & Hps & Hlen & Hsc).
    erewrite bind_Ok by exact H1.
    destruct (Hrepel s1 (set_isTarget false) bs) as (s' & g' & H2 & Hps' & Hsc');
      [exact Hps|].
    exists s', g', bs, 1%nat. split; [exact H2|]. split; [exact Hps'|].
    split; [rewrite Hlen; reflexivity|]. split; [|split; [lia | auto]].
    rewrite Hsc', Hsc. reflexivity.
  - erewrite bind_Ok by reflexivity.
    destruct (Hrepel s id []) as (s' & g' & H2 & Hps' & Hsc');
      [rewrite list_alter_id, app_nil_r by auto; reflexivity|].
    exists s', g', [], 0%nat. split; [exact H2|]. split; [exact Hps'|].
    split; [reflexivity|]. split; [rewrite Hsc'; lia|]. split; [lia|].
    intros mx' my' Hm Ht Hd. injection Hm as <- <-.
    rewrite Ht, Hd in Hc. discriminate Hc.
Qed.

(** Every round of the loop returns and is a [Round]. *)
Lemma simple_updateParticle_round inp i s :
  (i < length (particles s))%nat ->
  exists s' n,
    updateParticle random sqrt opts inp i s = Ok tt s'
    /\ Round (canvasSize inp) i n s s'
    /\ (forall p mx my,
          particles s !! i = Some p ->
          mousePos inp = Some (mx, my) -> Js.truthy (isTarget p) = true ->
          Js.ltb (distance sqrt (x p - mx) (y p - my)) 30 = true -> n = 1%nat).
Proof.
  intros Hi. destruct (lookup_lt_is_Some_2 _ _ Hi) as [p Hp].
  destruct (simple_mouseInteraction_run inp i s p Hp)
    as (s1 & g & bs & n & H1 & Hps & Hlen & Hsc & Hn & Hone).
  unfold updateParticle. erewrite bind_Ok by exact H1.
  erewrite bind_Ok by reflexivity.
  eexists. exists n. split; [reflexivity|].
  split; [|intros p' mx my Hp'; assert (p' = p) as -> by congruence;
           apply Hone].
  exists (g p), bs. split; [|split; [exact Hlen | split; [|exact Hn]]].
  - replace (particles (with_particles (alter (wrap (canvasSize inp)) i)
                         (with_particles (alter integrate i) s1)))
      with (alter (wrap (canvasSize inp)) i
              (alter integrate i (particles s1)))
      by (destruct s1; reflexivity).
    rewrite Hps, alter_alter_app by exact Hi.
    rewrite alter_app_l by (rewrite length_alter; exact Hi).
    rewrite list_alter_alter_eq.
    rewrite (alter_as_insert _ _ _ p Hp). reflexivity.
  - rewrite <- Hsc. destruct s1; reflexivity.
Qed.

Lemma simple_Round_inside cs i n s s' :
  (0 <= width cs)%Q -> (0 <= height cs)%Q ->
  SimpleFrame.Round cs i n s s' -> (i < length (particles s))%nat ->
  (forall k p, (k < i)%nat -> particles s !! k = Some p -> inside cs p) ->
  forall k p, (k < S i)%nat -> particles s' !! k = Some p -> inside cs p.
Proof.
  intros Hw Hh (q & bs & Hps & _) Hi Hin k p Hk. rewrite Hps.
  rewrite lookup_app_l by (rewrite length_insert; lia).
  destruct (decide (k = i)) as [->|Hne].
  - rewrite list_lookup_insert_eq by exact Hi. intros [= <-].
    apply wrap_inside; assumption.
  - rewrite list_lookup_insert_ne by congruence. apply Hin. lia.
Qed.

(** The loop: [n] collections in all. *)
Lemma simple_updateLoop_counts inp fuel : forall i s s',
  updateLoop random sqrt opts fuel inp i s = Ok tt s' ->
  exists n,
    length (particles s') = (length (particles s) + 10 * n)%nat
    /\ score s' = score s + Z.of_nat n.
Proof.
  induction fuel as [|fuel IH]; intros i s s' H; [discriminate H|].
  cbn [updateLoop] in H. erewrite bind_Ok in H by reflexivity.
  destruct (Nat.ltb_spec i (length (particles s))) as [Hlt|Hge].
  - destruct (simple_updateParticle_round inp i s Hlt)
      as (s1 & n1 & H1 & (q & bs & Hps & Hbs & Hsc1 & _) & _).
    erewrite bind_Ok in H by exact H1.
    destruct (IH (S i) s1 s' H) as (n & L & S).
    exists (n1 + n)%nat. rewrite L, S, Hps, length_app, length_insert. lia.
  - injection H as <-. exists 0%nat. lia.
Qed.

(** The loop leaves every particle it has visited inside the canvas, and
    it visits them all. *)
Lemma simple_updateLoop_inside inp fuel : forall i s s',
  (0 <= width (canvasSize inp))%Q -> (0 <= height (canvasSize inp))%Q ->
  updateLoop random sqrt opts fuel inp i s = Ok tt s' ->
  (forall k p, (k < i)%nat -> particles s !! k = Some p ->
               inside (canvasSize inp) p) ->
  forall k p, particles s' !! k = Some p -> inside (canvasSize inp) p.
Proof.
  induction fuel as [|fuel IH]; intros i s s' Hw Hh H Hin; [discriminate H|].
  cbn [updateLoop] in H. erewrite bind_Ok in H by reflexivity.
  destruct (Nat.ltb_spec i (length (particles s))) as [Hlt|Hge].
  - destruct (simple_updateParticle_round inp i s Hlt)
      as (s1 & n1 & H1 & Hr & _).
    erewrite bind_Ok in H by exact H1.
    apply (IH (S i) s1 s' Hw Hh H).
    apply (simple_Round_inside _ i n1 s s1 Hw Hh Hr Hlt Hin).
  - injection H as <-. intros k p Hp. apply (Hin k p); [|exact Hp].
    apply lookup_lt_Some in Hp. lia.
Qed.

Lemma simple_noteInteraction_keeps inp s s' :
  noteInteraction inp s = Ok tt s' ->
  particles s' = particles s /\ score s' = score s.
Proof.
  unfold noteInteraction, when.
  destruct (interacting inp); [|intros H; injection H as <-; auto].
  erewrite bind_Ok by reflexivity.
  destruct (interactionStartTime s =? 0);
    (erewrite bind_Ok by reflexivity); (erewrite bind_Ok by reflexivity);
    cbn [interactionStartTime with_interactionStartTime];
    repeat match goal with
           | |- context [if ?b then _ else _] => destruct b
           end;
    intros H; injection H as <-; destruct s; auto.
Qed.

Lemma simple_replenish_keeps s s' :
  replenish random opts s = Ok tt s' ->
  length (particles s') = length (particles s) /\ score s' = score s.
Proof.
  unfold replenish. erewrite bind_Ok by reflexivity.
  destruct (targetCount (particles s) <? 3)%nat;
    [|intros H; injection H as <-; auto].
  erewrite bind_Ok by reflexivity.
  destruct (Js.ltb _ _);
    [|intros H; injection H as <-; destruct s; auto].
  erewrite bind_Ok by reflexivity. erewrite bind_Ok by reflexivity.
  destruct (_ <? 0); [discriminate|].
  intros H. apply bind_inv in H as (p & s3 & Hp & H).
  unfold particleAt in Hp. destruct (_ !! _); [|discriminate].
  injection Hp as _ <-. unfold when in H.
  destruct (negb _); injection H as <-; destruct s; cbn;
    rewrite ?length_alter; auto.
Qed.

(** A frame of the plain variant over a non-empty array, step by step. *)
Lemma simple_frame_run inp s :
  (forall n, (0 <= random n)%Q /\ (random n < 1)%Q) ->
  (0 < length (particles s))%nat ->
  exists s' ps n,
    updateParticles random sqrt opts inp s = Ok tt s'
    /\ particles s' = cleanup opts ps
    /\ length ps = (length (particles s) + 10 * n)%nat
    /\ score s' = score s + Z.of_nat n
    /\ ((0 <= width (canvasSize inp))%Q -> (0 <= height (canvasSize inp))%Q ->
        forall k p, ps !! k = Some p -> inside (canvasSize inp) p).
Proof.
  intros Hr Hlen.
  destruct (simple_noteInteraction_returns inp s) as (s0 & H0 & _).
  pose proof (simple_noteInteraction_keeps inp s s0 H0) as [Hp0 Hs0].
  destruct (simple_replenish_returns random opts s0 Hr) as (s1 & H1 & _);
    [rewrite Hp0; exact Hlen|].
  pose proof (simple_replenish_keeps s0 s1 H1) as [Hl1 Hs1].
  destruct (simple_updateLoop_returns random sqrt opts inp
              (frameFuel (particles s1)) 0 s1) as (s2 & H2);
    [lia | unfold frameFuel, workLeft; lia|].
  destruct (simple_updateLoop_counts inp _ 0 s1 s2 H2) as (n & L & S).
  exists (with_particles (cleanup opts) s2), (particles s2), n.
  split; [|split; [destruct s2; reflexivity | split; [|split]]].
  - unfold updateParticles. erewrite bind_Ok by exact H0.
    erewrite bind_Ok by exact H1. erewrite bind_Ok by reflexivity.
    erewrite bind_Ok by exact H2. reflexivity.
  - rewrite L, Hl1, Hp0. reflexivity.
  - replace (score (with_particles (cleanup opts) s2)) with (score s2)
      by (destruct s2; reflexivity).
    rewrite S, Hs1, Hs0. reflexivity.
  - intros Hw Hh. apply (simple_updateLoop_inside inp _ 0 s1 s2 Hw Hh H2).
    intros k p Hk. lia.
Qed.

(** X13.  A frame of the plain variant that starts on a non-empty array
    returns; with [n] the number of targets it collected, the score has
    grown by exactly [n], and the array holds its particles and ten bursts
    for each collection if those are at most [1.5 * maxParticles], and
    exactly [maxParticles] particles otherwise. *)
Theorem simple_frame_scores_and_trims inp s :
  (forall n, (0 <= random n)%Q /\ (random n < 1)%Q) ->
  (0 < length (particles s))%nat ->
  0 <= opt_maxParticles opts ->
  exists s' n,
    updateParticles random sqrt opts inp s = Ok tt s'
    /\ score s' = score s + Z.of_nat n
    /\ let grown := (length (particles s) + 10 * n)%nat in
       ((inject_Z (Z.of_nat grown) <= inject_Z (opt_maxParticles opts) * 1.5)%Q ->
          length (particles s') = grown)
       /\ ((inject_Z (opt_maxParticles opts) * 1.5 < inject_Z (Z.of_nat grown))%Q ->
          length (particles s') = Z.to_nat (opt_maxParticles opts)).
Proof.
  intros Hr Hlen Hmax.
  destruct (simple_frame_run inp s Hr Hlen)
    as (s' & ps & n & Hrun & Hps & L & S & _).
  exists s', n. split; [exact Hrun|]. split; [exact S|]. cbn zeta.
  rewrite Hps.
  destruct (simple_cleanup_cases opts ps Hmax) as [C1 C2].
  rewrite L in C1, C2. split.
  - intros Hle. rewrite (C2 Hle). exact L.
  - intros Hlt. rewrite (C1 Hlt). rewrite length_take.
    assert (Hm : (inject_Z (opt_maxParticles opts)
                  <= inject_Z (opt_maxParticles opts) * 1.5)%Q).
    { pose proof (inject_Z_nonneg _ Hmax). lra. }
    assert (opt_maxParticles opts
            < Z.of_nat (length (particles s) + 10 * n)).
    { rewrite Zlt_Qlt. eapply Qle_lt_trans; eassumption. }
    rewrite L. lia.
Qed.

(** X14.  A frame of the plain variant that starts on a non-empty array, on
    a canvas of non-negative width and height, returns with every particle
    of the array inside the canvas (edges included): a particle that left
    through an edge has been put on the opposite one. *)
Theorem simple_frame_ends_inside_canvas inp s :
  (forall n, (0 <= random n)%Q /\ (random n < 1)%Q) ->
  (0 < length (particles s))%nat ->
  (0 <= width (canvasSize inp))%Q -> (0 <= height (canvasSize inp))%Q ->
  exists s',
    updateParticles random sqrt opts inp s = Ok tt s'
    /\ forall k p, particles s' !! k = Some p ->
         (0 <= x p <= width (canvasSize inp))%Q
         /\ (0 <= y p <= height (canvasSize inp))%Q.
Proof.
  intros Hr Hlen Hw Hh.
  destruct (simple_frame_run inp s Hr Hlen)
    as (s' & ps & n & Hrun & Hps & _ & _ & Hall).
  specialize (Hall Hw Hh).
  exists s'. split; [exact Hrun|]. rewrite Hps.
  intros k p Hp. unfold cleanup in Hp.
  destruct (Js.ltb _ _); [|apply (Hall k p Hp)].
  unfold Js.splice in Hp. apply lookup_app_Some in Hp as [Hp | [_ Hp]].
  - apply lookup_take_Some in Hp as [Hp _]. apply (Hall k p Hp).
  - rewrite lookup_drop in Hp. apply (Hall _ p Hp).
Qed.

(** The replenishment leaves a target as it is. *)
Lemma simple_replenish_keeps_target k p s s' :
  replenish random opts s = Ok tt s' ->
  particles s !! k = Some p -> Js.truthy (isTarget p) = true ->
  particles s' !! k = Some p.
Proof.
  unfold replenish. erewrite bind_Ok by reflexivity.
  destruct (targetCount (particles s) <? 3)%nat;
    [|intros H; injection H as <-; auto].
  erewrite bind_Ok by reflexivity.
  destruct (Js.ltb _ _);
    [|intros H; injection H as <-; destruct s; auto].
  erewrite bind_Ok by reflexivity. erewrite bind_Ok by reflexivity.
  replace (particles (with_randomCalls _ (with_randomCalls _ s)))
    with (particles s) by (destruct s; reflexivity).
  set (j := Js.floor _).
  destruct (j <? 0); [discriminate|].
  intros H Hk Ht. apply bind_inv in H as (q & s3 & Hq & H).
  unfold particleAt in Hq.
  replace (particles (with_randomCalls _ (with_randomCalls _ s)))
    with (particles s) in Hq by (destruct s; reflexivity).
  destruct (particles s !! Z.to_nat j) as [q'|] eqn:Ej; [|discriminate].
  injection Hq as -> <-. unfold when in H.
  destruct (Js.truthy (isTarget q)) eqn:Eq; cbn [negb] in H;
    injection H as <-; [destruct s; exact Hk|].
  replace (particles (with_particles _ (with_randomCalls _ (with_randomCalls _ s))))
    with (alter (set_isTarget true) (Z.to_nat j) (particles s))
    by (destruct s; reflexivity).
  rewrite list_lookup_alter_ne; [exact Hk|]. congruence.
Qed.

Lemma simple_updateLoop_under_pointer inp k p z mx my fuel :
  mousePos inp = Some (mx, my) -> Js.truthy (isTarget p) = true ->
  Js.ltb (distance sqrt (x p - mx) (y p - my)) 30 = true ->
  forall i s s',
    updateLoop random sqrt opts fuel inp i s = Ok tt s' ->
    ((i <= k)%nat -> particles s !! k = Some p /\ z <= score s) ->
    ((k < i)%nat -> z + 1 <= score s) ->
    z + 1 <= score s'.
Proof.
  intros Hm Ht Hd. induction fuel as [|fuel IH]; intros i s s' H HP HC;
    [discriminate H|].
  cbn [updateLoop] in H. erewrite bind_Ok in H by reflexivity.
  destruct (Nat.ltb_spec i (length (particles s))) as [Hlt|Hge].
  - destruct (simple_updateParticle_round inp i s Hlt)
      as (s1 & n & H1 & (q & bs & Hps & _ & Hsc & _) & Hone).
    erewrite bind_Ok in H by exact H1.
    apply (IH (S i) s1 s' H).
    + intros Hi. destruct HP as [Hk Hz]; [lia|]. split; [|lia].
      rewrite Hps. rewrite lookup_app_l
        by (rewrite length_insert; apply lookup_lt_Some in Hk; exact Hk).
      rewrite list_lookup_insert_ne by lia. exact Hk.
    + intros Hi. destruct (decide (i = k)) as [->|Hne].
      * destruct HP as [Hk Hz]; [lia|].
        rewrite (Hone p mx my Hk Hm Ht Hd) in Hsc. lia.
      * assert (z + 1 <= score s) by (apply HC; lia). lia.
  - injection H as <-. apply HC.
    destruct (Nat.le_gt_cases i k) as [Hik|Hki]; [|exact Hki].
    destruct (HP Hik) as [Hk _]. apply lookup_lt_Some in Hk. lia.
Qed.

(** X22.  The frame of the plain variant collects the target under the
    pointer.  If the array holds a target within 30 units of the pointer
    when a frame starts, the frame returns and the score has grown by at
    least one. *)
Theorem simple_frame_collects_the_target_under_the_pointer inp s k p mx my :
  (forall n, (0 <= random n)%Q /\ (random n < 1)%Q) ->
  mousePos inp = Some (mx, my) ->
  particles s !! k = Some p -> Js.truthy (isTarget p) = true ->
  Js.ltb (distance sqrt (x p - mx) (y p - my)) 30 = true ->
  exists s',
    updateParticles random sqrt opts inp s = Ok tt s'
    /\ score s + 1 <= score s'.
Proof.
  intros Hr Hm Hk Ht Hd.
  assert (Hlen : (0 < length (particles s))%nat)
    by (apply lookup_lt_Some in Hk; lia).
  destruct (simple_noteInteraction_returns inp s) as (s0 & H0 & _).
  pose proof (simple_noteInteraction_keeps inp s s0 H0) as [Hp0 Hs0].
  destruct (simple_replenish_returns random opts s0 Hr) as (s1 & H1 & _);
    [rewrite Hp0; exact Hlen|].
  pose proof (simple_replenish_keeps s0 s1 H1) as [Hl1 Hs1].
  assert (Hk1 : particles s1 !! k = Some p).
  { apply (simple_replenish_keeps_target k p s0 s1 H1); [|exact Ht].
    rewrite Hp0. exact Hk. }
  destruct (simple_updateLoop_returns random sqrt opts inp
              (frameFuel (particles s1)) 0 s1) as (s2 & H2);
    [lia | unfold frameFuel, workLeft; lia|].
  exists (with_particles (cleanup opts) s2). split.
  - unfold updateParticles. erewrite bind_Ok by exact H0.
    erewrite bind_Ok by exact H1. erewrite bind_Ok by reflexivity.
    erewrite bind_Ok by exact H2. reflexivity.
  - replace (score (with_particles (cleanup opts) s2)) with (score s2)
      by (destruct s2; reflexivity).
    apply (simple_updateLoop_under_pointer inp k p (score s) mx my _ Hm Ht Hd
             0 s1 s2 H2); [|lia].
    intros _. split; [exact Hk1 | lia].
Qed.

End SimpleFrameWhole.

Lemma simple_frame_scores_and_trims_witness :
  exists s' n,
    Simple.updateParticles exampleRandom Js.sqrt6 canvasOptions (idleInputs 16)
      simpleEdgeState = Ok tt s'
    /\ Simple.score s' = Simple.score simpleEdgeState + Z.of_nat n
    /\ let grown := (length (Simple.particles simpleEdgeState) + 10 * n)%nat in
       ((inject_Z (Z.of_nat grown)
         <= inject_Z (opt_maxParticles canvasOptions) * 1.5)%Q ->
          length (Simple.particles s') = grown)
       /\ ((inject_Z (opt_maxParticles canvasOptions) * 1.5
            < inject_Z (Z.of_nat grown))%Q ->
          length (Simple.particles s')
          = Z.to_nat (opt_maxParticles canvasOptions)).
Proof.
  apply (simple_frame_scores_and_trims exampleRandom Js.sqrt6 canvasOptions
           (idleInputs 16) simpleEdgeState).
  - exact exampleRandom_unit.
  - vm_compute. lia.
  - vm_compute. discriminate.
Defined.

Lemma simple_frame_ends_inside_canvas_witness :
  exists s',
    Simple.updateParticles exampleRandom Js.sqrt6 canvasOptions (idleInputs 16)
      simpleEdgeState = Ok tt s'
    /\ forall k p, Simple.particles s' !! k = Some p ->
         (0 <= Simple.x p <= width (canvasSize (idleInputs 16)))%Q
         /\ (0 <= Simple.y p <= height (canvasSize (idleInputs 16)))%Q.
Proof.
  apply (simple_frame_ends_inside_canvas exampleRandom Js.sqrt6 canvasOptions
           (idleInputs 16) simpleEdgeState).
  - exact exampleRandom_unit.
  - vm_compute. lia.
  - vm_compute. discriminate.
  - vm_compute. discriminate.
Defined.

Lemma simple_frame_collects_the_target_under_the_pointer_witness :
  exists s',
    Simple.updateParticles exampleRandom Js.sqrt6 canvasOptions
      (pointerInputs firstFrameTime) simpleTargetState = Ok tt s'
    /\ Simple.score simpleTargetState + 1 <= Simple.score s'.
Proof.
  apply (simple_frame_collects_the_target_under_the_pointer exampleRandom
           Js.sqrt6 canvasOptions (pointerInputs firstFrameTime)
           simpleTargetState 0 simpleTargetParticle 405 300).
  - exact exampleRandom_unit.
  - reflexivity.
  - reflexivity.
  - reflexivity.
  - vm_compute. reflexivity.
Defined.
(** ** The animation callback *)

Section AnimateProperties.
Import Game GameFrame Lifecycle.

Variable random : nat -> Q.
Variable sqrt : Q -> Q.
Variable opts : Options.

(** With a step of length zero, the integration and the containment leave
    a particle inside the canvas where it is. *)
Lemma move_still cs nd p q :
  (nd == 0)%Q -> inside cs p ->
  (x q == x p)%Q /\ (y q == y p)%Q ->
  (x (contain cs (integrate nd q)) == x p)%Q
  /\ (y (contain cs (integrate nd q)) == y p)%Q.
Proof.
  intros Hnd [[Hx0 Hx1] [Hy0 Hy1]] [Hx Hy].
  set (r := integrate nd q).
  assert (Hrx : (x r == x p)%Q).
  { unfold r, integrate. cbn [x set_x set_y set_vx set_vy].
    rewrite Hnd, Hx. ring. }
  assert (Hry : (y r == y p)%Q).
  { unfold r, integrate. cbn [y x vy set_x set_y set_vx set_vy].
    rewrite Hnd, Hy. ring. }
  destruct (contain_x cs r) as (_ & _ & Cx).
  destruct (contain_y cs r) as (_ & _ & Cy).
  destruct Cx as [-> _]; [rewrite Hrx; exact Hx0 | rewrite Hrx; exact Hx1|].
  destruct Cy as [-> _]; [rewrite Hry; exact Hy0 | rewrite Hry; exact Hy1|].
  auto.
Qed.

(** X15.  The animation callback.  Without a canvas or a 2d context it
    notes the time, leaves the state alone and requests no further frame.
    On its first call ([lastTimeRef] still 0) the step it hands to the
    frame is zero: the frame runs and requests the next one, and a
    particle that was inside the canvas is where it was. *)
Theorem animate_first_call_moves_nothing
    now canvas ctx inp lastTime time s k p :
  (forall n, (0 <= random n)%Q /\ (random n < 1)%Q) ->
  (lastTime == 0)%Q ->
  particles s !! k = Some p ->
  (0 <= x p <= width (canvasSize inp))%Q ->
  (0 <= y p <= height (canvasSize inp))%Q ->
  animate random sqrt opts now None ctx inp lastTime time s
  = Ok (time, false) s
  /\ animate random sqrt opts now (Some canvas) false inp lastTime time s
     = Ok (time, false) s
  /\ exists s' p',
       animate random sqrt opts now (Some canvas) true inp lastTime time s
       = Ok (time, true) s'
       /\ particles s' !! k = Some p'
       /\ (x p' == x p)%Q /\ (y p' == y p)%Q.
Proof.
  intros Hr Hlast Hk Hx Hy. split; [reflexivity|]. split; [reflexivity|].
  unfold animate. cbn [negb].
  apply Qeq_bool_iff in Hlast. rewrite Hlast.
  set (delta := (time - time)%Q).
  assert (Hlen : (0 < length (particles s))%nat)
    by (apply lookup_lt_Some in Hk; lia).
  destruct (updateParticles_total random sqrt opts (firstRender now) inp delta
              s Hr Hlen) as (s' & Hrun & _).
  pose proof (updateParticles_frame random sqrt opts _ inp delta s s' Hrun)
    as Hf.
  assert (Hnd : (Js.min delta 32 / 16 == 0)%Q).
  { unfold Js.min. destruct (Js.ltb 32 delta) eqn:E.
    - apply ltb_lt in E. unfold delta in E. exfalso.
      assert (time - time == 0)%Q by ring. rewrite H in E.
      apply (Qlt_irrefl 0). eapply Qlt_trans; [|exact E]. reflexivity.
    - unfold delta. field. }
  destruct (Frame_tracks (Js.min delta 32 / 16) (canvasSize inp)
              (fun q => (x q == x p)%Q /\ (y q == y p)%Q))
    with (k := k) (s := s) (s' := s') (p := p) as (p' & Hk' & HP);
    try assumption.
  - intros f q Hn HP. destruct (Hn q) as (-> & -> & _). exact HP.
  - intros q _ HP. exact HP.
  - intros q _ _ HP. exact HP.
  - intros q HP. apply move_still; [exact Hnd | split; assumption | exact HP].
  - split; reflexivity.
  - exists s', p'. split; [|split; [exact Hk' | exact HP]].
    erewrite bind_Ok by exact Hrun. reflexivity.
Qed.

End AnimateProperties.

Lemma animate_first_call_moves_nothing_witness :
  let p := Game.freshParticle exampleRandom (Game.initialGameState 0)
             exampleCanvas 8 1 in
  let inp := idleInputs 16 in
  Lifecycle.animate exampleRandom Js.sqrt6 canvasOptions 0 None true inp 0 5000
    populatedState
  = Ok (5000%Q, false) populatedState
  /\ Lifecycle.animate exampleRandom Js.sqrt6 canvasOptions 0
       (Some exampleCanvas) false inp 0 5000 populatedState
     = Ok (5000%Q, false) populatedState
  /\ exists s' p',
       Lifecycle.animate exampleRandom Js.sqrt6 canvasOptions 0
         (Some exampleCanvas) true inp 0 5000 populatedState
       = Ok (5000%Q, true) s'
       /\ Game.particles s' !! 1%nat = Some p'
       /\ (Game.x p' == Game.x p)%Q /\ (Game.y p' == Game.y p)%Q.
Proof.
  apply (animate_first_call_moves_nothing exampleRandom Js.sqrt6 canvasOptions
           0 exampleCanvas true (idleInputs 16) 0 5000 populatedState 1
           (Game.freshParticle exampleRandom (Game.initialGameState 0)
              exampleCanvas 8 1)).
  - exact exampleRandom_unit.
  - reflexivity.
  - reflexivity.
  - vm_compute. split; discriminate.
  - vm_compute. split; discriminate.
Defined.
(** ** The display flags *)

Section GameUiProperties.
Import Game GameUi.

Variable random : nat -> Q.
Variable sqrt : Q -> Q.
Variable opts : Options.

Lemma Quiet_ret {A} (a : A) : Quiet (mret a).
Proof. intros s a' s' H. injection H as _ <-. auto. Qed.

Lemma Quiet_bind {A B} (m : M State A) (f : A -> M State B) :
  Quiet m -> (forall a, Quiet (f a)) -> Quiet (m ≫= f).
Proof.
  intros Hm Hf s b s' H. apply bind_inv in H as (a & s1 & H1 & H2).
  apply Hm in H1 as (A1 & A2 & A3 & A4).
  apply Hf in H2 as (B1 & B2 & B3 & B4).
  repeat split; congruence.
Qed.

Lemma Quiet_get : Quiet (get (S := State)).
Proof. intros s a s' H. injection H as _ <-. auto. Qed.

Lemma Quiet_modify (f : State -> State) :
  (forall s, showScore (f s) = showScore s /\ showHint (f s) = showHint s
             /\ interactionStartTime (f s) = interactionStartTime s
             /\ localStorage (f s) = localStorage s) ->
  Quiet (modify f).
Proof. intros Hf s a s' H. injection H as _ <-. apply Hf. Qed.

Lemma Quiet_when (b : bool) (m : M State unit) : Quiet m -> Quiet (when b m).
Proof. intros Hm. destruct b; [exact Hm | apply Quiet_ret]. Qed.

Lemma Quiet_draw : Quiet (draw random).
Proof. intros s a s' H. injection H as _ <-. destruct s; cbn. auto. Qed.

Lemma Quiet_particleAt i : Quiet (particleAt i).
Proof. intros s a s' H. apply particleAt_inv in H as [-> _]. auto. Qed.

Lemma Quiet_times n (m : M State unit) : Quiet m -> Quiet (times n m).
Proof.
  intros Hm. induction n; cbn [times]; [apply Quiet_ret|].
  apply Quiet_bind; [exact Hm | intros _; exact IHn].
Qed.

Ltac quiet :=
  repeat first
    [ match goal with H : context [Quiet] |- Quiet _ => simple apply H end
    | apply Quiet_ret | apply Quiet_get | apply Quiet_draw
    | apply Quiet_particleAt | apply Quiet_when | apply Quiet_times
    | apply Quiet_bind; [|intros ?]
    | apply Quiet_modify; intros []; cbn; auto
    | match goal with
      | |- Quiet (if ?b then _ else _) => destruct b
      | |- Quiet (match ?o with Some _ => _ | None => _ end) => destruct o
      | |- Quiet (match ?p with (_, _) => _ end) => destruct p
      | |- Quiet (match ?b with normal => _ | _ => _ end) => destruct b
      end ].

Lemma Quiet_collectTarget now index : Quiet (collectTarget random now index).
Proof. unfold collectTarget, burst, update, push. quiet. Qed.

Lemma Quiet_steer gameState now i : Quiet (steer random sqrt gameState now i).
Proof. unfold steer, changeDirection, jitter, update. quiet. Qed.

Lemma Quiet_autoCollect now i : Quiet (autoCollect random sqrt now i).
Proof. pose proof Quiet_collectTarget. unfold autoCollect. quiet. Qed.

Lemma Quiet_mouseInteraction gameState inp nd i :
  Quiet (mouseInteraction random sqrt opts gameState inp nd i).
Proof. pose proof Quiet_collectTarget. unfold mouseInteraction, update. quiet. Qed.

Lemma Quiet_updateLoop gameState inp nd fuel : forall i,
  Quiet (updateLoop random sqrt opts fuel gameState inp nd i).
Proof.
  induction fuel as [|fuel IH]; intros i; cbn [updateLoop].
  - intros s a s' H. discriminate H.
  - pose proof Quiet_steer. pose proof Quiet_autoCollect.
    pose proof Quiet_mouseInteraction. unfold updateParticle, update. quiet.
Qed.

Lemma Quiet_replenish gameState : Quiet (replenish random opts gameState).
Proof.
  unfold replenish, update, throw. quiet.
  intros s0 r s' H. discriminate H.
Qed.

Lemma noteInteraction_flags gameState inp s :
  let start := if interacting inp && (interactionStartTime s =? 0)
               then now inp else interactionStartTime s in
  exists s',
    noteInteraction gameState inp s = Ok tt s'
    /\ interactionStartTime s' = start
    /\ showScore s'
       = showScore s || (interacting inp && (1000 <? now inp - start))
    /\ showHint s'
       = showHint s && negb (interacting inp && (2000 <? now inp - start))
    /\ localStorage s' = localStorage s.
Proof.
  unfold noteInteraction, when.
  destruct (interacting inp); cbn [andb].
  2:{ exists s. rewrite orb_false_r, andb_true_r. auto. }
  erewrite bind_Ok by reflexivity.
  destruct (interactionStartTime s =? 0) eqn:E0;
    (erewrite bind_Ok by reflexivity);
    (destruct (negb (gameStarted gameState));
     (erewrite bind_Ok by reflexivity); (erewrite bind_Ok by reflexivity));
    cbn [interactionStartTime with_interactionStartTime setGameState];
    repeat match goal with
           | |- context [Z.ltb ?a ?b] => destruct (Z.ltb_spec a b)
           end;
    try (exfalso; lia);
    eexists; (split; [reflexivity|]); destruct s; cbn;
    rewrite ?orb_true_r, ?orb_false_r, ?andb_true_r, ?andb_false_r; auto.
Qed.

(** X16.  The display flags.  A frame of the game variant that starts on a
    non-empty array returns, and: the time the interaction started is set
    by the first frame that finds the pointer on the canvas (both
    coordinates non-zero) and kept afterwards; the score is shown from the
    first such frame that runs more than 1000 ms after that time, the hint
    is hidden from the first that runs more than 2000 ms after it; no frame
    hides the score again or shows the hint again, and no frame touches
    [localStorage]. *)
Theorem frame_reveals_score_and_hides_hint gameState inp delta s :
  (forall n, (0 <= random n)%Q /\ (random n < 1)%Q) ->
  (0 < length (particles s))%nat ->
  let start := if interacting inp && (interactionStartTime s =? 0)
               then now inp else interactionStartTime s in
  exists s',
    updateParticles random sqrt opts gameState inp delta s = Ok tt s'
    /\ interactionStartTime s' = start
    /\ showScore s'
       = showScore s || (interacting inp && (1000 <? now inp - start))
    /\ showHint s'
       = showHint s && negb (interacting inp && (2000 <? now inp - start))
    /\ localStorage s' = localStorage s.
Proof.
  intros Hr Hlen start.
  destruct (updateParticles_total random sqrt opts gameState inp delta s Hr Hlen)
    as (s' & Hrun & _).
  exists s'. split; [exact Hrun|].
  destruct (noteInteraction_flags gameState inp s)
    as (s0 & H0 & F1 & F2 & F3 & F4).
  unfold updateParticles in Hrun. erewrite bind_Ok in Hrun by exact H0.
  apply bind_inv in Hrun as ([] & s1 & H1 & Hrun).
  erewrite bind_Ok in Hrun by reflexivity.
  apply Quiet_replenish in H1 as (A1 & A2 & A3 & A4).
  apply Quiet_updateLoop in Hrun as (B1 & B2 & B3 & B4).
  fold start in F1, F2, F3.
  repeat split; congruence.
Qed.

End GameUiProperties.

Lemma frame_reveals_score_and_hides_hint_witness :
  let s := populatedState in
  let inp := idleInputs 16 in
  let start := if interacting inp && (Game.interactionStartTime s =? 0)
               then now inp else Game.interactionStartTime s in
  exists s',
    Game.updateParticles exampleRandom Js.sqrt6 canvasOptions
      (Game.initialGameState 0) inp 16 s = Ok tt s'
    /\ Game.interactionStartTime s' = start
    /\ Game.showScore s'
       = Game.showScore s || (interacting inp && (1000 <? now inp - start))
    /\ Game.showHint s'
       = Game.showHint s && negb (interacting inp && (2000 <? now inp - start))
    /\ Game.localStorage s' = Game.localStorage s.
Proof.
  apply (frame_reveals_score_and_hides_hint exampleRandom Js.sqrt6 canvasOptions
           (Game.initialGameState 0) (idleInputs 16) 16 populatedState).
  - exact exampleRandom_unit.
  - vm_compute. lia.
Defined.
(** ** Edges of the cost table, the panel and the collectors *)

(** X17.  An id outside the tables.  An id that is none of the seven
    upgrade ids and no property name that objects inherit falls back to
    base cost 10 and factor 1.5: its price is [Math.floor(10 *
    Math.pow(1.5, L))], finite and strictly increasing on the levels 0 to
    100.  For a name that every object inherits ([toString],
    [constructor], [__proto__], ...) both look-ups give a function or an
    object, which [||] keeps, and the price is [NaN]. *)
Theorem getUpgradeCost_falls_back
    (pow : Binary64.number -> Z -> Binary64.number) (name : string) (L : Z) :
  Binary64.Accurate pow ->
  (forall k, name <> Game.key_name k) ->
  (name ∈ Js.objectPrototypeKeys ->
   Binary64.getUpgradeCost pow name L = Binary64.NaN)
  /\ (name ∉ Js.objectPrototypeKeys ->
      Binary64.getUpgradeCost pow name L
      = Binary64.floor
          (Binary64.mul (Binary64.of_Z 10) (pow (Binary64.of_Q 1.5) L))
      /\ (0 <= L <= 100 ->
          exists c c',
            Binary64.toZ (Binary64.getUpgradeCost pow name L) = Some c
            /\ Binary64.toZ (Binary64.getUpgradeCost pow name (L + 1)) = Some c'
            /\ c < c')).
Proof.
  intros Hacc Hname.
  assert (Hnotin : name ∉ Game.key_name <$> Shop.upgradeTypes).
  { intros Hin. apply list_elem_of_fmap in Hin as (k & -> & _).
    apply (Hname k). reflexivity. }
  assert (Hb : baseCosts !! name = None)
    by (apply not_elem_of_list_to_map_1; exact Hnotin).
  assert (Hf : scaleFactor !! name = None)
    by (apply not_elem_of_list_to_map_1; exact Hnotin).
  split.
  - apply (getUpgradeCost_binary64_unknown pow name L Hb Hf).
  - intros Hout. split.
    + apply (getUpgradeCost_binary64_unknown pow name L Hb Hf). exact Hout.
    + intros HL.
      rewrite (proj2 (getUpgradeCost_binary64_unknown pow name L Hb Hf) Hout).
      rewrite (proj2 (getUpgradeCost_binary64_unknown pow name (L + 1) Hb Hf)
                 Hout).
      apply (fallback_price_rises pow Hacc L HL).
Qed.

Lemma getUpgradeCost_falls_back_witness :
  let pow := Binary64.pow_nearest in
  let name := "gravity"%string in
  (name ∈ Js.objectPrototypeKeys ->
   Binary64.getUpgradeCost pow name 2 = Binary64.NaN)
  /\ (name ∉ Js.objectPrototypeKeys ->
      Binary64.getUpgradeCost pow name 2
      = Binary64.floor
          (Binary64.mul (Binary64.of_Z 10) (pow (Binary64.of_Q 1.5) 2))
      /\ (0 <= 2 <= 100 ->
          exists c c',
            Binary64.toZ (Binary64.getUpgradeCost pow name 2) = Some c
            /\ Binary64.toZ (Binary64.getUpgradeCost pow name (2 + 1)) = Some c'
            /\ c < c')).
Proof.
  apply (getUpgradeCost_falls_back Binary64.pow_nearest "gravity" 2).
  - exact pow_nearest_Accurate.
  - intros k. destruct k; discriminate.
Defined.

Example getUpgradeCost_of_inherited_names :
  (fun name => Binary64.getUpgradeCost Binary64.pow_nearest name 2)
    <$> ["toString"; "constructor"; "__proto__"]%string
  = [Binary64.NaN; Binary64.NaN; Binary64.NaN]
  /\ Binary64.toZ (Binary64.getUpgradeCost Binary64.pow_nearest "gravity" 2)
     = Some 22.
Proof. vm_compute. split; reflexivity. Qed.

Lemma sqrt6_of_zero (q : Q) : (q == 0)%Q -> Js.ltb (Js.sqrt6 q) 30 = true.
Proof.
  intros Hq. unfold Js.sqrt6.
  replace (Qfloor (q * 1000000000000)) with 0.
  - vm_compute. reflexivity.
  - symmetry. rewrite <- (Qfloor_Z 0). apply Qfloor_comp.
    rewrite Hq. reflexivity.
Qed.

Section PanelAndCollectors.
Import Game Shop.

Variable random : nat -> Q.
Variable sqrt : Q -> Q.
Variable opts : Options.


(** X19.  A collector can collect itself.  With at least one auto-collector
    level, [initParticles] makes the particle at index 0 both a collector
    and a target; the loop of "Auto-collectors can collect targets on their
    own" in its round finds it at distance [Math.sqrt(0)] of itself and
    collects it: score and currency grow by one without the pointer. *)
Theorem first_collector_collects_itself gameState canvas now s :
  1 <= autoCollectors (upgrades gameState) ->
  1 <= actualMaxParticles opts gameState ->
  (forall q, (q == 0)%Q -> Js.ltb (sqrt q) 30 = true) ->
  exists s1 s2 p,
    initParticles random opts gameState (Some canvas) s = Ok tt s1
    /\ particles s1 !! 0%nat = Some p
    /\ is_collector p = true /\ is_target p = true
    /\ autoCollect random sqrt now 0 s1 = Ok tt s2
    /\ score (gameStateCell s2) = score (gameStateCell s) + 1
    /\ currency (gameStateCell s2) = currency (gameStateCell s) + 1
    /\ length (particles s2) = (length (particles s1) + 10)%nat.
Proof.
  intros Hc Hmax Hsqrt.
  destruct (initParticles_run random opts gameState (Some canvas) s)
    as (s1 & H1 & Hp1 & Hg1 & _).
  assert (Hlen : (0 < length (particles s1))%nat).
  { rewrite Hp1, population_length. lia. }
  destruct (lookup_lt_is_Some_2 _ _ Hlen) as [p Hp].
  pose proof Hp as Hfl. rewrite Hp1 in Hfl.
  apply population_flags in Hfl as (Ht & Hcl & _).
  assert (Hic : is_collector p = true).
  { unfold is_collector. rewrite Hcl. change (Z.of_nat 0) with 0.
    destruct (Z.ltb_spec 0 (autoCollectors (upgrades gameState)));
      [reflexivity | lia]. }
  assert (Hit : is_target p = true) by (unfold is_target; rewrite Ht; reflexivity).
  destruct (collectTarget_run random now 0 s1 p Hp Hit)
    as (s2 & H2 & Hp2 & Hg2 & _).
  exists s1, s2, p. split; [exact H1|]. split; [exact Hp|].
  split; [exact Hic|]. split; [exact Hit|]. split.
  - unfold autoCollect.
    erewrite bind_Ok by (apply particleAt_run; exact Hp).
    rewrite Hic. erewrite bind_Ok by reflexivity.
    destruct (particles s1) as [|p0 rest] eqn:E; [discriminate Hp|].
    injection Hp as ->. cbn [findIndex]. rewrite Hit. cbn [andb].
    unfold distance. rewrite Hsqrt by ring. exact H2.
  - rewrite Hg2, Hg1, Hp2, length_app, length_insert, burstsFrom_length.
    cbn. auto.
Qed.

End PanelAndCollectors.


Lemma first_collector_collects_itself_witness :
  exists s1 s2 p,
    Game.initParticles exampleRandom canvasOptions collectorGameState
      (Some exampleCanvas) exampleState = Ok tt s1
    /\ Game.particles s1 !! 0%nat = Some p
    /\ Game.is_collector p = true /\ Game.is_target p = true
    /\ Game.autoCollect exampleRandom Js.sqrt6 1000 0 s1 = Ok tt s2
    /\ Game.score (Game.gameStateCell s2)
       = Game.score (Game.gameStateCell exampleState) + 1
    /\ Game.currency (Game.gameStateCell s2)
       = Game.currency (Game.gameStateCell exampleState) + 1
    /\ length (Game.particles s2) = (length (Game.particles s1) + 10)%nat.
Proof.
  apply (first_collector_collects_itself exampleRandom Js.sqrt6 canvasOptions
           collectorGameState exampleCanvas 1000 exampleState).
  - vm_compute. discriminate.
  - vm_compute. discriminate.
  - exact sqrt6_of_zero.
Defined.
(** ** The target under the pointer *)

Section PointerCollects.
Import Game GameFrame GameTarget.

Variable random : nat -> Q.
Variable sqrt : Q -> Q.
Variable opts : Options.

Lemma Step_Pending i k p g0 s s' :
  Step i s s' -> Pending k p g0 s -> Pending k p g0 s'.
Proof.
  intros [Hp Hg | f Hf Hp Hg | j t bs Hj Ht Hb Hp Hg]
         (q & Hk & Hx & Hy & Hs & Hc & Hd); unfold Pending; rewrite Hp, Hg.
  - exists q. split_and!; auto.
  - destruct (decide (k = i)) as [->|Hne].
    + exists (f q). rewrite list_lookup_alter_eq, Hk.
      destruct (Hf q) as (-> & -> & Ft & _).
      unfold is_target. rewrite Ft. split_and!; auto.
    + exists q. rewrite list_lookup_alter_ne by congruence. split_and!; auto.
  - rewrite lookup_app_l
      by (rewrite length_insert; apply lookup_lt_Some in Hk; exact Hk).
    cbn [collected score currency].
    destruct (decide (k = j)) as [->|Hne].
    + exists (set_isTarget false t).
      rewrite list_lookup_insert_eq by (apply lookup_lt_Some in Hj; exact Hj).
      assert (t = q) as -> by congruence.
      split_and!; auto; try lia; try (intros _; lia).
    + exists q. rewrite list_lookup_insert_ne by congruence.
      split_and!; auto; try lia; try (intros Hq; destruct (Hd Hq); lia).
Qed.

Lemma Steps_Pending i k p g0 s s' :
  rtc (Step i) s s' -> Pending k p g0 s -> Pending k p g0 s'.
Proof. induction 1; eauto using Step_Pending. Qed.

Lemma Step_Collected i k g0 s s' :
  Step i s s' -> Collected k g0 s -> Collected k g0 s'.
Proof.
  intros [Hp Hg | f Hf Hp Hg | j t bs Hj Ht Hb Hp Hg]
         (q & Hk & Hq & Hs & Hc); unfold Collected; rewrite Hp, Hg.
  - exists q. auto.
  - destruct (decide (k = i)) as [->|Hne].
    + exists (f q). rewrite list_lookup_alter_eq, Hk.
      destruct (Hf q) as (_ & _ & Ft & _).
      unfold is_target. rewrite Ft. split_and!; auto.
    + exists q. rewrite list_lookup_alter_ne by congruence. auto.
  - rewrite lookup_app_l
      by (rewrite length_insert; apply lookup_lt_Some in Hk; exact Hk).
    cbn [collected score currency].
    destruct (decide (k = j)) as [->|Hne].
    + congruence.
    + exists q. rewrite list_lookup_insert_ne by congruence.
      split_and!; auto; lia.
Qed.

Lemma Steps_Collected i k g0 s s' :
  rtc (Step i) s s' -> Collected k g0 s -> Collected k g0 s'.
Proof. induction 1; eauto using Step_Collected. Qed.

Lemma Round_Pending nd cs i k p g0 s s' :
  i <> k -> Round nd cs i s s' -> Pending k p g0 s -> Pending k p g0 s'.
Proof.
  intros Hne (s0 & q & Hsteps & Hq & Hp & Hg) HP.
  apply (Steps_Pending i k p g0 s s0 Hsteps) in HP
    as (r & Hk & Hx & Hy & Hs & Hc & Hd).
  exists r. rewrite Hp, Hg, list_lookup_insert_ne by congruence.
  split_and!; auto.
Qed.

Lemma Round_Collected nd cs i k g0 s s' :
  Round nd cs i s s' -> Collected k g0 s -> Collected k g0 s'.
Proof.
  intros (s0 & q & Hsteps & Hq & Hp & Hg) HC.
  apply (Steps_Collected i k g0 s s0 Hsteps) in HC as (r & Hk & Hr & Hs & Hc).
  unfold Collected. rewrite Hp, Hg.
  destruct (decide (k = i)) as [->|Hne].
  - exists (contain cs (integrate nd q)).
    rewrite list_lookup_insert_eq by (apply lookup_lt_Some in Hq; exact Hq).
    assert (q = r) as -> by congruence.
    rewrite is_target_contain, is_target_integrate. auto.
  - exists r. rewrite list_lookup_insert_ne by congruence. auto.
Qed.

(** The round of a target that the pointer is within 30 units of. *)
Lemma updateParticle_under_pointer gameState inp nd k p g0 mx my s s' :
  mousePos inp = Some (mx, my) ->
  Js.ltb (distance sqrt (x p - mx) (y p - my)) 30 = true ->
  updateParticle random sqrt opts gameState inp nd k s = Ok tt s' ->
  Pending k p g0 s -> Collected k g0 s'.
Proof.
  intros Hm Hd H HP.
  destruct (updateParticle_split random sqrt opts gameState inp nd k s s' H)
    as (s3 & q3 & H0 & Hq3 & Hps').
  rewrite (updateParticle_after random sqrt opts _ _ _ _ _ _ H0) in H.
  injection H as <-.
  assert (HC : Collected k g0 s3).
  { unfold beforeIntegration in H0.
    apply bind_inv in H0 as ([] & s1 & H1 & H0).
    apply bind_inv in H0 as ([] & s2 & H2 & H3).
    apply (Traces_steer random sqrt) in H1.
    apply (Traces_autoCollect random sqrt) in H2.
    apply (Steps_Pending k k p g0 s s1 H1) in HP.
    apply (Steps_Pending k k p g0 s1 s2 H2) in HP.
    destruct HP as (q & Hk & Hx & Hy & Hs & Hc & Hdone).
    unfold mouseInteraction in H3. rewrite Hm in H3.
    erewrite bind_Ok in H3 by (apply particleAt_run; exact Hk).
    rewrite Hx, Hy, Hd, andb_true_r in H3.
    apply bind_inv in H3 as ([] & s2' & Hcol & Hrep).
    assert (HC : Collected k g0 s2').
    { destruct (is_target q) eqn:Ht; cbn [when] in Hcol.
      - destruct (collectTarget_run random (now inp) k s2 q Hk Ht)
          as (sc & Hrun & Hpc & Hgc & _).
        rewrite Hrun in Hcol. injection Hcol as <-.
        exists (set_isTarget false q). rewrite Hpc, Hgc.
        rewrite lookup_app_l
          by (rewrite length_insert; apply lookup_lt_Some in Hk; exact Hk).
        rewrite list_lookup_insert_eq by (apply lookup_lt_Some in Hk; exact Hk).
        cbn [collected score currency]. split_and!; auto; lia.
      - injection Hcol as <-. exists q. destruct (Hdone eq_refl). auto. }
    apply (Traces_when k _ _ (Traces_update k _ (Nudge_add_vel _ _))) in Hrep.
    apply (Steps_Collected k k g0 s2' s3 Hrep HC). }
  destruct HC as (r & Hk & Hr & Hs & Hc).
  assert (q3 = r) as -> by congruence.
  exists (contain (canvasSize inp) (integrate nd r)).
  replace (particles (with_particles _ (with_particles _ s3)))
    with (alter (contain (canvasSize inp)) k
            (alter (integrate nd) k (particles s3)))
    by (destruct s3; reflexivity).
  replace (gameStateCell (with_particles _ (with_particles _ s3)))
    with (gameStateCell s3) by (destruct s3; reflexivity).
  rewrite !list_lookup_alter_eq, Hk. cbn.
  rewrite is_target_contain, is_target_integrate. auto.
Qed.

Lemma updateLoop_under_pointer gameState inp nd k p g0 mx my fuel :
  mousePos inp = Some (mx, my) ->
  Js.ltb (distance sqrt (x p - mx) (y p - my)) 30 = true ->
  forall i s s',
    updateLoop random sqrt opts fuel gameState inp nd i s = Ok tt s' ->
    ((i <= k)%nat -> Pending k p g0 s) ->
    ((k < i)%nat -> Collected k g0 s) ->
    Collected k g0 s'.
Proof.
  intros Hm Hd. induction fuel as [|fuel IH]; intros i s s' H HP HC;
    [discriminate H|].
  cbn [updateLoop] in H. erewrite bind_Ok in H by reflexivity.
  destruct (Nat.ltb_spec i (length (particles s))) as [Hlt|Hge].
  - apply bind_inv in H as ([] & s1 & H1 & H2).
    apply (IH (S i) s1 s' H2).
    + intros Hi. apply (Round_Pending nd (canvasSize inp) i k p g0 s s1);
        [lia | apply (updateParticle_round random sqrt opts gameState); exact H1
        | apply HP; lia].
    + intros Hi. destruct (decide (i = k)) as [->|Hne].
      * apply (updateParticle_under_pointer gameState inp nd k p g0 mx my s s1
                 Hm Hd H1). apply HP. lia.
      * apply (Round_Collected nd (canvasSize inp) i k g0 s s1);
          [apply (updateParticle_round random sqrt opts gameState); exact H1
          | apply HC; lia].
  - injection H as <-. apply HC.
    destruct (Nat.le_gt_cases i k) as [Hik|Hki]; [|exact Hki].
    destruct (HP Hik) as (q & Hk & _). apply lookup_lt_Some in Hk. lia.
Qed.

(** X20.  The frame collects the target under the pointer.  If the array
    holds a target within 30 units of the pointer when a frame starts,
    the frame returns, that particle is no target afterwards, and score
    and currency have grown by at least one. *)
Theorem frame_collects_the_target_under_the_pointer
    gameState inp delta s k p mx my :
  (forall n, (0 <= random n)%Q /\ (random n < 1)%Q) ->
  mousePos inp = Some (mx, my) ->
  particles s !! k = Some p -> is_target p = true ->
  Js.ltb (distance sqrt (x p - mx) (y p - my)) 30 = true ->
  exists s' p',
    updateParticles random sqrt opts gameState inp delta s = Ok tt s'
    /\ particles s' !! k = Some p'
    /\ is_target p' = false
    /\ score (gameStateCell s) + 1 <= score (gameStateCell s')
    /\ currency (gameStateCell s) + 1 <= currency (gameStateCell s').
Proof.
  intros Hr Hm Hk Ht Hd.
  assert (Hlen : (0 < length (particles s))%nat)
    by (apply lookup_lt_Some in Hk; lia).
  destruct (updateParticles_total random sqrt opts gameState inp delta s Hr Hlen)
    as (s' & Hrun & _).
  pose proof Hrun as Hrun'. unfold updateParticles in Hrun'.
  apply bind_inv in Hrun' as ([] & s0 & H0 & Hrun').
  apply bind_inv in Hrun' as ([] & s1 & H1 & Hrun').
  erewrite bind_Ok in Hrun' by reflexivity.
  apply noteInteraction_cell in H0 as [Hp0 Hg0].
  apply (replenish_promotes random opts) in H1 as [Hg1 Hp1].
  assert (HP : Pending k p (gameStateCell s) s1).
  { exists p. rewrite Hg1.
    assert (Hsc : score (gameStateCell s0) = score (gameStateCell s)
                  /\ currency (gameStateCell s0) = currency (gameStateCell s))
      by (destruct Hg0 as [-> | ->]; auto).
    destruct Hsc as [-> ->].
    split; [|split_and!; try lia; intros; congruence].
    rewrite Hp0 in Hp1.
    destruct Hp1 as [-> | (j & q & _ & Hj & Hq & _ & ->)]; [exact Hk|].
    rewrite list_lookup_insert_ne; [exact Hk|]. congruence. }
  destruct (updateLoop_under_pointer gameState inp (Js.min delta 32 / 16)
              k p (gameStateCell s) mx my _ Hm Hd 0 s1 s' Hrun')
    as (p' & Hk' & Ht' & Hs' & Hc'); [intros _; exact HP | lia|].
  exists s', p'. auto.
Qed.

End PointerCollects.

Lemma frame_collects_the_target_under_the_pointer_witness :
  exists s' p',
    Game.updateParticles exampleRandom Js.sqrt6 canvasOptions
      (Game.initialGameState 0) (pointerInputs firstFrameTime) 16 collectorState
    = Ok tt s'
    /\ Game.particles s' !! 1%nat = Some p'
    /\ Game.is_target p' = false
    /\ Game.score (Game.gameStateCell collectorState) + 1
       <= Game.score (Game.gameStateCell s')
    /\ Game.currency (Game.gameStateCell collectorState) + 1
       <= Game.currency (Game.gameStateCell s').
Proof.
  apply (frame_collects_the_target_under_the_pointer exampleRandom Js.sqrt6
           canvasOptions (Game.initialGameState 0) (pointerInputs firstFrameTime)
           16 collectorState 1 targetParticle 405 300).
  - exact exampleRandom_unit.
  - reflexivity.
  - reflexivity.
  - reflexivity.
  - vm_compute. reflexivity.
Defined.
(** ** The ranges of a fresh population *)

Section FreshPopulation.
Import Game.

Variable random : nat -> Q.
Variable opts : Options.

Lemma Js_min_bounds (a b : Q) :
  (0 <= a)%Q -> (0 <= b)%Q -> (0 <= Js.min a b <= a)%Q.
Proof.
  intros Ha Hb. unfold Js.min. destruct (Js.ltb b a) eqn:E.
  - apply ltb_lt in E. lra.
  - lra.
Qed.

(** The ranges of the object literal of [initParticles], for draws in
    [0, 1). *)
Lemma particleLiteral_ranges gameState canvas i rau rx ry rs rvx rvy rc ra :
  (0 <= rau < 1)%Q -> (0 <= rx < 1)%Q -> (0 <= ry < 1)%Q -> (0 <= rs < 1)%Q ->
  (0 <= rvx < 1)%Q -> (0 <= rvy < 1)%Q -> (0 <= ra < 1)%Q ->
  (0 <= width canvas)%Q -> (0 <= height canvas)%Q ->
  0 <= particleSize (upgrades gameState) ->
  0 <= particleSpeed (upgrades gameState) ->
  0 <= autonomyLevel (upgrades gameState) ->
  let p := particleLiteral gameState canvas i rau rx ry rs rvx rvy rc ra in
  let grow := (1 + inject_Z (particleSize (upgrades gameState)) * 0.1)%Q in
  let speed := inject_Z (particleSpeed (upgrades gameState)) in
  (0 <= x p <= width canvas)%Q /\ (0 <= y p <= height canvas)%Q
  /\ (grow <= size p <= 3 * grow)%Q
  /\ (- (0.25 * speed) <= vx p <= 0.25 * speed)%Q
  /\ (- (0.25 * speed) <= vy p <= 0.25 * speed)%Q
  /\ (0.5 <= alpha p <= 1)%Q
  /\ (0 <= autonomy p <= 0.8)%Q
  /\ lastDirectionChange p = 0.
Proof.
  intros Hau Hx Hy Hs Hvx Hvy Ha Hw Hh HLs HLv HLa.
  pose proof (inject_Z_nonneg _ HLs) as Is.
  pose proof (inject_Z_nonneg _ HLv) as Iv.
  pose proof (inject_Z_nonneg _ HLa) as Ia.
  unfold particleLiteral.
  cbn [x y size vx vy alpha autonomy lastDirectionChange].
  set (zs := inject_Z (particleSize (upgrades gameState))) in *.
  set (zv := inject_Z (particleSpeed (upgrades gameState))) in *.
  set (za := inject_Z (autonomyLevel (upgrades gameState))) in *.
  assert (Hb : (0 <= Js.min 0.8 (za * 0.2) <= 0.8)%Q)
    by (apply Js_min_bounds; lra).
  set (b := Js.min 0.8 (za * 0.2)) in *.
  repeat split; try nra.
Qed.

(** X21.  The ranges of a fresh population.  With [Math.random()] in
    [0, 1), a canvas of non-negative width and height and non-negative
    levels of [particleSize], [particleSpeed] and [autonomyLevel],
    [initParticles] produces only particles that lie inside the canvas,
    whose size is between 1 and 3 times [1 + 0.1 * particleSize], whose
    velocity components are within [0.25 * particleSpeed] of zero, whose
    alpha is between 0.5 and 1, whose autonomy is between 0 and 0.8, and
    that have not yet changed direction. *)
Theorem initParticles_particles_in_range gameState canvas s :
  (forall n, (0 <= random n)%Q /\ (random n < 1)%Q) ->
  (0 <= width canvas)%Q -> (0 <= height canvas)%Q ->
  0 <= particleSize (upgrades gameState) ->
  0 <= particleSpeed (upgrades gameState) ->
  0 <= autonomyLevel (upgrades gameState) ->
  exists s',
    initParticles random opts gameState (Some canvas) s = Ok tt s'
    /\ forall p, p ∈ particles s' ->
         let grow := (1 + inject_Z (particleSize (upgrades gameState)) * 0.1)%Q in
         let speed := inject_Z (particleSpeed (upgrades gameState)) in
         (0 <= x p <= width canvas)%Q /\ (0 <= y p <= height canvas)%Q
         /\ (grow <= size p <= 3 * grow)%Q
         /\ (- (0.25 * speed) <= vx p <= 0.25 * speed)%Q
         /\ (- (0.25 * speed) <= vy p <= 0.25 * speed)%Q
         /\ (0.5 <= alpha p <= 1)%Q
         /\ (0 <= autonomy p <= 0.8)%Q
         /\ lastDirectionChange p = 0.
Proof.
  intros Hr Hw Hh HLs HLv HLa.
  destruct (initParticles_run random opts gameState (Some canvas) s)
    as (s' & Hrun & Hp & _).
  exists s'. split; [exact Hrun|]. rewrite Hp.
  intros p Hin. apply list_elem_of_lookup in Hin as [i Hi].
  unfold population in Hi. apply populationFrom_lookup in Hi. subst p.
  unfold freshParticle.
  apply particleLiteral_ranges; try assumption; apply Hr.
Qed.

End FreshPopulation.

Lemma initParticles_particles_in_range_witness :
  exists s',
    Game.initParticles exampleRandom canvasOptions wealthyGameState
      (Some exampleCanvas) wealthyState = Ok tt s'
    /\ forall p, p ∈ Game.particles s' ->
         let grow :=
           (1 + inject_Z (Game.particleSize (Game.upgrades wealthyGameState))
                * 0.1)%Q in
         let speed :=
           inject_Z (Game.particleSpeed (Game.upgrades wealthyGameState)) in
         (0 <= Game.x p <= width exampleCanvas)%Q
         /\ (0 <= Game.y p <= height exampleCanvas)%Q
         /\ (grow <= Game.size p <= 3 * grow)%Q
         /\ (- (0.25 * speed) <= Game.vx p <= 0.25 * speed)%Q
         /\ (- (0.25 * speed) <= Game.vy p <= 0.25 * speed)%Q
         /\ (0.5 <= Game.alpha p <= 1)%Q
         /\ (0 <= Game.autonomy p <= 0.8)%Q
         /\ Game.lastDirectionChange p = 0.
Proof.
  apply (initParticles_particles_in_range exampleRandom canvasOptions
           wealthyGameState exampleCanvas wealthyState).
  - exact exampleRandom_unit.
  - vm_compute. discriminate.
  - vm_compute. discriminate.
  - vm_compute. discriminate.
  - vm_compute. discriminate.
  - vm_compute. discriminate.
Defined.
